(** * Slot machine: reel animation and outcome evaluation

    Shallow embedding of the reel manager (tweening, start of a reel
    spin, per-frame symbol recycling, win-line sampling; the module the
    game imports as [reelManager.js], lines 81-372 of
    [scripts/fireworks/explodeRocket.js]) and of the spin session of
    [scripts/slot/slotGame.js] ([startSpin], [checkWin]).

    JavaScript numbers that hold scroll positions and sprite offsets are
    modelled as exact rationals extended with [NaN]; timestamps and the
    balance are integers.  The module-level variables of both modules,
    the animation-frame queue, the promises created by [startReelSpin],
    the sequence of [Math.random] draws and the calls made on the UI
    manager form one explicit state, [world]. *)

From Stdlib Require Import String ZArith QArith Qround Qreduction Qabs List Bool Lia Lqa.
From Stdlib Require Import Permutation Sorted Qpower.
Import ListNotations.

Local Open Scope Z_scope.

(* ================================================================== *)
(** ** Numbers *)

(** A JavaScript number restricted to what the reel code can produce:
    an exact rational, or [NaN] (arithmetic on [undefined]). *)
Inductive num : Type :=
| Num (q : Q)
| NaN.

Definition num_eq (a b : num) : Prop :=
  match a, b with
  | Num x, Num y => (x == y)%Q
  | NaN, NaN => True
  | _, _ => False
  end.

Definition Qltb (a b : Q) : bool := negb (Qle_bool b a).

(** Rational results are kept in lowest terms. *)
Definition nadd (a b : num) : num :=
  match a, b with Num x, Num y => Num (Qred (x + y)) | _, _ => NaN end.
Definition nsub (a b : num) : num :=
  match a, b with Num x, Num y => Num (Qred (x - y)) | _, _ => NaN end.
Definition nmul (a b : num) : num :=
  match a, b with Num x, Num y => Num (Qred (x * y)) | _, _ => NaN end.

(** [a / b]; a zero divisor (an infinity in JavaScript) is not
    represented and is reported as [NaN].  Every divisor in the reel
    code is a positive constant or a tween duration of at least 2000. *)
Definition ndiv (a b : num) : num :=
  match a, b with
  | Num x, Num y => if Qeq_bool y 0 then NaN else Num (Qred (x / y))
  | _, _ => NaN
  end.

(** Comparison with [NaN] is false. *)
Definition nltb (a b : num) : bool :=
  match a, b with Num x, Num y => Qltb x y | _, _ => false end.
Definition ngtb (a b : num) : bool := nltb b a.

(** Truncation towards zero. *)
Definition Qtrunc (q : Q) : Z :=
  if Qltb q 0 then Qceiling q else Qfloor q.

(** The [%] operator: remainder with the sign of the dividend. *)
Definition nmod (a b : num) : num :=
  match a, b with
  | Num x, Num y =>
      if Qeq_bool y 0 then NaN
      else Num (Qred (x - y * inject_Z (Qtrunc (x / y))))
  | _, _ => NaN
  end.

(** [Math.abs]. *)
Definition nabs (a : num) : num :=
  match a with Num x => Num (Qabs x) | NaN => NaN end.

Definition ofZ (z : Z) : num := Num (inject_Z z).
Definition ofNat (n : nat) : num := ofZ (Z.of_nat n).

(* ================================================================== *)
(** ** Reel configuration constants *)

Definition SYMBOL_SIZE : num := Num 160.
Definition CELL_HEIGHT : num := Num 200.
Definition NUM_VISIBLE_SYMBOLS : nat := 3.
Definition NUM_SYMBOLS_PER_REEL_STRIP : nat := 10.
Definition SPIN_DURATION_BASE : Z := 2000.

Definition totalStripHeight : num :=
  nmul (ofNat NUM_SYMBOLS_PER_REEL_STRIP) CELL_HEIGHT.

(* ================================================================== *)
(** ** Tween utilities *)

(** [lerp a b t = a + (b - a) * t]. *)
Definition lerp (a b t : num) : num := nadd a (nmul (nsub b a) t).

(** [backout amount t]. *)
Definition backout (amount : num) (t : num) : num :=
  let t := nsub t (Num 1) in
  nadd (nmul (nmul t t) (nadd (nmul (nadd amount (Num 1)) t) amount)) (Num 1).

(* ================================================================== *)
(** ** Scroll target of one reel ([startReelSpin], lines 164-191) *)

Definition minFullSpins : num := Num 5.

(** [results[index]], as a number: a missing entry is [undefined] and
    every product with it is [NaN]. *)
Definition resultAt (results : list nat) (index : nat) : num :=
  match nth_error results index with
  | Some t => ofNat t
  | None => NaN
  end.

Definition winningSymbolTargetYInStrip (result : num) : num :=
  nmul result CELL_HEIGHT.

Definition offsetToCenterVisibleArea : num := nmul CELL_HEIGHT (Num 1).

Definition finalDesiredReelPosition (result : num) : num :=
  nsub offsetToCenterVisibleArea (winningSymbolTargetYInStrip result).

Definition currentReelPositionNormalized (position : num) : num :=
  let c := nmod position totalStripHeight in
  if nltb c (Num 0) then nadd c totalStripHeight else c.

Definition distanceToAlign (position result : num) : num :=
  let d := nsub (finalDesiredReelPosition result)
                (currentReelPositionNormalized position) in
  if nltb d (Num 0) then nadd d totalStripHeight else d.

Definition spinDistance (position result : num) : num :=
  nadd (nmul minFullSpins totalStripHeight) (distanceToAlign position result).

Definition targetPosition (position result : num) : num :=
  nadd position (spinDistance position result).

(* ================================================================== *)
(** ** Data model *)

(** A loaded [PIXI.Texture], identified by its position in
    [symbolImagePaths]; [TexUndefined] is the result of indexing a
    texture array out of range. *)
Inductive Texture : Type :=
| Tex (id : nat)
| TexUndefined.

Definition Texture_eqb (a b : Texture) : bool :=
  match a, b with
  | Tex i, Tex j => Nat.eqb i j
  | TexUndefined, TexUndefined => true
  | _, _ => false
  end.

(** The value stored in a field that may hold an object reference. *)
Inductive jsval : Type :=
| JsNull
| JsUndefined
| JsObject (id : nat).

Definition truthy (v : jsval) : bool :=
  match v with JsObject _ => true | _ => false end.

(** A symbol sprite: vertical offset and texture. *)
Record symbol : Type := mkSymbol {
  sym_y : num;
  sym_texture : Texture
}.

Record reel : Type := mkReel {
  symbols : list symbol;
  position : num;
  previousPosition : num;
  spinTween : jsval
}.

(** [Math.random]: an arbitrary sequence of draws and the number of
    draws taken so far. *)
Record random : Type := mkRandom {
  source : nat -> nat;
  used : nat
}.

(** [Math.floor(Math.random() * n)]. *)
Definition randomIndex (n : nat) (g : random) : nat * random :=
  ((if Nat.eqb n 0 then 0 else Nat.modulo (source g (used g)) n)%nat,
   mkRandom (source g) (S (used g))).

Definition textureAt (textures : list Texture) (i : nat) : Texture :=
  nth i textures TexUndefined.

(** [textures[Math.floor(Math.random() * textures.length)]]. *)
Definition randomTexture (textures : list Texture) (g : random)
  : Texture * random :=
  let (i, g') := randomIndex (length textures) g in
  (textureAt textures i, g').

(** A pending [animate] callback of [tweenTo] with the variables its
    closure captured: the animated reel (by index in [reels]), the
    tween parameters, and what [onComplete] captured from
    [startReelSpin]. *)
Record tween : Type := mkTween {
  tw_index : nat;
  tw_start : num;
  tw_target : num;
  tw_startTime : Z;
  tw_time : Z;
  tw_amount : num;
  tw_spin : nat;
  tw_results : list nat;
  tw_forceWin : bool
}.

(** The closure state of one call of [startReelSpin]: its counter
    [reelsStopping], how often [resolve] was called on its promise, and
    whether [startSpin] awaits the promise. *)
Record spinCall : Type := mkSpinCall {
  reelsStopping : nat;
  resolved : nat;
  awaited : bool
}.

(** Calls made on the UI manager. *)
Inductive uiEvent : Type :=
| ShowGameMessage (message : string)
| UpdateBalanceDisplay (newBalance : Z)
| SetSpinButtonsEnabled (enable : bool)
| HideWinLossMessage
| ShowWinLossMessage (message : string) (isWin : bool)
| TriggerFireworksSequence.

(** Module-level variables of both modules and the run-time
    environment (animation-frame queue, promises, random source, UI
    calls made so far). *)
Record world : Type := mkWorld {
  reels : list reel;
  _slotTextures : list Texture;
  slotTextures : list Texture;
  balance : Z;
  spinning : bool;
  rafQueue : list tween;
  spinCalls : list spinCall;
  rand : random;
  ui : list uiEvent
}.

Definition set_reels (v : list reel) (w : world) : world :=
  mkWorld v (_slotTextures w) (slotTextures w) (balance w) (spinning w)
          (rafQueue w) (spinCalls w) (rand w) (ui w).
Definition set__slotTextures (v : list Texture) (w : world) : world :=
  mkWorld (reels w) v (slotTextures w) (balance w) (spinning w)
          (rafQueue w) (spinCalls w) (rand w) (ui w).
Definition set_slotTextures (v : list Texture) (w : world) : world :=
  mkWorld (reels w) (_slotTextures w) v (balance w) (spinning w)
          (rafQueue w) (spinCalls w) (rand w) (ui w).
Definition set_balance (v : Z) (w : world) : world :=
  mkWorld (reels w) (_slotTextures w) (slotTextures w) v (spinning w)
          (rafQueue w) (spinCalls w) (rand w) (ui w).
Definition set_spinning (v : bool) (w : world) : world :=
  mkWorld (reels w) (_slotTextures w) (slotTextures w) (balance w) v
          (rafQueue w) (spinCalls w) (rand w) (ui w).
Definition set_rafQueue (v : list tween) (w : world) : world :=
  mkWorld (reels w) (_slotTextures w) (slotTextures w) (balance w) (spinning w)
          v (spinCalls w) (rand w) (ui w).
Definition set_spinCalls (v : list spinCall) (w : world) : world :=
  mkWorld (reels w) (_slotTextures w) (slotTextures w) (balance w) (spinning w)
          (rafQueue w) v (rand w) (ui w).
Definition set_rand (v : random) (w : world) : world :=
  mkWorld (reels w) (_slotTextures w) (slotTextures w) (balance w) (spinning w)
          (rafQueue w) (spinCalls w) v (ui w).
Definition emit (e : uiEvent) (w : world) : world :=
  mkWorld (reels w) (_slotTextures w) (slotTextures w) (balance w) (spinning w)
          (rafQueue w) (spinCalls w) (rand w) (ui w ++ [e]).

(** Update of the list element at index [i]; nothing happens out of
    range (the code only ever indexes objects it iterates over). *)
Fixpoint updateAt {A : Type} (i : nat) (f : A -> A) (l : list A) : list A :=
  match l, i with
  | [], _ => []
  | x :: t, O => f x :: t
  | x :: t, S j => x :: updateAt j f t
  end.

Definition set_position (v : num) (r : reel) : reel :=
  mkReel (symbols r) v (previousPosition r) (spinTween r).
Definition set_spinTween (v : jsval) (r : reel) : reel :=
  mkReel (symbols r) (position r) (previousPosition r) v.
Definition set_symbols (v : list symbol) (r : reel) : reel :=
  mkReel v (position r) (previousPosition r) (spinTween r).
Definition set_texture (t : Texture) (s : symbol) : symbol :=
  mkSymbol (sym_y s) t.

(* ================================================================== *)
(** ** The ticker callback (lines 336-371) *)

(** Body of the inner loop for one symbol. *)
Definition tickSymbol (textures : list Texture) (deltaY : num)
           (tweenField : jsval) (s : symbol) (g : random) : symbol * random :=
  let y1 := nadd (sym_y s) deltaY in
  if nltb (nadd y1 (ndiv CELL_HEIGHT (Num 2))) (Num 0) then
    let y2 := nadd y1 totalStripHeight in
    if truthy tweenField then
      let (t, g') := randomTexture textures g in (mkSymbol y2 t, g')
    else (mkSymbol y2 (sym_texture s), g)
  else if ngtb (nsub y1 (ndiv CELL_HEIGHT (Num 2)))
               (nmul CELL_HEIGHT (ofNat NUM_VISIBLE_SYMBOLS)) then
    let y2 := nsub y1 totalStripHeight in
    if truthy tweenField then
      let (t, g') := randomTexture textures g in (mkSymbol y2 t, g')
    else (mkSymbol y2 (sym_texture s), g)
  else (mkSymbol y1 (sym_texture s), g).

Fixpoint tickSymbols (textures : list Texture) (deltaY : num)
         (tweenField : jsval) (l : list symbol) (g : random)
  : list symbol * random :=
  match l with
  | [] => ([], g)
  | s :: rest =>
      let (s', g1) := tickSymbol textures deltaY tweenField s g in
      let (rest', g2) := tickSymbols textures deltaY tweenField rest g1 in
      (s' :: rest', g2)
  end.

(** Body of the outer loop for one reel. *)
Definition tickReel (textures : list Texture) (r : reel) (g : random)
  : reel * random :=
  let deltaY := nsub (position r) (previousPosition r) in
  let (syms, g') := tickSymbols textures deltaY (spinTween r) (symbols r) g in
  (mkReel syms (position r) (position r) (spinTween r), g').

Fixpoint tickReels (textures : list Texture) (l : list reel) (g : random)
  : list reel * random :=
  match l with
  | [] => ([], g)
  | r :: rest =>
      let (r', g1) := tickReel textures r g in
      let (rest', g2) := tickReels textures rest g1 in
      (r' :: rest', g2)
  end.

Definition ticker (w : world) : world :=
  let (rs, g) := tickReels (_slotTextures w) (reels w) (rand w) in
  set_rand g (set_reels rs w).

(* ================================================================== *)
(** ** Win-line sampling ([getVisibleTexturesAtWinLine]) *)

Definition targetCenterY : num :=
  nadd (nmul CELL_HEIGHT (Num 1)) (ndiv CELL_HEIGHT (Num 2)).
Definition tolerance : num := Num 5.

(** The inner [for ... break] loop: texture of the first symbol within
    tolerance of the win line, [None] standing for [null]. *)
Fixpoint middleSymbolTexture (l : list symbol) : option Texture :=
  match l with
  | [] => None
  | s :: rest =>
      if nltb (nabs (nsub (sym_y s) targetCenterY)) tolerance
      then Some (sym_texture s)
      else middleSymbolTexture rest
  end.

Definition getVisibleTexturesAtWinLine (w : world) : list (option Texture) :=
  map (fun r => middleSymbolTexture (symbols r)) (reels w).

(* ================================================================== *)
(** ** Outcome evaluation ([checkWin]) *)

Definition SPIN_COST : Z := 100.
Definition winAmount : Z := 500.

(** Strict equality of two sampled entries. *)
Definition sample_eqb (a b : option Texture) : bool :=
  match a, b with
  | Some x, Some y => Texture_eqb x y
  | None, None => true
  | _, _ => false
  end.

(** [texture !== null]. *)
Definition notNull (a : option Texture) : bool :=
  match a with Some _ => true | None => false end.

(** [actualVisibleTextures.every(t => t !== null && t === first)]; on
    an empty array [first] is never inspected. *)
Definition allMatch (sample : list (option Texture)) : bool :=
  let firstActualTexture := hd None sample in
  forallb (fun t => notNull t && sample_eqb t firstActualTexture) sample.

Definition checkWin (w : world) : world :=
  let actualVisibleTextures := getVisibleTexturesAtWinLine w in
  if allMatch actualVisibleTextures then
    let w := set_balance (balance w + winAmount) w in
    let w := emit (UpdateBalanceDisplay (balance w)) w in
    let w := emit (ShowWinLossMessage "GANHASTE 500!" true) w in
    emit TriggerFireworksSequence w
  else
    emit (ShowWinLossMessage "AZAR!" false) w.

(** What [startSpin] does once the awaited promise is resolved. *)
Definition afterReelsStop (w : world) : world :=
  let w := set_spinning false w in
  let w := checkWin w in
  emit (SetSpinButtonsEnabled true) w.

(* ================================================================== *)
(** ** Completion of one reel's tween ([onComplete] in [startReelSpin]) *)

(** Stable insertion sort of indexed symbols by offset, as
    [visibleSymbols.sort((a, b) => a.y - b.y)]. *)
Fixpoint insertByY (x : nat * symbol) (l : list (nat * symbol))
  : list (nat * symbol) :=
  match l with
  | [] => [x]
  | h :: t =>
      if nltb (sym_y (snd h)) (sym_y (snd x)) then h :: insertByY x t
      else x :: h :: t
  end.

Definition sortByY (l : list (nat * symbol)) : list (nat * symbol) :=
  fold_right insertByY [] l.

(** Symbols inside the visible reel area, with their index in
    [reel.symbols]. *)
Fixpoint visibleFrom (i : nat) (l : list symbol) : list (nat * symbol) :=
  match l with
  | [] => []
  | s :: rest =>
      if ngtb (nadd (sym_y s) (ndiv SYMBOL_SIZE (Num 2))) (Num 0)
         && nltb (nsub (sym_y s) (ndiv SYMBOL_SIZE (Num 2)))
                 (nmul (ofNat NUM_VISIBLE_SYMBOLS) CELL_HEIGHT)
      then (i, s) :: visibleFrom (S i) rest
      else visibleFrom (S i) rest
  end.

(** [_slotTextures[results[index]]]. *)
Definition winningTextureOf (textures : list Texture) (results : list nat)
           (index : nat) : Texture :=
  match nth_error results index with
  | Some t => textureAt textures t
  | None => TexUndefined
  end.

(** The forced-win adjustment of one reel's symbols. *)
Definition forceWinAdjust (textures : list Texture) (results : list nat)
           (index : nat) (syms : list symbol) (g : random)
  : list symbol * random :=
  let winningTexture := winningTextureOf textures results index in
  let visibleSymbols := sortByY (visibleFrom 0 syms) in
  match visibleSymbols with
  | (i0, _) :: (i1, _) :: (i2, _) :: _ =>
      let syms := updateAt i1 (set_texture winningTexture) syms in
      let otherTextures :=
        filter (fun t => negb (Texture_eqb t winningTexture)) textures in
      let (t0, g) := randomTexture otherTextures g in
      let syms := updateAt i0 (set_texture t0) syms in
      let (t2, g) := randomTexture otherTextures g in
      let syms := updateAt i2 (set_texture t2) syms in
      (syms, g)
  | _ => (syms, g)
  end.

(** [resolve()] on the promise of call [k]: only the first call settles
    the promise, and settling runs the continuation of an awaiting
    [startSpin]. *)
Definition resolve (k : nat) (w : world) : world :=
  match nth_error (spinCalls w) k with
  | None => w
  | Some c =>
      let w := set_spinCalls
                 (updateAt k (fun c => mkSpinCall (reelsStopping c)
                                                  (S (resolved c)) (awaited c))
                           (spinCalls w)) w in
      if Nat.eqb (resolved c) 0 && awaited c then afterReelsStop w else w
  end.

Definition onComplete (tw : tween) (w : world) : world :=
  (* reelsStopping++ *)
  let w := set_spinCalls
             (updateAt (tw_spin tw)
                       (fun c => mkSpinCall (S (reelsStopping c))
                                            (resolved c) (awaited c))
                       (spinCalls w)) w in
  (* reel.spinTween = null *)
  let w := set_reels (updateAt (tw_index tw) (set_spinTween JsNull) (reels w)) w in
  let w :=
    if tw_forceWin tw then
      match nth_error (reels w) (tw_index tw) with
      | None => w
      | Some r =>
          let (syms, g) :=
            forceWinAdjust (_slotTextures w) (tw_results tw) (tw_index tw)
                           (symbols r) (rand w) in
          set_rand g
            (set_reels (updateAt (tw_index tw) (set_symbols syms) (reels w)) w)
      end
    else w in
  match nth_error (spinCalls w) (tw_spin tw) with
  | Some c =>
      if Nat.eqb (reelsStopping c) (length (reels w))
      then resolve (tw_spin tw) w
      else w
  | None => w
  end.

(* ================================================================== *)
(** ** [tweenTo] *)

Definition requestAnimationFrame (tw : tween) (w : world) : world :=
  set_rafQueue (rafQueue w ++ [tw]) w.

(** The [animate] callback, run with [Date.now() = now]. *)
Definition animate (tw : tween) (now : Z) (w : world) : world :=
  let endTime := tw_startTime tw + tw_time tw in
  if now <? endTime then
    let t := ndiv (ofZ (now - tw_startTime tw)) (ofZ (tw_time tw)) in
    let v := lerp (tw_start tw) (tw_target tw) (backout (tw_amount tw) t) in
    let w := set_reels (updateAt (tw_index tw) (set_position v) (reels w)) w in
    requestAnimationFrame tw w
  else
    let w := set_reels
               (updateAt (tw_index tw) (set_position (tw_target tw)) (reels w))
               w in
    onComplete tw w.

(** [tweenTo(reel, 'position', target, time, backout(amount), onComplete)]
    called at [Date.now() = now].  The function body ends without a
    [return] statement, so the call evaluates to [undefined]. *)
Definition tweenTo (index : nat) (r : reel) (target : num) (time : Z)
           (amount : num) (spin : nat) (results : list nat) (forceWin : bool)
           (now : Z) (w : world) : jsval * world :=
  let tw := mkTween index (position r) target now time amount
                    spin results forceWin in
  (JsUndefined, requestAnimationFrame tw w).

(* ================================================================== *)
(** ** [startReelSpin] *)

(** Body of [reels.forEach((reel, index) => ...)] for one reel;
    [now] is the clock reading inside [tweenTo]. *)
Definition spinReel (spin : nat) (results : list nat) (forceWin : bool)
           (now : Z) (index : nat) (w : world) : world :=
  match nth_error (reels w) index with
  | None => w
  | Some r =>
      let target := targetPosition (position r) (resultAt results index) in
      let (ref, w) :=
        tweenTo index r target (SPIN_DURATION_BASE + Z.of_nat index * 500)
                (Num (1 # 2)) spin results forceWin now w in
      set_reels (updateAt index (set_spinTween ref) (reels w)) w
  end.

(** Creates the promise and starts one tween per reel; returns the
    identity of the new promise.  [clock i] is the clock reading taken
    when the tween of reel [i] is created. *)
Definition startReelSpin (results : list nat) (forceWin : bool)
           (clock : nat -> Z) (w : world) : nat * world :=
  let k := length (spinCalls w) in
  let w := set_spinCalls (spinCalls w ++ [mkSpinCall 0 0 false]) w in
  (k, fold_left (fun w index => spinReel k results forceWin (clock index) index w)
                (seq 0 (length (reels w))) w).

(* ================================================================== *)
(** ** [startSpin] *)

(** [results.push(Math.floor(Math.random() * slotTextures.length))],
    [n] times. *)
Fixpoint drawResults (n : nat) (len : nat) (g : random) : list nat * random :=
  match n with
  | O => ([], g)
  | S m =>
      let (i, g1) := randomIndex len g in
      let (rest, g2) := drawResults m len g1 in
      (i :: rest, g2)
  end.

Definition chooseResults (forceWin : bool) (len : nat) (g : random)
  : list nat * random :=
  if forceWin then
    let (winningSymbolIndex, g1) := randomIndex len g in
    (repeat winningSymbolIndex 3, g1)
  else drawResults 3 len g.

Definition startSpin (forceWin : bool) (clock : nat -> Z) (w : world) : world :=
  if spinning w then w
  else if balance w <? SPIN_COST then
    emit (ShowGameMessage "Saldo insuficiente para girar!") w
  else
    let w := set_balance (balance w - SPIN_COST) w in
    let w := emit (UpdateBalanceDisplay (balance w)) w in
    let w := set_spinning true w in
    let w := emit (SetSpinButtonsEnabled false) w in
    let w := emit HideWinLossMessage w in
    let (results, g) := chooseResults forceWin (length (slotTextures w)) (rand w) in
    let w := set_rand g w in
    let (k, w) := startReelSpin results forceWin clock w in
    (* await: the rest of the function runs when promise [k] settles *)
    set_spinCalls
      (updateAt k (fun c => mkSpinCall (reelsStopping c) (resolved c) true)
                (spinCalls w)) w.

(* ================================================================== *)
(** ** Initialisation *)

(** The inner loop of [initReelManager]: symbols [j .. j+n-1] of a new
    reel. *)
Fixpoint newSymbols (textures : list Texture) (j n : nat) (g : random)
  : list symbol * random :=
  match n with
  | O => ([], g)
  | S m =>
      let (t, g1) := randomTexture textures g in
      let s := mkSymbol (nadd (nmul (ofNat j) CELL_HEIGHT)
                              (ndiv CELL_HEIGHT (Num 2))) t in
      let (rest, g2) := newSymbols textures (S j) m g1 in
      (s :: rest, g2)
  end.

Fixpoint newReels (textures : list Texture) (n : nat) (g : random)
  : list reel * random :=
  match n with
  | O => ([], g)
  | S m =>
      let (syms, g1) := newSymbols textures 0 NUM_SYMBOLS_PER_REEL_STRIP g in
      let (rest, g2) := newReels textures m g1 in
      (mkReel syms (Num 0) (Num 0) JsNull :: rest, g2)
  end.

Definition initReelManager (slotTexturesArray : list Texture) (w : world)
  : world :=
  let w := set__slotTextures slotTexturesArray w in
  let (rs, g) := newReels (_slotTextures w) 3 (rand w) in
  set_rand g (set_reels (reels w ++ rs) w).

(** apple, coconut, kiwi, avocado, corn. *)
Definition symbolImagePaths : list nat := [0; 1; 2; 3; 4]%nat.

Definition initSlotGame (w : world) : world :=
  let w := set_slotTextures (map Tex symbolImagePaths) w in
  let w := initReelManager (slotTextures w) w in
  emit (UpdateBalanceDisplay (balance w)) w.

(** The module-level state before [initSlotGame], for a given sequence
    of random draws. *)
Definition initialWorld (draws : nat -> nat) : world :=
  mkWorld [] [] [] 1000 false [] [] (mkRandom draws 0) [].

(* ================================================================== *)
(** ** Animation frames and user input *)

(** The callbacks of one animation frame: the ticker, registered
    first, then every pending [animate] in registration order.  Each
    callback that continues re-registers itself for the next frame.
    [clock i] is the clock reading in the [i]-th [animate] callback. *)
Fixpoint runCallbacks (clock : nat -> Z) (i : nat) (cbs : list tween)
         (w : world) : world :=
  match cbs with
  | [] => w
  | tw :: rest => runCallbacks clock (S i) rest (animate tw (clock i) w)
  end.

Definition frame (clock : nat -> Z) (w : world) : world :=
  let w := ticker w in
  let cbs := rafQueue w in
  runCallbacks clock 0 cbs (set_rafQueue [] w).

Inductive event : Type :=
| Frame (clock : nat -> Z)
| Spin (forceWin : bool) (clock : nat -> Z).

Definition step (w : world) (e : event) : world :=
  match e with
  | Frame clock => frame clock w
  | Spin forceWin clock => startSpin forceWin clock w
  end.

Definition run (trace : list event) (w : world) : world :=
  fold_left step trace w.

(* ================================================================== *)
(** ** Predicates used in the statements *)

(** [a] and [b] differ by an integer number of strip heights. *)
Definition congruentModStrip (a b : num) : Prop :=
  exists k : Z, num_eq a (nadd b (nmul (ofZ k) totalStripHeight)).

(** Every sampled entry is present and equal to the first one. *)
Definition isWin (sample : list (option Texture)) : Prop :=
  Forall (fun t => t <> None /\ t = hd None sample) sample.

(** Some reel has no symbol within tolerance of the win line. *)
Definition centerUnresolvable (w : world) : Prop :=
  In None (getVisibleTexturesAtWinLine w).

(** The tweens of call [k] that are still animating. *)
Definition pendingOf (k : nat) (q : list tween) : list tween :=
  filter (fun tw => Nat.eqb (tw_spin tw) k) q.

Definition endTime (tw : tween) : Z := tw_startTime tw + tw_time tw.

(** Number of [resolve] calls made so far on the promise of call [k]. *)
Definition resolvedCount (k : nat) (w : world) : nat :=
  match nth_error (spinCalls w) k with
  | Some c => resolved c
  | None => 0%nat
  end.

Definition stoppedCount (k : nat) (w : world) : nat :=
  match nth_error (spinCalls w) k with
  | Some c => reelsStopping c
  | None => 0%nat
  end.

(** Every pending callback belongs to a call that exists. *)
Definition queueWellFormed (w : world) : Prop :=
  Forall (fun tw => (tw_spin tw < length (spinCalls w))%nat) (rafQueue w).

(** The tweens that [startReelSpin] registers for the reels [rs], the
    first of which has index [a]. *)
Fixpoint spinTweensFrom (k : nat) (results : list nat) (forceWin : bool)
         (clock : nat -> Z) (a : nat) (rs : list reel) : list tween :=
  match rs with
  | [] => []
  | r :: rest =>
      mkTween a (position r)
              (targetPosition (position r) (resultAt results a))
              (clock a) (SPIN_DURATION_BASE + Z.of_nat a * 500) (Num (1 # 2))
              k results forceWin
      :: spinTweensFrom k results forceWin clock (S a) rest
  end.

(** The two updates made on a call's closure state. *)
Definition incrStopped (c : spinCall) : spinCall :=
  mkSpinCall (S (reelsStopping c)) (resolved c) (awaited c).
Definition incrResolved (c : spinCall) : spinCall :=
  mkSpinCall (reelsStopping c) (S (resolved c)) (awaited c).

(** Effect of one tween completion of call [k] on the closure states,
    with [n] reels. *)
Definition completeCalls (k n : nat) (sc : list spinCall) : list spinCall :=
  let sc1 := updateAt k incrStopped sc in
  match nth_error sc1 k with
  | Some c => if Nat.eqb (reelsStopping c) n then updateAt k incrResolved sc1
              else sc1
  | None => sc1
  end.

(** Bookkeeping invariant of call [k] in a world with [n] reels, where
    [Q] lists every callback that has not completed yet: the counter
    and the number of call-[k] tweens still animating add up to [n],
    and [resolve] was called once if none is left and never otherwise. *)
Definition callInv (n k : nat) (Q : list tween) (w : world) : Prop :=
  length (reels w) = n /\
  Forall (fun tw => (tw_spin tw < length (spinCalls w))%nat) Q /\
  exists c : spinCall,
    nth_error (spinCalls w) k = Some c /\
    (reelsStopping c + length (pendingOf k Q))%nat = n /\
    resolved c = (if Nat.eqb (length (pendingOf k Q)) 0 then 1 else 0)%nat.

(** What the aggregate completion signal of call [k] must satisfy in a
    world [w] with [n] reels: the counter and the tweens of the call
    that are still animating add up to [n]; [resolve] was called at
    most once, and exactly once if and only if no tween of the call is
    still animating; and one more frame whose clock readings have
    passed every remaining end time brings the number of [resolve]
    calls to exactly one. *)
Definition completesOnce (n k : nat) (w : world) : Prop :=
  (stoppedCount k w + length (pendingOf k (rafQueue w)))%nat = n /\
  (resolvedCount k w <= 1)%nat /\
  (resolvedCount k w = 1%nat <-> pendingOf k (rafQueue w) = []) /\
  (forall clock : nat -> Z,
      (forall tw j, In tw (pendingOf k (rafQueue w)) -> endTime tw <= clock j) ->
      resolvedCount k (frame clock w) = 1%nat).

(** No reel's [spinTween] field holds a truthy value. *)
Definition noActiveTween (w : world) : Prop :=
  Forall (fun r => truthy (spinTween r) = false) (reels w).

(** The textures of all symbols, reel by reel. *)
Definition allTextures (w : world) : list (list Texture) :=
  map (fun r => map sym_texture (symbols r)) (reels w).

Definition symbolAt (w : world) (i j : nat) : option symbol :=
  match nth_error (reels w) i with
  | Some r => nth_error (symbols r) j
  | None => None
  end.

(* ================================================================== *)
(** ** Concrete runs *)

(** Random draws under which the [n]-th call of
    [Math.floor(Math.random() * 5)] returns [(n + 1) mod 5]. *)
Definition countingDraws (n : nat) : nat := S n.

(** The game after [initSlotGame]: on every reel, strip slot [j]
    carries texture [(j + 1) mod 5]. *)
Definition afterInit : world := initSlotGame (initialWorld countingDraws).

(** A regular spin requested at time 0; its results are [1; 2; 3]
    (coconut, kiwi, avocado). *)
Definition spinStarted : world := startSpin false (fun _ => 0) afterInit.

(** [n] animation frames, 16 ms apart. *)
Definition frames16 (n : nat) : list event :=
  map (fun k => Frame (fun _ => 16 * Z.of_nat k)) (seq 1 n).

(** Two frames into the spin. *)
Definition midSpin : world := run (frames16 2) spinStarted.

(** The spin played to its end: the last reel's tween (3000 ms)
    completes in frame 188. *)
Definition spinDone : world := run (frames16 188) spinStarted.

(** Two spins whose frames arrive late (a throttled page): each spin
    completes in a single frame long after its end time. *)
Definition lateFrames : world :=
  run [Spin false (fun _ => 0); Frame (fun _ => 100000);
       Spin false (fun _ => 100000); Frame (fun _ => 200000)] afterInit.

(** Idle game with a balance of 99. *)
Definition lowBalance : world := set_balance 99 afterInit.

(** A trace without forced-win spin requests. *)
Definition regularOnly (trace : list event) : Prop :=
  Forall (fun e => match e with
                   | Spin forceWin _ => forceWin = false
                   | Frame _ => True
                   end) trace.

(* ================================================================== *)
(** ** Invariants of the reachable worlds *)

(** A number that is not [NaN]. *)
Definition finite (x : num) : Prop := exists q : Q, x = Num q.

(** An integer multiple of the cell height. *)
Definition alignedCell (x : num) : Prop :=
  exists m : Z, num_eq x (nmul (ofZ m) CELL_HEIGHT).

(** The offset symbol [j] of a strip is created with:
    [j * CELL_HEIGHT + CELL_HEIGHT / 2]. *)
Definition initialOffset (j : nat) : num :=
  nadd (nmul (ofNat j) CELL_HEIGHT) (ndiv CELL_HEIGHT (Num 2)).

(** Symbol [j] of a strip that has been scrolled by [scrolled] sits at
    its initial offset plus the scroll, up to whole strip heights. *)
Definition onStrip (j : nat) (scrolled : num) (y : num) : Prop :=
  finite y /\ congruentModStrip y (nadd (initialOffset j) scrolled).

(** A reel whose numbers are finite, that has all its symbols, each at
    its place on the strip for the scroll position the ticker has
    caught up with. *)
Definition reelInStep (r : reel) : Prop :=
  finite (position r) /\
  finite (previousPosition r) /\
  length (symbols r) = NUM_SYMBOLS_PER_REEL_STRIP /\
  forall j y, nth_error (map sym_y (symbols r)) j = Some y ->
              onStrip j (previousPosition r) y.

(** A tween between finite values that ends on a cell boundary. *)
Definition tweenInStep (tw : tween) : Prop :=
  finite (tw_start tw) /\
  finite (tw_target tw) /\
  alignedCell (tw_target tw) /\
  0 < tw_time tw /\
  finite (tw_amount tw).

(** The geometry invariant, for the callbacks [Q] that have not
    completed: three reels in step, tweens in step, and every reel
    that no tween animates rests on a cell boundary. *)
Definition geometry (Q : list tween) (w : world) : Prop :=
  length (reels w) = 3%nat /\
  Forall reelInStep (reels w) /\
  Forall tweenInStep Q /\
  forall i r, nth_error (reels w) i = Some r ->
              (forall tw, In tw Q -> tw_index tw <> i) ->
              alignedCell (position r).

(** Whether the completion of [tw] settles its promise and runs the
    continuation of an awaiting [startSpin]. *)
Definition firesContinuation (tw : tween) (w : world) : bool :=
  match nth_error (spinCalls w) (tw_spin tw) with
  | Some c => Nat.eqb (S (reelsStopping c)) (length (reels w))
              && Nat.eqb (resolved c) 0 && awaited c
  | None => false
  end.

(** A call whose spin is over: all reels counted, promise resolved
    once, continuation attached. *)
Definition callDone (n : nat) (c : spinCall) : Prop :=
  reelsStopping c = n /\ resolved c = 1%nat /\ awaited c = true.

(** The session invariant, for the callbacks [Q] that have not
    completed.  Idle: nothing is animating and every call is done.
    Spinning: every call but the last is done, and the last one is
    awaited, unresolved, and owns all of [Q], one tween per reel not yet
    counted. *)
Definition session (Q : list tween) (w : world) : Prop :=
  length (reels w) = 3%nat /\
  if spinning w then
    exists (calls : list spinCall) (c : spinCall),
      spinCalls w = calls ++ [c] /\
      Forall (callDone 3) calls /\
      awaited c = true /\
      resolved c = 0%nat /\
      (reelsStopping c + length Q)%nat = 3%nat /\
      Q <> [] /\
      Forall (fun tw => tw_spin tw = length calls) Q /\
      NoDup (map tw_index Q)
  else
    Q = [] /\ Forall (callDone 3) (spinCalls w).

(** The balance last passed to [updateBalanceDisplay]. *)
Definition displayedBalance (l : list uiEvent) : option Z :=
  fold_left (fun acc e => match e with
                          | UpdateBalanceDisplay b => Some b
                          | _ => acc
                          end) l None.

(** The argument of the last [setSpinButtonsEnabled] call;
    [initUIManager] enables the buttons. *)
Definition buttonsEnabled (l : list uiEvent) : bool :=
  fold_left (fun acc e => match e with
                          | SetSpinButtonsEnabled b => b
                          | _ => acc
                          end) l true.

Definition isHide (e : uiEvent) : bool :=
  match e with HideWinLossMessage => true | _ => false end.
Definition isFireworks (e : uiEvent) : bool :=
  match e with TriggerFireworksSequence => true | _ => false end.

(** Spins accepted and wins paid so far, read off the UI calls: every
    accepted spin hides the previous result once, every win triggers
    the fireworks once. *)
Definition spinsAccepted (l : list uiEvent) : Z :=
  Z.of_nat (length (filter isHide l)).
Definition winsPaid (l : list uiEvent) : Z :=
  Z.of_nat (length (filter isFireworks l)).

(** The ledger invariant. *)
Definition ledger (w : world) : Prop :=
  balance w = 1000 - SPIN_COST * spinsAccepted (ui w) + winAmount * winsPaid (ui w) /\
  0 <= balance w /\
  displayedBalance (ui w) = Some (balance w) /\
  buttonsEnabled (ui w) = negb (spinning w).

(** The test of the forced-win branch for a symbol inside the visible
    reel area. *)
Definition inVisibleArea (s : symbol) : bool :=
  ngtb (nadd (sym_y s) (ndiv SYMBOL_SIZE (Num 2))) (Num 0)
  && nltb (nsub (sym_y s) (ndiv SYMBOL_SIZE (Num 2)))
          (nmul (ofNat NUM_VISIBLE_SYMBOLS) CELL_HEIGHT).

(** [b] does not lie above [a]. *)
Definition notAbove (a b : nat * symbol) : Prop :=
  nltb (sym_y (snd b)) (sym_y (snd a)) = false.

(** The game after [initSlotGame] and a sequence of animation frames
    and spin requests. *)
Definition played (draws : nat -> nat) (trace : list event) : world :=
  run trace (initSlotGame (initialWorld draws)).

(** Within tolerance of the win line, the test of
    [getVisibleTexturesAtWinLine]. *)
Definition atWinLine (s : symbol) : bool :=
  nltb (nabs (nsub (sym_y s) targetCenterY)) tolerance.

(** Animation frames in each of which all callbacks read the same
    clock value. *)
Definition framesAt (clocks : list Z) : list event :=
  map (fun c => Frame (fun _ => c)) clocks.

(** A reel at rest, the default of list lookups. *)
Definition restingReel : reel := mkReel [] (Num 0) (Num 0) JsUndefined.

(** The five loaded textures and the first strip after
    [initSlotGame]. *)
Definition sampleTextures : list Texture := map Tex symbolImagePaths.
Definition sampleStrip : list symbol :=
  symbols (nth 0 (reels (played countingDraws [])) restingReel).

(* ================================================================== *)
(** ** The UI manager ([slotGame.js], lines 126-252)

    The module's cached element references, each with the part of the
    element's state the module reads or writes.  [None] stands for a
    variable that holds [undefined] (before [initUIManager]) or [null]
    (no element with that id). *)

Module UI.

Local Open Scope string_scope.

(** What a click listener does. *)
Inductive handler : Type :=
| OnSpinClick
| OnAutoWinClick
| HideGameMessageHandler.

Record button : Type := mkButton {
  disabled : bool;
  listeners : list handler
}.

(** [textContent], as a string or as the number assigned to it. *)
Inductive content : Type :=
| Text (s : string)
| Number (z : Z).

Record resultBox : Type := mkResultBox {
  classList : list string;
  opacity : string
}.

Record elements : Type := mkElements {
  spinButton : option button;
  autoWinButton : option button;
  winMessageDisplay : option resultBox;
  winMessageText : option content;
  balanceDisplay : option content;
  messageBox : option string;      (* style.display *)
  messageText : option content;
  messageOkButton : option button;
  hideTimers : nat;                (* pending 3000 ms timeouts *)
  consoleErrors : nat
}.

(** An operation either returns or throws a [TypeError] (property
    access on [null] or [undefined]); either way with the state it
    leaves behind. *)
Inductive outcome : Type :=
| Returns (u : elements)
| TypeError (u : elements).

Definition set_spinButton v u :=
  mkElements v (autoWinButton u) (winMessageDisplay u) (winMessageText u)
             (balanceDisplay u) (messageBox u) (messageText u)
             (messageOkButton u) (hideTimers u) (consoleErrors u).
Definition set_autoWinButton v u :=
  mkElements (spinButton u) v (winMessageDisplay u) (winMessageText u)
             (balanceDisplay u) (messageBox u) (messageText u)
             (messageOkButton u) (hideTimers u) (consoleErrors u).
Definition set_winMessageDisplay v u :=
  mkElements (spinButton u) (autoWinButton u) v (winMessageText u)
             (balanceDisplay u) (messageBox u) (messageText u)
             (messageOkButton u) (hideTimers u) (consoleErrors u).
Definition set_winMessageText v u :=
  mkElements (spinButton u) (autoWinButton u) (winMessageDisplay u) v
             (balanceDisplay u) (messageBox u) (messageText u)
             (messageOkButton u) (hideTimers u) (consoleErrors u).
Definition set_balanceDisplay v u :=
  mkElements (spinButton u) (autoWinButton u) (winMessageDisplay u)
             (winMessageText u) v (messageBox u) (messageText u)
             (messageOkButton u) (hideTimers u) (consoleErrors u).
Definition set_messageBox v u :=
  mkElements (spinButton u) (autoWinButton u) (winMessageDisplay u)
             (winMessageText u) (balanceDisplay u) v (messageText u)
             (messageOkButton u) (hideTimers u) (consoleErrors u).
Definition set_messageText v u :=
  mkElements (spinButton u) (autoWinButton u) (winMessageDisplay u)
             (winMessageText u) (balanceDisplay u) (messageBox u) v
             (messageOkButton u) (hideTimers u) (consoleErrors u).
Definition set_messageOkButton v u :=
  mkElements (spinButton u) (autoWinButton u) (winMessageDisplay u)
             (winMessageText u) (balanceDisplay u) (messageBox u)
             (messageText u) v (hideTimers u) (consoleErrors u).
Definition set_hideTimers v u :=
  mkElements (spinButton u) (autoWinButton u) (winMessageDisplay u)
             (winMessageText u) (balanceDisplay u) (messageBox u)
             (messageText u) (messageOkButton u) v (consoleErrors u).
Definition set_consoleErrors v u :=
  mkElements (spinButton u) (autoWinButton u) (winMessageDisplay u)
             (winMessageText u) (balanceDisplay u) (messageBox u)
             (messageText u) (messageOkButton u) (hideTimers u) v.

(** [classList.remove('win-bg', 'lose-bg')]. *)
Definition removeBackgrounds (l : list string) : list string :=
  filter (fun c => negb (String.eqb c "win-bg" || String.eqb c "lose-bg")) l.

(** [classList.add(c)]: a token list holds a token once. *)
Definition addClass (c : string) (l : list string) : list string :=
  if existsb (String.eqb c) l then l else l ++ [c].

Definition updateBalanceDisplay (newBalance : Z) (u : elements) : elements :=
  match balanceDisplay u with
  | Some _ => set_balanceDisplay (Some (Number newBalance)) u
  | None => u
  end.

Definition showGameMessage (message : string) (u : elements) : elements :=
  match messageText u, messageBox u with
  | Some _, Some _ =>
      set_messageBox (Some "block") (set_messageText (Some (Text message)) u)
  | _, _ => u
  end.

Definition hideGameMessage (u : elements) : elements :=
  match messageBox u with
  | Some _ => set_messageBox (Some "none") u
  | None => u
  end.

(** No guard here: the first access to a missing element throws, after
    the statements before it have taken effect. *)
Definition showWinLossMessage (message : string) (isWin : bool)
           (u : elements) : outcome :=
  match winMessageText u with
  | None => TypeError u
  | Some _ =>
      let u := set_winMessageText (Some (Text message)) u in
      match winMessageDisplay u with
      | None => TypeError u
      | Some box =>
          let classes := removeBackgrounds (classList box) in
          let classes :=
            if isWin then addClass "win-bg" classes
            else addClass "lose-bg" classes in
          let u := set_winMessageDisplay (Some (mkResultBox classes "1")) u in
          (* setTimeout(..., 3000) *)
          Returns (set_hideTimers (S (hideTimers u)) u)
      end
  end.

(** The callback of the 3000 ms timeout, when it fires. *)
Definition hideTimerFires (u : elements) : outcome :=
  match hideTimers u with
  | O => Returns u
  | S n =>
      let u := set_hideTimers n u in
      match winMessageDisplay u with
      | None => TypeError u
      | Some box =>
          Returns (set_winMessageDisplay
                     (Some (mkResultBox (removeBackgrounds (classList box)) "0"))
                     u)
      end
  end.

Definition setDisabled (v : bool) (b : option button) : option button :=
  match b with
  | Some x => Some (mkButton v (listeners x))
  | None => None
  end.

Definition setSpinButtonsEnabled (enable : bool) (u : elements) : elements :=
  let u := set_spinButton (setDisabled (negb enable) (spinButton u)) u in
  set_autoWinButton (setDisabled (negb enable) (autoWinButton u)) u.

Definition hideWinLossMessage (u : elements) : elements :=
  match winMessageDisplay u with
  | Some box =>
      set_winMessageDisplay
        (Some (mkResultBox (removeBackgrounds (classList box)) "0")) u
  | None => u
  end.

Definition addListener (h : handler) (b : option button) : option button :=
  match b with
  | Some x => Some (mkButton (disabled x) (listeners x ++ [h]))
  | None => None
  end.

(** [initUIManager] on a document: [doc] gives, per id, the element
    found by [getElementById]. *)
Definition initUIManager (doc : elements) : elements :=
  let u := mkElements (spinButton doc) (autoWinButton doc)
                      (winMessageDisplay doc) (winMessageText doc)
                      (balanceDisplay doc) (messageBox doc) (messageText doc)
                      (messageOkButton doc) (hideTimers doc)
                      (consoleErrors doc) in
  let u := set_messageOkButton
             (addListener HideGameMessageHandler (messageOkButton u)) u in
  let u :=
    match spinButton u with
    | Some _ =>
        setSpinButtonsEnabled
          true (set_spinButton (addListener OnSpinClick (spinButton u)) u)
    | None => set_consoleErrors (S (consoleErrors u)) u
    end in
  match autoWinButton u with
  | Some _ =>
      setSpinButtonsEnabled
        true (set_autoWinButton (addListener OnAutoWinClick (autoWinButton u)) u)
  | None => set_consoleErrors (S (consoleErrors u)) u
  end.

End UI.

(** The effect on the page of one call recorded in the game's UI log;
    the fireworks trigger is not a call on the UI manager. *)
Definition applyUiEvent (e : uiEvent) (u : UI.elements) : UI.outcome :=
  match e with
  | ShowGameMessage m => UI.Returns (UI.showGameMessage m u)
  | UpdateBalanceDisplay b => UI.Returns (UI.updateBalanceDisplay b u)
  | SetSpinButtonsEnabled b => UI.Returns (UI.setSpinButtonsEnabled b u)
  | HideWinLossMessage => UI.Returns (UI.hideWinLossMessage u)
  | ShowWinLossMessage m isWin => UI.showWinLossMessage m isWin u
  | TriggerFireworksSequence => UI.Returns u
  end.

Fixpoint replayUi (l : list uiEvent) (u : UI.elements) : UI.outcome :=
  match l with
  | [] => UI.Returns u
  | e :: rest =>
      match applyUiEvent e u with
      | UI.Returns u' => replayUi rest u'
      | UI.TypeError u' => UI.TypeError u'
      end
  end.

(** A page on which every element the UI manager looks up exists. *)
Definition completePage (u : UI.elements) : Prop :=
  UI.spinButton u <> None /\ UI.autoWinButton u <> None /\
  UI.winMessageDisplay u <> None /\ UI.winMessageText u <> None /\
  UI.balanceDisplay u <> None /\ UI.messageBox u <> None /\
  UI.messageText u <> None.

(** Both spin buttons are there, with [disabled] set to [v]. *)
Definition buttonsDisabled (v : bool) (u : UI.elements) : Prop :=
  option_map UI.disabled (UI.spinButton u) = Some v /\
  option_map UI.disabled (UI.autoWinButton u) = Some v.

(** A page with every element: both buttons enabled, the result box
    still carrying the background of a previous win. *)
Definition samplePage : UI.elements :=
  UI.mkElements (Some (UI.mkButton false [])) (Some (UI.mkButton false []))
                (Some (UI.mkResultBox ["result"; "win-bg"]%string "0"%string))
                (Some (UI.Text EmptyString)) (Some (UI.Text "1000"%string))
                (Some "none"%string) (Some (UI.Text EmptyString))
                (Some (UI.mkButton false [])) 0 0.

(* ================================================================== *)
(** ** The rocket explosion ([explodeRocket], lines 11-79)

    Coordinates, velocities and scales are exact rationals.  The
    velocity of particle [i], [cos(angle) * speed] and
    [sin(angle) * speed] for random [angle] and [speed], is an input;
    the stage is the list of its children, by sprite identity. *)

Module Explosion.

Local Open Scope Q_scope.

Definition explosionSize : nat := 500.
Definition initialLife : Z := 200.

Record particle : Type := mkParticle {
  sprite : nat;
  px : Q;
  py : Q;
  vx : Q;
  vy : Q;
  scaleX : Q;
  scaleY : Q
}.

Record state : Type := mkState {
  particles : list particle;
  explosionLife : Z;
  stage : list nat;
  frameRequested : bool
}.

(** [app.stage.removeChild(particle)]. *)
Fixpoint removeChild (c : nat) (children : list nat) : list nat :=
  match children with
  | [] => []
  | d :: rest => if Nat.eqb c d then rest else d :: removeChild c rest
  end.

(** The particle generation loop, for particles [i .. i + n - 1]. *)
Fixpoint generate (x y : Q) (velocity : nat -> Q * Q) (firstSprite : nat)
         (i n : nat) (ps : list particle) (children : list nat)
  : list particle * list nat :=
  match n with
  | O => (ps, children)
  | S m =>
      let p := mkParticle (firstSprite + i) x y (fst (velocity i))
                          (snd (velocity i)) (1 # 2) (1 # 2) in
      generate x y velocity firstSprite (S i) m (ps ++ [p]) (children ++ [sprite p])
  end.

(** Particle [i] as the generation loop creates it. *)
Definition spawned (x y : Q) (velocity : nat -> Q * Q) (firstSprite i : nat)
  : particle :=
  mkParticle (firstSprite + i) x y (fst (velocity i)) (snd (velocity i))
             (1 # 2) (1 # 2).

(** [explodeRocket(app, x, y, colour)]: the new sprites are
    [firstSprite], [firstSprite + 1], ... *)
Definition explodeRocket (x y : Q) (velocity : nat -> Q * Q)
           (firstSprite : nat) (children : list nat) : state :=
  let (ps, children') :=
    generate x y velocity firstSprite 0 explosionSize [] children in
  mkState ps initialLife children' true.

Definition moveParticle (p : particle) : particle :=
  mkParticle (sprite p) (px p + vx p) (py p + vy p) (vx p) (vy p)
             (scaleX p * (95 # 100)) (scaleY p * (95 # 100)).

(** The removal loop, from the last particle to the first; [later]
    holds the particles after the current one that were kept. *)
Fixpoint sweep (life : Z) (backwards : list particle) (later : list particle)
         (children : list nat) : list particle * list nat :=
  match backwards with
  | [] => (later, children)
  | p :: rest =>
      if (life <=? 0)%Z
      then sweep life rest later (removeChild (sprite p) children)
      else sweep life rest (p :: later) children
  end.

Definition update (s : state) : state :=
  let ps := map moveParticle (particles s) in
  let life := (explosionLife s - 1)%Z in
  let (ps', children) := sweep life (rev ps) [] (stage s) in
  mkState ps' life children (negb (Nat.eqb (length ps') 0)).

(** One animation frame: the requested callback, if any, runs once. *)
Definition frame (s : state) : state :=
  if frameRequested s then update s else s.

(** The sprites the explosion creates are not on the stage yet. *)
Definition freshSprites (firstSprite : nat) (children : list nat) : Prop :=
  forall c, In c children -> (c < firstSprite)%nat.

(** The state [k] animation frames later. *)
Definition frames (k : nat) (s : state) : state := Nat.iter k frame s.

End Explosion.

(* ================================================================== *)
(** ** The fountain ([FountainParticle], [ManualFountain],
    fountainEffect.js lines 13-188)

    Times, coordinates and opacities are exact rationals.
    [Math.random] is a sequence of draws with the number of draws
    taken so far; the module's [_fountainParticleTexture], which is
    set once the asset is loaded, is an input of each update. *)

Module Fountain.

Local Open Scope Q_scope.

Record particle : Type := mkParticle {
  x : Q;
  y : Q;
  vx : Q;
  vy : Q;
  lifetime : Q;
  timeAlive : Q;
  gravity : Q;
  initialAlpha : Q;
  alpha : Q
}.

(** The constructor; a new sprite has alpha 1. *)
Definition newParticle (initialX initialY initialVX initialVY life : Q)
  : particle :=
  mkParticle initialX initialY initialVX initialVY life 0 (1 # 2) 1 1.

Definition frameTime : Q := 1666 # 100.

(** [FountainParticle.update(deltaMs)]: the particle after the update
    and whether it is to be removed.  The quotient of the fade is the
    exact one; it is only taken for a lifetime other than 0. *)
Definition particleUpdate (deltaMs : Q) (p : particle) : particle * bool :=
  let timeAlive' := timeAlive p + deltaMs in
  let vy' := vy p + gravity p * (deltaMs / frameTime) in
  let x' := x p + vx p * (deltaMs / frameTime) in
  let y' := y p + vy' * (deltaMs / frameTime) in
  let fadeStartTime := lifetime p * (7 # 10) in
  let alpha' :=
    if Qltb fadeStartTime timeAlive'
    then initialAlpha p *
         (1 - (timeAlive' - fadeStartTime) / (lifetime p - fadeStartTime))
    else initialAlpha p in
  (mkParticle x' y' (vx p) vy' (lifetime p) timeAlive' (gravity p)
              (initialAlpha p) alpha',
   Qle_bool (lifetime p) timeAlive').

Record fountain : Type := mkFountain {
  particles : list particle;
  emissionTimer : Q;
  emissionInterval : Q;
  fountainActiveTime : Q;
  isEmitting : bool;
  fountainBaseX : Q;
  fountainBaseY : Q;
  onTicker : bool;
  containerOnStage : bool;
  drawn : nat;
  consoleErrors : nat
}.

(** [new ManualFountain(app, colour, duration, x, y)]. *)
Definition newFountain (canvasCenterX canvasCenterY x y : Q) (drawn0 : nat)
  : fountain :=
  mkFountain [] 0 10 0 true (canvasCenterX - x) (canvasCenterY - y)
             true true drawn0 0.

Definition set_particles (ps : list particle) (f : fountain) : fountain :=
  mkFountain ps (emissionTimer f) (emissionInterval f) (fountainActiveTime f)
             (isEmitting f) (fountainBaseX f) (fountainBaseY f) (onTicker f)
             (containerOnStage f) (drawn f) (consoleErrors f).

Definition set_emissionTimer (t : Q) (f : fountain) : fountain :=
  mkFountain (particles f) t (emissionInterval f) (fountainActiveTime f)
             (isEmitting f) (fountainBaseX f) (fountainBaseY f) (onTicker f)
             (containerOnStage f) (drawn f) (consoleErrors f).

Definition set_fountainActiveTime (t : Q) (f : fountain) : fountain :=
  mkFountain (particles f) (emissionTimer f) (emissionInterval f) t
             (isEmitting f) (fountainBaseX f) (fountainBaseY f) (onTicker f)
             (containerOnStage f) (drawn f) (consoleErrors f).

Definition set_isEmitting (b : bool) (f : fountain) : fountain :=
  mkFountain (particles f) (emissionTimer f) (emissionInterval f)
             (fountainActiveTime f) b (fountainBaseX f) (fountainBaseY f)
             (onTicker f) (containerOnStage f) (drawn f) (consoleErrors f).

(** [spawnParticle()]. *)
Definition spawnParticle (texture : bool) (rand : nat -> Q) (f : fountain)
  : fountain :=
  if negb texture
  then mkFountain (particles f) (emissionTimer f) (emissionInterval f)
                  (fountainActiveTime f) (isEmitting f) (fountainBaseX f)
                  (fountainBaseY f) (onTicker f) (containerOnStage f)
                  (drawn f) (S (consoleErrors f))
  else
    let initialSpeedY := - (rand (drawn f) * 5 + 10) in
    let initialSpeedX := (rand (S (drawn f)) - (1 # 2)) * 5 in
    let p := newParticle (fountainBaseX f) (fountainBaseY f)
                         initialSpeedX initialSpeedY 1500 in
    mkFountain (particles f ++ [p]) (emissionTimer f) (emissionInterval f)
               (fountainActiveTime f) (isEmitting f) (fountainBaseX f)
               (fountainBaseY f) (onTicker f) (containerOnStage f)
               (S (S (drawn f))) (consoleErrors f).

(** The emission loop, [while (emissionTimer >= emissionInterval)],
    for at most [fuel] rounds. *)
Fixpoint emission (fuel : nat) (texture : bool) (rand : nat -> Q)
         (f : fountain) : fountain :=
  match fuel with
  | O => f
  | S n =>
      if Qle_bool (emissionInterval f) (emissionTimer f)
      then let f1 := spawnParticle texture rand f in
           emission n texture rand
                    (set_emissionTimer (emissionTimer f1 - emissionInterval f1) f1)
      else f
  end.

(** More rounds than the loop can take when the interval is positive. *)
Definition emissionRounds (f : fountain) : nat :=
  S (Z.to_nat (Qfloor (emissionTimer f / emissionInterval f))).

(** The removal loop, from the last particle to the first. *)
Definition sweepParticles (deltaMs : Q) (ps : list particle) : list particle :=
  fold_right (fun p kept =>
                let (p', shouldRemove) := particleUpdate deltaMs p in
                if shouldRemove then kept else p' :: kept) [] ps.

(** [destroy()]. *)
Definition destroy (f : fountain) : fountain :=
  mkFountain [] (emissionTimer f) (emissionInterval f) (fountainActiveTime f)
             (isEmitting f) (fountainBaseX f) (fountainBaseY f) false false
             (drawn f) (consoleErrors f).

(** [update(delta)], with [app.ticker.deltaMS] when it is defined. *)
Definition update (delta : Q) (tickerDeltaMS : option Q) (texture : bool)
           (rand : nat -> Q) (f : fountain) : fountain :=
  let deltaMs :=
    match tickerDeltaMS with
    | Some d => d
    | None => delta * (1000 / 60)
    end in
  let f1 := set_fountainActiveTime (fountainActiveTime f + deltaMs) f in
  let f2 :=
    if isEmitting f1
    then let f' := set_emissionTimer (emissionTimer f1 + deltaMs) f1 in
         emission (emissionRounds f') texture rand f'
    else f1 in
  let f3 := set_particles (sweepParticles deltaMs (particles f2)) f2 in
  if negb (isEmitting f3) && Nat.eqb (length (particles f3)) 0
  then destroy f3
  else f3.

(** What happens to a fountain: the ticker calls its update while it
    is registered, and the timeout of the constructor fires. *)
Inductive event : Type :=
| Tick (deltaMs : Q) (texture : bool)
| EmissionTimeout.

Definition step (rand : nat -> Q) (f : fountain) (e : event) : fountain :=
  match e with
  | Tick deltaMs texture =>
      if onTicker f then update 1 (Some deltaMs) texture rand f else f
  | EmissionTimeout => set_isEmitting false f
  end.

Definition run (rand : nat -> Q) (es : list event) (f : fountain) : fountain :=
  fold_left (step rand) es f.


Definition forwardTicks (es : list event) : Prop :=
  Forall (fun e => match e with
                   | Tick deltaMs _ => 0 <= deltaMs
                   | EmissionTimeout => True
                   end) es.

(** A particle of the fountain between two updates. *)
Definition inFlight (p : particle) : Prop :=
  lifetime p = 1500 /\ initialAlpha p = 1 /\ gravity p = 1 # 2 /\
  0 <= timeAlive p /\ timeAlive p < 1500 /\
  0 < alpha p /\ alpha p <= 1.


Definition textureMissing (es : list event) : Prop :=
  Forall (fun e => match e with
                   | Tick _ texture => texture = false
                   | EmissionTimeout => True
                   end) es.

Definition elapsed (es : list event) : Q :=
  fold_right (fun e t => match e with
                         | Tick deltaMs _ => deltaMs + t
                         | EmissionTimeout => t
                         end) 0 es.

(** The [k]-th particle the emission loop spawns from [f]. *)
Definition freshParticle (rand : nat -> Q) (f : fountain) (k : nat)
  : particle :=
  newParticle (fountainBaseX f) (fountainBaseY f)
              ((rand (S (drawn f + 2 * k)) - (1 # 2)) * 5)
              (- (rand (drawn f + 2 * k)%nat * 5 + 10)) 1500.

(** What the emission loop leaves as it is. *)
Definition sameFrame (f f' : fountain) : Prop :=
  emissionInterval f' = emissionInterval f /\
  fountainActiveTime f' = fountainActiveTime f /\
  isEmitting f' = isEmitting f /\
  fountainBaseX f' = fountainBaseX f /\
  fountainBaseY f' = fountainBaseY f /\
  onTicker f' = onTicker f /\
  containerOnStage f' = containerOnStage f.

(** What an update needs of a particle: the constants of the
    constructor and a time alive that is not negative. *)
Definition ready (p : particle) : Prop :=
  lifetime p = 1500 /\ initialAlpha p = 1 /\ gravity p = 1 # 2 /\
  0 <= timeAlive p.

(** A fountain between two events. *)
Definition settled (f : fountain) : Prop :=
  emissionInterval f = 10 /\ 0 <= emissionTimer f /\ emissionTimer f < 10 /\
  Forall inFlight (particles f) /\
  (onTicker f = false ->
   isEmitting f = false /\ particles f = [] /\ containerOnStage f = false) /\
  (onTicker f = true -> containerOnStage f = true).

(** A fountain that has stopped emitting, none of whose particles
    lives longer than [T] more milliseconds. *)
Definition fading (T : Q) (f : fountain) : Prop :=
  isEmitting f = false /\
  (onTicker f = true ->
   Forall (fun p => lifetime p <= timeAlive p + T) (particles f) /\
   (0 < T \/
    (particles f <> [] /\
     Forall (fun p => timeAlive p < lifetime p) (particles f)))) /\
  (onTicker f = false -> particles f = [] /\ containerOnStage f = false).

(** A sequence of draws of [0, 1): [n / (n + 1)]. *)
Definition risingDraws (n : nat) : Q := Z.of_nat n # Pos.of_succ_nat n.

(** A short show: two updates, the emission timeout, one more
    update. *)
Definition sampleShow : list event :=
  [Tick 25 true; Tick 1040 true; EmissionTimeout; Tick 300 true].

End Fountain.

(* ================================================================== *)
(** ** Arithmetic of the scroll target *)

Lemma totalStripHeight_val : totalStripHeight = Num 2000.
Proof. reflexivity. Qed.

Lemma Qltb_lt (a b : Q) : Qltb a b = true <-> (a < b)%Q.
Proof.
  unfold Qltb. rewrite negb_true_iff. split; intro H.
  - apply Qnot_le_lt. intro Hle. apply Qle_bool_iff in Hle. congruence.
  - destruct (Qle_bool b a) eqn:E; auto. apply Qle_bool_iff in E.
    exfalso. apply (Qlt_not_le _ _ H E).
Qed.

Lemma Qltb_ge (a b : Q) : Qltb a b = false <-> (b <= a)%Q.
Proof.
  unfold Qltb. rewrite negb_false_iff. apply Qle_bool_iff.
Qed.

(** The truncated quotient is within one of the exact quotient, on the
    side of zero. *)
Lemma Qtrunc_spec (x : Q) :
  ((0 <= x /\ inject_Z (Qtrunc x) <= x /\ x < inject_Z (Qtrunc x) + 1) \/
   (x < 0 /\ x <= inject_Z (Qtrunc x) /\ inject_Z (Qtrunc x) < x + 1))%Q.
Proof.
  unfold Qtrunc. destruct (Qltb x 0) eqn:E.
  - right. apply Qltb_lt in E. split; [exact E|]. split.
    + apply Qle_ceiling.
    + pose proof (Qceiling_lt x) as H.
      unfold Zminus in H. rewrite inject_Z_plus, inject_Z_opp in H.
      change (inject_Z 1) with 1%Q in H. lra.
  - left. apply Qltb_ge in E. split; [exact E|]. split.
    + apply Qfloor_le.
    + pose proof (Qlt_floor x) as H. rewrite inject_Z_plus in H.
      change (inject_Z 1) with 1%Q in H. exact H.
Qed.

(** Step 2 of the computation: the normalised position lies in
    [0, stripHeight). *)
Lemma currentReelPositionNormalized_range (p : Q) :
  exists c : Q,
    currentReelPositionNormalized (Num p) = Num c /\ (0 <= c < 2000)%Q.
Proof.
  unfold currentReelPositionNormalized. rewrite totalStripHeight_val.
  cbn [nmod]. change (Qeq_bool 2000 0) with false. cbv iota.
  set (T := Qtrunc (p / 2000)).
  assert (Hp : (p == 2000 * (p / 2000))%Q).
  { symmetry. apply Qmult_div_r. discriminate. }
  pose proof (Qtrunc_spec (p / 2000)) as HT. fold T in HT.
  cbn [nltb].
  destruct (Qltb (Qred (p - 2000 * inject_Z T)) 0) eqn:E.
  - apply Qltb_lt in E. rewrite Qred_correct in E.
    cbn [nadd]. eexists. split; [reflexivity|].
    repeat rewrite Qred_correct. lra.
  - apply Qltb_ge in E. rewrite Qred_correct in E.
    eexists. split; [reflexivity|].
    rewrite Qred_correct. lra.
Qed.

(** What does hold of the distance: for a strip index it is positive,
    so the scroll target lies ahead of the current position. *)
Lemma spinDistance_positive (p : Q) (t : nat) :
  (t <= 9)%nat ->
  exists d : Q, spinDistance (Num p) (ofNat t) = Num d /\ (8400 < d)%Q.
Proof.
  intro Ht.
  destruct (currentReelPositionNormalized_range p) as (c & Hc & Hrange).
  unfold spinDistance, distanceToAlign. rewrite Hc.
  unfold finalDesiredReelPosition, winningSymbolTargetYInStrip,
    offsetToCenterVisibleArea, minFullSpins, CELL_HEIGHT, ofNat, ofZ.
  rewrite totalStripHeight_val. cbn [nmul nsub nadd nltb].
  assert (Ht' : (0 <= inject_Z (Z.of_nat t) <= 9)%Q).
  { split.
    - change 0%Q with (inject_Z 0). rewrite <- Zle_Qle. lia.
    - change 9%Q with (inject_Z 9). rewrite <- Zle_Qle. lia. }
  set (tq := inject_Z (Z.of_nat t)) in *.
  destruct (Qltb _ 0) eqn:E; cbn [nadd].
  - eexists. split; [reflexivity|]. repeat rewrite Qred_correct. lra.
  - apply Qltb_ge in E. repeat rewrite Qred_correct in E.
    eexists. split; [reflexivity|]. repeat rewrite Qred_correct. lra.
Qed.

(** C2 (code defect).  The second spin of a reel that first stopped on
    strip index 2 (scroll position 11800) and is now asked for index 4:
    the alignment distance is still negative after the single
    [+ stripHeight] adjustment, and the scroll distance is 9600, less
    than [minFullSpins * stripHeight = 10000]. *)
Theorem spinDistance_below_minFullSpins :
  targetPosition (Num 0) (ofNat 2) = Num 11800 /\
  distanceToAlign (Num 11800) (ofNat 4) = Num (-400) /\
  nltb (distanceToAlign (Num 11800) (ofNat 4)) (Num 0) = true /\
  spinDistance (Num 11800) (ofNat 4) = Num 9600 /\
  nltb (spinDistance (Num 11800) (ofNat 4))
       (nmul minFullSpins totalStripHeight) = true.
Proof. repeat split; vm_compute; reflexivity. Qed.

(** C10.  For every exact rational scroll position [p] and every strip
    index [t] in 0..9, the scroll target computed at spin start is
    congruent to [cellHeight - t * cellHeight] modulo the strip height,
    whether or not the alignment distance stayed negative. *)
Theorem targetPosition_congruent :
  forall (p : Q) (t : nat), (t <= 9)%nat ->
    congruentModStrip (targetPosition (Num p) (ofNat t))
                      (nsub CELL_HEIGHT (nmul (ofNat t) CELL_HEIGHT)).
Proof.
  intros p t _.
  unfold congruentModStrip, targetPosition, spinDistance, distanceToAlign,
    currentReelPositionNormalized, finalDesiredReelPosition,
    winningSymbolTargetYInStrip, offsetToCenterVisibleArea, minFullSpins,
    CELL_HEIGHT, ofNat, ofZ.
  rewrite totalStripHeight_val.
  cbn [nmod nmul nsub nadd nltb].
  change (Qeq_bool 2000 0) with false. cbv iota.
  set (T := Qtrunc (p / 2000)).
  cbn [nltb nadd nsub].
  destruct (Qltb (Qred (p - 2000 * inject_Z T)) 0); cbn [nsub nadd nltb];
  match goal with |- context [if ?b then _ else _] => destruct b end;
  cbn [nadd nsub nmul num_eq].
  - exists (T + 5). repeat rewrite Qred_correct. rewrite inject_Z_plus.
    change (inject_Z 5) with 5%Q. ring.
  - exists (T + 4). repeat rewrite Qred_correct. rewrite inject_Z_plus.
    change (inject_Z 4) with 4%Q. ring.
  - exists (T + 6). repeat rewrite Qred_correct. rewrite inject_Z_plus.
    change (inject_Z 6) with 6%Q. ring.
  - exists (T + 5). repeat rewrite Qred_correct. rewrite inject_Z_plus.
    change (inject_Z 5) with 5%Q. ring.
Qed.

Lemma targetPosition_congruent_witness :
  (4 <= 9)%nat /\
  nltb (distanceToAlign (Num 11800) (ofNat 4)) (Num 0) = true /\
  congruentModStrip (targetPosition (Num 11800) (ofNat 4))
                    (nsub CELL_HEIGHT (nmul (ofNat 4) CELL_HEIGHT)).
Proof.
  split; [lia|]. split; [reflexivity|].
  apply (targetPosition_congruent 11800 4). lia.
Defined.

(* ================================================================== *)
(** ** Outcome evaluation *)

Lemma Texture_eqb_eq (a b : Texture) : Texture_eqb a b = true <-> a = b.
Proof.
  destruct a as [i|], b as [j|]; simpl; split; intro H;
    try discriminate; try reflexivity.
  - apply Nat.eqb_eq in H. now subst.
  - injection H as ->. apply Nat.eqb_refl.
Qed.

Lemma sample_eqb_eq (a b : option Texture) : sample_eqb a b = true <-> a = b.
Proof.
  destruct a as [x|], b as [y|]; simpl; split; intro H;
    try discriminate; try reflexivity.
  - apply Texture_eqb_eq in H. now subst.
  - injection H as ->. now apply Texture_eqb_eq.
Qed.

Lemma notNull_iff (a : option Texture) : notNull a = true <-> a <> None.
Proof.
  destruct a; simpl; split; intro H; try discriminate; try reflexivity.
  now elim H.
Qed.

Lemma allMatch_iff (sample : list (option Texture)) :
  allMatch sample = true <-> isWin sample.
Proof.
  unfold allMatch, isWin. rewrite forallb_forall, Forall_forall.
  split; intros H t Ht; specialize (H t Ht).
  - apply andb_true_iff in H. destruct H as [H1 H2].
    split; [now apply notNull_iff | now apply sample_eqb_eq].
  - destruct H as [H1 H2]. apply andb_true_iff.
    split; [now apply notNull_iff | now apply sample_eqb_eq].
Qed.

Example sample_apple_apple_kiwi :
  allMatch [Some (Tex 0); Some (Tex 0); Some (Tex 2)] = false.
Proof. reflexivity. Qed.

Example sample_corn_corn_corn :
  allMatch [Some (Tex 4); Some (Tex 4); Some (Tex 4)] = true.
Proof. reflexivity. Qed.

Example sample_with_missing_entry :
  allMatch [None; None; None] = false.
Proof. reflexivity. Qed.

(** C5.  [checkWin] declares a win exactly when every sampled win-line
    entry is present and equal to the first; on a win 500 is added to
    the balance; in both cases a win/loss message goes to the UI. *)
Theorem checkWin_outcome :
  forall w : world,
  exists won : bool,
    (won = true <-> isWin (getVisibleTexturesAtWinLine w)) /\
    balance (checkWin w) = balance w + (if won then 500 else 0) /\
    ui (checkWin w) =
      ui w ++ (if won
               then [UpdateBalanceDisplay (balance w + 500);
                     ShowWinLossMessage "GANHASTE 500!" true;
                     TriggerFireworksSequence]
               else [ShowWinLossMessage "AZAR!" false]) /\
    reels (checkWin w) = reels w /\
    spinning (checkWin w) = spinning w.
Proof.
  intro w. exists (allMatch (getVisibleTexturesAtWinLine w)).
  split; [apply allMatch_iff|].
  unfold checkWin.
  destruct (allMatch (getVisibleTexturesAtWinLine w)); cbn.
  - repeat split; try reflexivity.
    repeat rewrite <- app_assoc. reflexivity.
  - repeat split; try reflexivity. lia.
Qed.

(* ================================================================== *)
(** ** Spin requests *)

(** C6.  With a balance below the spin cost, a spin request in the idle
    state shows the insufficient-funds message and changes nothing
    else: the balance is not charged and the session stays idle. *)
Theorem startSpin_insufficient_funds :
  forall (w : world) (forceWin : bool) (clock : nat -> Z),
    spinning w = false ->
    balance w < SPIN_COST ->
    let w' := startSpin forceWin clock w in
    ui w' = ui w ++ [ShowGameMessage "Saldo insuficiente para girar!"] /\
    balance w' = balance w /\
    spinning w' = false /\
    reels w' = reels w /\
    rafQueue w' = rafQueue w /\
    spinCalls w' = spinCalls w /\
    rand w' = rand w /\
    slotTextures w' = slotTextures w /\
    _slotTextures w' = _slotTextures w.
Proof.
  intros w forceWin clock Hidle Hlow. unfold startSpin.
  rewrite Hidle. apply Z.ltb_lt in Hlow. rewrite Hlow. cbn.
  rewrite Hidle. repeat split; reflexivity.
Qed.

(** C8.  A spin request while a spin is in progress returns the world
    unchanged. *)
Theorem startSpin_while_spinning :
  forall (w : world) (forceWin : bool) (clock : nat -> Z),
    spinning w = true ->
    startSpin forceWin clock w = w.
Proof.
  intros w forceWin clock Hspin. unfold startSpin. now rewrite Hspin.
Qed.

(* ================================================================== *)
(** ** List update *)

Lemma length_updateAt {A : Type} (i : nat) (f : A -> A) (l : list A) :
  length (updateAt i f l) = length l.
Proof.
  revert i. induction l as [|x t IH]; intros [|j]; simpl; auto.
Qed.

Lemma nth_error_updateAt_same {A : Type} (i : nat) (f : A -> A) (l : list A) :
  nth_error (updateAt i f l) i = option_map f (nth_error l i).
Proof.
  revert i. induction l as [|x t IH]; intros [|j]; simpl; auto.
Qed.

Lemma nth_error_updateAt_other {A : Type} (i j : nat) (f : A -> A) (l : list A) :
  i <> j -> nth_error (updateAt i f l) j = nth_error l j.
Proof.
  revert i j. induction l as [|x t IH]; intros [|i] [|j] H; simpl; auto;
    try congruence.
Qed.

Lemma updateAt_middle {A : Type} (f : A -> A) (done : list A) (x : A)
      (rest : list A) :
  updateAt (length done) f (done ++ x :: rest) = done ++ f x :: rest.
Proof.
  induction done as [|d done IH]; simpl; [reflexivity|]. now rewrite IH.
Qed.

Lemma nth_error_middle {A : Type} (done : list A) (x : A) (rest : list A) :
  nth_error (done ++ x :: rest) (length done) = Some x.
Proof.
  induction done as [|d done IH]; simpl; [reflexivity|]. exact IH.
Qed.

(* ================================================================== *)
(** ** What [startReelSpin] leaves behind *)

Lemma spinReels_fold (k : nat) (results : list nat) (forceWin : bool)
      (clock : nat -> Z) :
  forall (rest done : list reel) (w : world),
    reels w = done ++ rest ->
    fold_left (fun w index => spinReel k results forceWin (clock index) index w)
              (seq (length done) (length rest)) w
    = set_rafQueue
        (rafQueue w ++ spinTweensFrom k results forceWin clock (length done) rest)
        (set_reels (done ++ map (set_spinTween JsUndefined) rest) w).
Proof.
  induction rest as [|r rest IH]; intros done w Hw.
  - simpl. rewrite app_nil_r in *. rewrite app_nil_r. rewrite <- Hw.
    destruct w; reflexivity.
  - cbn [length seq fold_left map spinTweensFrom].
    unfold spinReel at 2. rewrite Hw, nth_error_middle.
    unfold tweenTo, requestAnimationFrame.
    cbn [reels set_rafQueue set_reels rafQueue].
    rewrite Hw, updateAt_middle.
    replace (S (length done)) with (length (done ++ [set_spinTween JsUndefined r]))
      by (rewrite length_app; simpl; lia).
    rewrite IH.
    + cbn [reels set_rafQueue set_reels rafQueue].
      repeat rewrite <- app_assoc. simpl.
      rewrite length_app. simpl. rewrite Nat.add_1_r.
      destruct w; reflexivity.
    + cbn [reels set_reels]. rewrite <- app_assoc. reflexivity.
Qed.

Lemma startReelSpin_world (results : list nat) (forceWin : bool)
      (clock : nat -> Z) (w : world) :
  startReelSpin results forceWin clock w
  = (length (spinCalls w),
     set_rafQueue
       (rafQueue w ++ spinTweensFrom (length (spinCalls w)) results forceWin
                                     clock 0 (reels w))
       (set_reels (map (set_spinTween JsUndefined) (reels w))
          (set_spinCalls (spinCalls w ++ [mkSpinCall 0 0 false]) w))).
Proof.
  unfold startReelSpin. f_equal.
  pose proof (spinReels_fold (length (spinCalls w)) results forceWin clock
                (reels w) []
                (set_spinCalls (spinCalls w ++ [mkSpinCall 0 0 false]) w)
                eq_refl) as H.
  cbn [length app reels set_spinCalls] in H |- *. rewrite H.
  destruct w; reflexivity.
Qed.

Lemma spinTweensFrom_length k results forceWin clock a rs :
  length (spinTweensFrom k results forceWin clock a rs) = length rs.
Proof.
  revert a. induction rs as [|r rs IH]; intro a; simpl; auto.
Qed.

Lemma spinTweensFrom_spin k results forceWin clock a rs :
  Forall (fun tw => tw_spin tw = k)
         (spinTweensFrom k results forceWin clock a rs).
Proof.
  revert a. induction rs as [|r rs IH]; intro a; simpl; constructor; auto.
Qed.

Lemma spinTweensFrom_nth k results forceWin clock a rs i r :
  nth_error rs i = Some r ->
  nth_error (spinTweensFrom k results forceWin clock a rs) i
  = Some (mkTween (a + i)%nat (position r)
                  (targetPosition (position r) (resultAt results (a + i)%nat))
                  (clock (a + i)%nat)
                  (SPIN_DURATION_BASE + Z.of_nat (a + i) * 500) (Num (1 # 2))
                  k results forceWin).
Proof.
  revert a i. induction rs as [|x rs IH]; intros a [|i] H; simpl in *;
    try discriminate.
  - injection H as ->. now rewrite Nat.add_0_r.
  - rewrite (IH (S a) i H). now rewrite Nat.add_succ_r.
Qed.

(** Right after [startReelSpin] in any world, every reel's [spinTween]
    holds [undefined], the value of the [tweenTo] call. *)
Lemma startReelSpin_spinTween (results : list nat) (forceWin : bool)
      (clock : nat -> Z) (w : world) (r : reel) :
  In r (reels (snd (startReelSpin results forceWin clock w))) ->
  spinTween r = JsUndefined.
Proof.
  rewrite startReelSpin_world. cbn. rewrite in_map_iff.
  intros (r0 & <- & _). reflexivity.
Qed.

(** A scroll target computed from a missing result is [NaN]. *)
Lemma targetPosition_missing_result (position : num) (results : list nat)
      (index : nat) :
  (length results <= index)%nat ->
  targetPosition position (resultAt results index) = NaN.
Proof.
  intro H. unfold resultAt.
  apply nth_error_None in H. rewrite H.
  unfold targetPosition, spinDistance, distanceToAlign,
    finalDesiredReelPosition, winningSymbolTargetYInStrip.
  cbn [nmul nsub]. destruct (currentReelPositionNormalized position);
    cbn; destruct position; reflexivity.
Qed.

(* ================================================================== *)
(** ** How one callback changes the bookkeeping *)

Lemma tickSymbols_length textures deltaY field l g :
  length (fst (tickSymbols textures deltaY field l g)) = length l.
Proof.
  revert g. induction l as [|s l IH]; intro g; simpl; [reflexivity|].
  destruct (tickSymbol textures deltaY field s g) as [s' g1].
  specialize (IH g1).
  destruct (tickSymbols textures deltaY field l g1) as [l' g2].
  simpl in *. now rewrite IH.
Qed.

Lemma tickReels_spinTween textures l g :
  map spinTween (fst (tickReels textures l g)) = map spinTween l.
Proof.
  revert g. induction l as [|r l IH]; intro g; simpl; [reflexivity|].
  unfold tickReel.
  destruct (tickSymbols textures _ (spinTween r) (symbols r) g) as [syms g1].
  specialize (IH g1).
  destruct (tickReels textures l g1) as [l' g2].
  simpl in *. now rewrite IH.
Qed.

Lemma tickReels_length textures l g :
  length (fst (tickReels textures l g)) = length l.
Proof.
  rewrite <- (length_map spinTween), tickReels_spinTween.
  apply length_map.
Qed.

Lemma ticker_shape (w : world) :
  length (reels (ticker w)) = length (reels w) /\
  map spinTween (reels (ticker w)) = map spinTween (reels w) /\
  rafQueue (ticker w) = rafQueue w /\
  spinCalls (ticker w) = spinCalls w.
Proof.
  unfold ticker.
  pose proof (tickReels_length (_slotTextures w) (reels w) (rand w)) as Hl.
  pose proof (tickReels_spinTween (_slotTextures w) (reels w) (rand w)) as Hs.
  destruct (tickReels (_slotTextures w) (reels w) (rand w)) as [rs g].
  simpl in *. auto.
Qed.

Lemma afterReelsStop_shape (w : world) :
  reels (afterReelsStop w) = reels w /\
  rafQueue (afterReelsStop w) = rafQueue w /\
  spinCalls (afterReelsStop w) = spinCalls w /\
  rand (afterReelsStop w) = rand w.
Proof.
  unfold afterReelsStop, checkWin.
  destruct (allMatch _); cbn; auto.
Qed.

Lemma resolve_shape (k : nat) (w : world) :
  reels (resolve k w) = reels w /\
  rafQueue (resolve k w) = rafQueue w /\
  spinCalls (resolve k w) = updateAt k incrResolved (spinCalls w).
Proof.
  unfold resolve.
  destruct (nth_error (spinCalls w) k) as [c|] eqn:E.
  - destruct (Nat.eqb (resolved c) 0 && awaited c).
    + destruct (afterReelsStop_shape
                  (set_spinCalls (updateAt k incrResolved (spinCalls w)) w))
        as (H1 & H2 & H3 & _).
      unfold incrResolved in *. rewrite H1, H2, H3. cbn. auto.
    + cbn. auto.
  - repeat split; auto.
    clear - E. revert k E.
    induction (spinCalls w) as [|x l IH]; intros [|k] E; simpl in *;
      try discriminate; auto.
    now rewrite <- IH.
Qed.

Lemma onComplete_shape (tw : tween) (w : world) :
  length (reels (onComplete tw w)) = length (reels w) /\
  rafQueue (onComplete tw w) = rafQueue w /\
  spinCalls (onComplete tw w)
  = completeCalls (tw_spin tw) (length (reels w)) (spinCalls w).
Proof.
  unfold onComplete, completeCalls.
  set (w1 := set_reels _ (set_spinCalls _ w)).
  assert (H1 : length (reels w1) = length (reels w))
    by (unfold w1; cbn; apply length_updateAt).
  assert (H2 : rafQueue w1 = rafQueue w) by reflexivity.
  assert (H3 : spinCalls w1 = updateAt (tw_spin tw) incrStopped (spinCalls w))
    by reflexivity.
  set (w2 := if tw_forceWin tw then _ else w1).
  assert (H : length (reels w2) = length (reels w1) /\
              rafQueue w2 = rafQueue w1 /\ spinCalls w2 = spinCalls w1).
  { unfold w2. destruct (tw_forceWin tw); auto.
    destruct (nth_error (reels w1) (tw_index tw)) as [r|]; auto.
    destruct (forceWinAdjust _ _ _ _ _) as [syms g]. cbn.
    rewrite length_updateAt. auto. }
  destruct H as (G1 & G2 & G3).
  rewrite G3, H3, G1, H1.
  destruct (nth_error _ (tw_spin tw)) as [c|].
  - destruct (Nat.eqb (reelsStopping c) (length (reels w))).
    + destruct (resolve_shape (tw_spin tw) w2) as (R1 & R2 & R3).
      rewrite R1, R2, R3, G1, H1, G2, H2, G3, H3. auto.
    + rewrite G1, H1, G2, H2, G3, H3. auto.
  - rewrite G1, H1, G2, H2, G3, H3. auto.
Qed.

Lemma animate_shape (tw : tween) (now : Z) (w : world) :
  length (reels (animate tw now w)) = length (reels w) /\
  ((now < endTime tw /\
    rafQueue (animate tw now w) = rafQueue w ++ [tw] /\
    spinCalls (animate tw now w) = spinCalls w)
   \/
   (endTime tw <= now /\
    rafQueue (animate tw now w) = rafQueue w /\
    spinCalls (animate tw now w)
    = completeCalls (tw_spin tw) (length (reels w)) (spinCalls w))).
Proof.
  unfold animate, endTime.
  destruct (now <? tw_startTime tw + tw_time tw) eqn:E.
  - apply Z.ltb_lt in E. cbn. rewrite length_updateAt. auto.
  - apply Z.ltb_ge in E.
    destruct (onComplete_shape tw
                (set_reels (updateAt (tw_index tw)
                                     (set_position (tw_target tw)) (reels w)) w))
      as (H1 & H2 & H3).
    rewrite H1, H2, H3. cbn. rewrite length_updateAt. auto.
Qed.

(* ================================================================== *)
(** ** The completion bookkeeping is invariant *)

Lemma pendingOf_app k q1 q2 :
  pendingOf k (q1 ++ q2) = pendingOf k q1 ++ pendingOf k q2.
Proof. apply filter_app. Qed.

Lemma completeCalls_length k n sc :
  length (completeCalls k n sc) = length sc.
Proof.
  unfold completeCalls.
  destruct (nth_error _ k) as [c|]; [destruct (Nat.eqb _ n)|];
    repeat rewrite length_updateAt; reflexivity.
Qed.

Lemma completeCalls_other k j n sc :
  k <> j -> nth_error (completeCalls k n sc) j = nth_error sc j.
Proof.
  intro H. unfold completeCalls.
  destruct (nth_error _ k) as [c|]; [destruct (Nat.eqb _ n)|];
    repeat rewrite nth_error_updateAt_other by exact H; reflexivity.
Qed.

Lemma completeCalls_same k n sc c :
  nth_error sc k = Some c ->
  nth_error (completeCalls k n sc) k
  = Some (if Nat.eqb (S (reelsStopping c)) n
          then incrResolved (incrStopped c) else incrStopped c).
Proof.
  intro H. unfold completeCalls.
  rewrite nth_error_updateAt_same, H. cbn [option_map incrStopped reelsStopping].
  destruct (Nat.eqb (S (reelsStopping c)) n).
  - rewrite nth_error_updateAt_same, nth_error_updateAt_same, H. reflexivity.
  - rewrite nth_error_updateAt_same, H. reflexivity.
Qed.

Section Bookkeeping.

(** The reel count and the call under consideration. *)
Variables n k : nat.

(** One [animate] callback. *)
Lemma animate_callInv (tw : tween) (rest : list tween) (now : Z) (w : world) :
  callInv n k ((tw :: rest) ++ rafQueue w) w ->
  callInv n k (rest ++ rafQueue (animate tw now w)) (animate tw now w).
Proof.
  intros (Hn & Hwf & c & Hc & Hsum & Hres).
  destruct (animate_shape tw now w) as (Hlen & [(_ & Hq & Hs) | (_ & Hq & Hs)]).
  - (* the tween continues *)
    split; [congruence|]. rewrite Hq, Hs. split.
    + simpl in Hwf. inversion Hwf as [|? ? Htw Hrest]; subst.
      rewrite app_assoc. apply Forall_app. split; [exact Hrest|].
      constructor; [exact Htw | constructor].
    + exists c. split; [exact Hc|].
      assert (E : length (pendingOf k (rest ++ rafQueue w ++ [tw]))
                  = length (pendingOf k ((tw :: rest) ++ rafQueue w))).
      { repeat rewrite pendingOf_app. repeat rewrite length_app.
        change (tw :: rest) with ([tw] ++ rest).
        rewrite pendingOf_app, length_app. lia. }
      rewrite E. auto.
  - (* the tween completes *)
    split; [congruence|]. rewrite Hq, Hs, Hn. split.
    + rewrite completeCalls_length.
      simpl in Hwf. now inversion Hwf.
    + simpl in Hsum, Hres. unfold pendingOf in Hsum, Hres. simpl in Hsum, Hres.
      fold (pendingOf k (rest ++ rafQueue w)) in Hsum, Hres.
      destruct (Nat.eqb (tw_spin tw) k) eqn:E.
      * apply Nat.eqb_eq in E. rewrite E.
        rewrite (completeCalls_same _ _ _ _ Hc).
        simpl in Hsum, Hres.
        destruct (Nat.eqb (S (reelsStopping c)) n) eqn:En.
        -- apply Nat.eqb_eq in En. eexists. split; [reflexivity|].
           cbn [incrResolved incrStopped reelsStopping resolved].
           assert (Hz : length (pendingOf k (rest ++ rafQueue w)) = 0%nat) by lia.
           rewrite Hz. simpl. split; lia.
        -- apply Nat.eqb_neq in En. eexists. split; [reflexivity|].
           cbn [incrStopped reelsStopping resolved].
           split; [lia|].
           destruct (length (pendingOf k (rest ++ rafQueue w))) eqn:Ez;
             [lia | simpl; exact Hres].
      * apply Nat.eqb_neq in E.
        rewrite (completeCalls_other _ _ _ _ E).
        exists c. auto.
Qed.

Lemma runCallbacks_callInv (clock : nat -> Z) :
  forall (cbs : list tween) (i : nat) (w : world),
    callInv n k (cbs ++ rafQueue w) w ->
    callInv n k (rafQueue (runCallbacks clock i cbs w))
            (runCallbacks clock i cbs w).
Proof.
  induction cbs as [|tw rest IH]; intros i w H; simpl.
  - exact H.
  - apply IH. now apply animate_callInv.
Qed.

Lemma frame_callInv (clock : nat -> Z) (w : world) :
  callInv n k (rafQueue w) w ->
  callInv n k (rafQueue (frame clock w)) (frame clock w).
Proof.
  intros (Hn & Hwf & c & Hc & Hsum & Hres).
  destruct (ticker_shape w) as (T1 & _ & T2 & T3).
  unfold frame. apply runCallbacks_callInv.
  cbn [rafQueue set_rafQueue]. rewrite app_nil_r, T2.
  split; [cbn; congruence|]. split.
  - cbn. now rewrite T3.
  - exists c. cbn. rewrite T3. auto.
Qed.

(** A spin request never touches another call's bookkeeping. *)
Lemma startSpin_callInv (forceWin : bool) (clock : nat -> Z) (w : world) :
  callInv n k (rafQueue w) w ->
  callInv n k (rafQueue (startSpin forceWin clock w))
          (startSpin forceWin clock w).
Proof.
  intros (Hn & Hwf & c & Hc & Hsum & Hres).
  assert (Hk : (k < length (spinCalls w))%nat)
    by (apply nth_error_Some; congruence).
  unfold startSpin.
  destruct (spinning w); [repeat split; eauto|].
  destruct (balance w <? SPIN_COST); [repeat split; eauto|].
  destruct (chooseResults forceWin _ _) as [results g].
  rewrite startReelSpin_world.
  cbn [reels rafQueue spinCalls set_spinCalls set_rafQueue set_reels
       set_rand emit set_spinning set_balance].
  set (k' := length (spinCalls w)).
  set (new := spinTweensFrom k' results forceWin clock 0 (reels w)).
  assert (Hnew : pendingOf k new = []).
  { pose proof (spinTweensFrom_spin k' results forceWin clock 0 (reels w)) as F.
    fold new in F. clearbody new. unfold pendingOf.
    induction new as [|tw new IH]; simpl; [reflexivity|].
    inversion F; subst.
    replace (Nat.eqb (tw_spin tw) k) with false
      by (symmetry; apply Nat.eqb_neq; unfold k' in *; lia).
    auto. }
  unfold callInv.
  cbn [reels rafQueue spinCalls set_spinCalls set_rafQueue set_reels
       set_rand emit set_spinning set_balance].
  split; [now rewrite length_map|]. split.
  - rewrite length_updateAt, length_app. simpl.
    apply Forall_app. split.
    + eapply Forall_impl; [|exact Hwf]. simpl. intros; lia.
    + eapply Forall_impl;
        [|exact (spinTweensFrom_spin k' results forceWin clock 0 (reels w))].
      simpl. intros a ->. unfold k'. lia.
  - exists c. rewrite pendingOf_app, Hnew, app_nil_r.
    repeat split; auto.
    rewrite nth_error_updateAt_other by (unfold k'; lia).
    rewrite nth_error_app1 by exact Hk. exact Hc.
Qed.

Lemma run_callInv (trace : list event) :
  forall w : world,
    callInv n k (rafQueue w) w ->
    callInv n k (rafQueue (run trace w)) (run trace w).
Proof.
  unfold run. induction trace as [|e trace IH]; intros w H; simpl.
  - exact H.
  - apply IH. destruct e as [clock | forceWin clock]; simpl.
    + now apply frame_callInv.
    + now apply startSpin_callInv.
Qed.

End Bookkeeping.

(** The invariant holds right after [startReelSpin]. *)
Lemma startReelSpin_callInv (results : list nat) (forceWin : bool)
      (clock : nat -> Z) (w : world) :
  reels w <> [] ->
  queueWellFormed w ->
  callInv (length (reels w)) (length (spinCalls w))
          (rafQueue (snd (startReelSpin results forceWin clock w)))
          (snd (startReelSpin results forceWin clock w)).
Proof.
  intros Hne Hwf. rewrite startReelSpin_world.
  cbn [snd reels rafQueue spinCalls set_spinCalls set_rafQueue set_reels].
  set (k := length (spinCalls w)).
  set (new := spinTweensFrom k results forceWin clock 0 (reels w)).
  assert (Hold : pendingOf k (rafQueue w) = []).
  { unfold queueWellFormed in Hwf. fold k in Hwf. unfold pendingOf.
    induction (rafQueue w) as [|tw q IH]; simpl; [reflexivity|].
    inversion Hwf; subst.
    replace (Nat.eqb (tw_spin tw) k) with false
      by (symmetry; apply Nat.eqb_neq; lia).
    auto. }
  assert (Hnew : pendingOf k new = new).
  { pose proof (spinTweensFrom_spin k results forceWin clock 0 (reels w)) as F.
    fold new in F. clearbody new. unfold pendingOf.
    induction new as [|tw new IH]; simpl; [reflexivity|].
    pose proof (Forall_inv F) as E. pose proof (Forall_inv_tail F) as F'.
    simpl in E. rewrite E, Nat.eqb_refl.
    f_equal. now apply IH. }
  unfold callInv.
  cbn [reels rafQueue spinCalls set_spinCalls set_rafQueue set_reels].
  split; [now rewrite length_map|]. split.
  - rewrite length_app. simpl. apply Forall_app. split.
    + eapply Forall_impl; [|exact Hwf]. simpl. intros; lia.
    + eapply Forall_impl;
        [|exact (spinTweensFrom_spin k results forceWin clock 0 (reels w))].
      simpl. intros a ->. fold k. lia.
  - exists (mkSpinCall 0 0 false). split.
    + unfold k. rewrite nth_error_app2 by lia. now rewrite Nat.sub_diag.
    + rewrite pendingOf_app, Hold, Hnew. simpl.
      unfold new. rewrite spinTweensFrom_length.
      destruct (reels w); [now elim Hne | simpl; auto].
Qed.

(* ================================================================== *)
(** ** Every tween completes once its end time has passed *)

Lemma runCallbacks_drains (k : nat) (clock : nat -> Z) :
  forall (cbs : list tween) (i : nat) (w : world),
    (forall tw j, In tw (pendingOf k cbs) -> endTime tw <= clock j) ->
    pendingOf k (rafQueue (runCallbacks clock i cbs w))
    = pendingOf k (rafQueue w).
Proof.
  induction cbs as [|tw rest IH]; intros i w H; simpl; [reflexivity|].
  rewrite IH.
  - destruct (animate_shape tw (clock i) w) as (_ & [(Hlt & Hq & _) | (_ & Hq & _)]);
      rewrite Hq; [|reflexivity].
    rewrite pendingOf_app. unfold pendingOf at 2. simpl.
    destruct (Nat.eqb (tw_spin tw) k) eqn:E; [|apply app_nil_r].
    exfalso. specialize (H tw i). unfold pendingOf in H. simpl in H.
    rewrite E in H. specialize (H (or_introl eq_refl)). lia.
  - intros tw' j Hin. apply H. unfold pendingOf in *. simpl.
    destruct (Nat.eqb (tw_spin tw) k); [right|]; exact Hin.
Qed.

Lemma frame_drains (k : nat) (clock : nat -> Z) (w : world) :
  (forall tw j, In tw (pendingOf k (rafQueue w)) -> endTime tw <= clock j) ->
  pendingOf k (rafQueue (frame clock w)) = [].
Proof.
  intro H. unfold frame.
  destruct (ticker_shape w) as (_ & _ & T2 & _).
  rewrite runCallbacks_drains; [reflexivity|].
  now rewrite T2.
Qed.

(* ================================================================== *)
(** ** Reachable worlds *)

Lemma animate_wellFormed (tw : tween) (rest : list tween) (now : Z)
      (w : world) :
  Forall (fun t => (tw_spin t < length (spinCalls w))%nat)
         ((tw :: rest) ++ rafQueue w) ->
  Forall (fun t => (tw_spin t < length (spinCalls (animate tw now w)))%nat)
         (rest ++ rafQueue (animate tw now w)).
Proof.
  intro Hwf. simpl in Hwf.
  pose proof (Forall_inv Hwf) as Htw. pose proof (Forall_inv_tail Hwf) as Hrest.
  destruct (animate_shape tw now w) as (_ & [(_ & Hq & Hs) | (_ & Hq & Hs)]);
    rewrite Hq, Hs.
  - rewrite app_assoc. apply Forall_app. split; [exact Hrest|].
    constructor; [exact Htw | constructor].
  - rewrite completeCalls_length. exact Hrest.
Qed.

Lemma runCallbacks_wellFormed (clock : nat -> Z) :
  forall (cbs : list tween) (i : nat) (w : world),
    Forall (fun t => (tw_spin t < length (spinCalls w))%nat)
           (cbs ++ rafQueue w) ->
    queueWellFormed (runCallbacks clock i cbs w) /\
    length (reels (runCallbacks clock i cbs w)) = length (reels w).
Proof.
  induction cbs as [|tw rest IH]; intros i w H; simpl.
  - split; [exact H | reflexivity].
  - destruct (IH (S i) (animate tw (clock i) w)) as (H1 & H2).
    + now apply animate_wellFormed.
    + split; [exact H1|]. rewrite H2.
      now destruct (animate_shape tw (clock i) w) as (Hlen & _).
Qed.

Lemma step_wellFormed (e : event) (w : world) :
  queueWellFormed w ->
  queueWellFormed (step w e) /\ length (reels (step w e)) = length (reels w).
Proof.
  intro Hwf. destruct e as [clock | forceWin clock]; simpl.
  - unfold frame.
    destruct (ticker_shape w) as (T1 & _ & T2 & T3).
    destruct (runCallbacks_wellFormed clock (rafQueue (ticker w)) 0
                (set_rafQueue [] (ticker w))) as (H1 & H2).
    + cbn. rewrite app_nil_r, T2, T3. exact Hwf.
    + split; [exact H1|]. rewrite H2. cbn. exact T1.
  - unfold startSpin.
    destruct (spinning w); [split; [exact Hwf | reflexivity]|].
    destruct (balance w <? SPIN_COST); [split; [exact Hwf | reflexivity]|].
    destruct (chooseResults forceWin _ _) as [results g].
    rewrite startReelSpin_world. unfold queueWellFormed.
    cbn [reels rafQueue spinCalls set_spinCalls set_rafQueue set_reels
         set_rand emit set_spinning set_balance].
    split; [|apply length_map].
    rewrite length_updateAt, length_app. simpl.
    apply Forall_app. split.
    + eapply Forall_impl; [|exact Hwf]. simpl. intros; lia.
    + eapply Forall_impl; [|apply spinTweensFrom_spin].
      simpl. intros a ->. lia.
Qed.

Lemma run_wellFormed (trace : list event) :
  forall w : world,
    queueWellFormed w ->
    queueWellFormed (run trace w) /\
    length (reels (run trace w)) = length (reels w).
Proof.
  unfold run. induction trace as [|e trace IH]; intros w H; simpl.
  - split; [exact H | reflexivity].
  - destruct (step_wellFormed e w H) as (H1 & H2).
    destruct (IH _ H1) as (H3 & H4). split; [exact H3 | congruence].
Qed.

Lemma newReels_length textures n g :
  length (fst (newReels textures n g)) = n.
Proof.
  revert g. induction n as [|n IH]; intro g; cbn [newReels]; [reflexivity|].
  destruct (newSymbols textures 0 NUM_SYMBOLS_PER_REEL_STRIP g) as [syms g1].
  specialize (IH g1). destruct (newReels textures n g1) as [rest g2].
  cbn [fst length] in *. congruence.
Qed.

(** Every world reached from the initial one has three reels and a
    well-formed callback queue. *)
Lemma reachable_wellFormed (draws : nat -> nat) (trace : list event) :
  let w := run trace (initSlotGame (initialWorld draws)) in
  queueWellFormed w /\ length (reels w) = 3%nat.
Proof.
  cbv zeta.
  destruct (run_wellFormed trace (initSlotGame (initialWorld draws)))
    as (H1 & H2).
  - unfold initSlotGame, initReelManager.
    destruct (newReels _ 3 _) as [rs g]. constructor.
  - split; [exact H1|]. rewrite H2.
    unfold initSlotGame, initReelManager.
    match goal with
    | |- context [newReels ?t 3 ?g] =>
        pose proof (newReels_length t 3 g) as Hl; destruct (newReels t 3 g)
    end.
    exact Hl.
Qed.

(* ================================================================== *)
(** ** Aggregate completion *)

Lemma callInv_completesOnce (n k : nat) (w : world) :
  callInv n k (rafQueue w) w -> completesOnce n k w.
Proof.
  intro Hinv. pose proof Hinv as (_ & _ & c & Hc & Hsum & Hres).
  assert (Hlive : forall clock : nat -> Z,
             (forall tw j, In tw (pendingOf k (rafQueue w)) ->
                           endTime tw <= clock j) ->
             resolvedCount k (frame clock w) = 1%nat).
  { intros clock Hclock.
    pose proof (frame_callInv _ _ clock _ Hinv) as (_ & _ & c' & Hc' & _ & Hres').
    rewrite frame_drains in Hres' by exact Hclock.
    unfold resolvedCount. rewrite Hc'. exact Hres'. }
  unfold completesOnce, stoppedCount, resolvedCount. rewrite Hc.
  split; [exact Hsum|].
  destruct (pendingOf k (rafQueue w)) as [|tw q] eqn:Ep; simpl in Hres.
  - split; [lia|]. split; [tauto | exact Hlive].
  - split; [lia|]. split; [|exact Hlive].
    split; [lia | discriminate].
Qed.

(** The invariant holds right after a spin request that starts a spin. *)
Lemma startSpin_starts_callInv (forceWin : bool) (clock : nat -> Z) (w : world) :
  reels w <> [] ->
  queueWellFormed w ->
  spinning w = false ->
  SPIN_COST <= balance w ->
  callInv (length (reels w)) (length (spinCalls w))
          (rafQueue (startSpin forceWin clock w)) (startSpin forceWin clock w).
Proof.
  intros Hne Hwf Hidle Hfunds. unfold startSpin. rewrite Hidle.
  apply Z.ltb_ge in Hfunds. rewrite Hfunds.
  destruct (chooseResults forceWin _ _) as [results g].
  set (w0 := set_rand g _).
  pose proof (startReelSpin_callInv results forceWin clock w0 Hne Hwf)
    as (Hn & Hq & c & Hc & Hsum & Hres).
  destruct (startReelSpin results forceWin clock w0) as [k w1] eqn:E.
  assert (Hk : k = length (spinCalls w)).
  { rewrite startReelSpin_world in E. now injection E as <- _. }
  subst k. cbn [snd] in *.
  change (spinCalls w0) with (spinCalls w) in *.
  change (reels w0) with (reels w) in *.
  unfold callInv. cbn [reels rafQueue spinCalls set_spinCalls].
  split; [exact Hn|]. split.
  - now rewrite length_updateAt.
  - rewrite nth_error_updateAt_same, Hc. eexists. split; [reflexivity|].
    cbn. auto.
Qed.

(** C7.  For every spin started in a world with at least one reel,
    through [startReelSpin] directly or through a spin request that is
    accepted, and after any sequence of animation frames and further
    spin requests (clock readings arbitrary, so the reels may stop in
    any order): [resolve] has been called at most once on the spin's
    promise, and exactly once if and only if no tween of the spin is
    still animating; and a frame past every remaining end time
    completes the spin. *)
Theorem aggregate_completion_once :
  forall (w : world) (results : list nat) (forceWin : bool)
         (clock : nat -> Z) (trace : list event),
    reels w <> [] ->
    queueWellFormed w ->
    completesOnce (length (reels w))
                  (fst (startReelSpin results forceWin clock w))
                  (run trace (snd (startReelSpin results forceWin clock w)))
    /\
    (spinning w = false ->
     SPIN_COST <= balance w ->
     completesOnce (length (reels w)) (length (spinCalls w))
                   (run trace (startSpin forceWin clock w))).
Proof.
  intros w results forceWin clock trace Hne Hwf. split.
  - apply callInv_completesOnce, run_callInv.
    replace (fst (startReelSpin results forceWin clock w))
      with (length (spinCalls w)) by (now rewrite startReelSpin_world).
    now apply startReelSpin_callInv.
  - intros Hidle Hfunds.
    apply callInv_completesOnce, run_callInv.
    now apply startSpin_starts_callInv.
Qed.

(* ================================================================== *)
(** ** The per-frame step of one symbol *)

(** A symbol whose cell lies wholly above the window is moved down by
    one strip height. *)
Lemma tickSymbol_top textures deltaY field s g :
  nltb (nadd (nadd (sym_y s) deltaY) (ndiv CELL_HEIGHT (Num 2))) (Num 0) = true ->
  sym_y (fst (tickSymbol textures deltaY field s g))
  = nadd (nadd (sym_y s) deltaY) totalStripHeight.
Proof.
  intro H. unfold tickSymbol. rewrite H.
  destruct (truthy field); [destruct (randomTexture textures g)|]; reflexivity.
Qed.

(** A symbol whose cell lies wholly below the window is moved up by one
    strip height. *)
Lemma tickSymbol_bottom textures deltaY field s g :
  nltb (nadd (nadd (sym_y s) deltaY) (ndiv CELL_HEIGHT (Num 2))) (Num 0) = false ->
  ngtb (nsub (nadd (sym_y s) deltaY) (ndiv CELL_HEIGHT (Num 2)))
       (nmul CELL_HEIGHT (ofNat NUM_VISIBLE_SYMBOLS)) = true ->
  sym_y (fst (tickSymbol textures deltaY field s g))
  = nsub (nadd (sym_y s) deltaY) totalStripHeight.
Proof.
  intros H1 H2. unfold tickSymbol. rewrite H1, H2.
  destruct (truthy field); [destruct (randomTexture textures g)|]; reflexivity.
Qed.

(** Any other symbol just moves by the scroll delta and keeps its
    texture. *)
Lemma tickSymbol_inside textures deltaY field s g :
  nltb (nadd (nadd (sym_y s) deltaY) (ndiv CELL_HEIGHT (Num 2))) (Num 0) = false ->
  ngtb (nsub (nadd (sym_y s) deltaY) (ndiv CELL_HEIGHT (Num 2)))
       (nmul CELL_HEIGHT (ofNat NUM_VISIBLE_SYMBOLS)) = false ->
  tickSymbol textures deltaY field s g
  = (mkSymbol (nadd (sym_y s) deltaY) (sym_texture s), g).
Proof.
  intros H1 H2. unfold tickSymbol. now rewrite H1, H2.
Qed.

(** The texture is redrawn exactly when the symbol wraps and the
    reel's [spinTween] field is truthy. *)
Lemma tickSymbol_truthy textures deltaY field s g :
  truthy field = true ->
  sym_y (fst (tickSymbol textures deltaY field s g)) <> nadd (sym_y s) deltaY ->
  sym_texture (fst (tickSymbol textures deltaY field s g))
  = fst (randomTexture textures g) /\
  snd (tickSymbol textures deltaY field s g) = snd (randomTexture textures g).
Proof.
  intros Hf Hy. unfold tickSymbol in *. rewrite Hf in *.
  destruct (nltb _ (Num 0)).
  - destruct (randomTexture textures g); auto.
  - destruct (ngtb _ _).
    + destruct (randomTexture textures g); auto.
    + now elim Hy.
Qed.

(** With a falsy [spinTween] field no texture changes and no random
    number is drawn. *)
Lemma tickSymbol_falsy textures deltaY field s g :
  truthy field = false ->
  sym_texture (fst (tickSymbol textures deltaY field s g)) = sym_texture s /\
  snd (tickSymbol textures deltaY field s g) = g.
Proof.
  intro Hf. unfold tickSymbol. rewrite Hf.
  destruct (nltb _ (Num 0)); [|destruct (ngtb _ _)]; auto.
Qed.

Lemma tickSymbols_falsy textures deltaY field l g :
  truthy field = false ->
  map sym_texture (fst (tickSymbols textures deltaY field l g))
  = map sym_texture l /\
  snd (tickSymbols textures deltaY field l g) = g.
Proof.
  intro Hf. revert g. induction l as [|s l IH]; intro g; simpl; [auto|].
  destruct (tickSymbol_falsy textures deltaY field s g Hf) as (H1 & H2).
  destruct (tickSymbol textures deltaY field s g) as [s' g1].
  simpl in H1, H2. subst g1.
  destruct (IH g) as (H3 & H4).
  destruct (tickSymbols textures deltaY field l g) as [l' g2].
  simpl in *. subst. split; [now f_equal | reflexivity].
Qed.

Lemma tickReels_falsy textures l g :
  Forall (fun r => truthy (spinTween r) = false) l ->
  map (fun r => map sym_texture (symbols r)) (fst (tickReels textures l g))
  = map (fun r => map sym_texture (symbols r)) l /\
  snd (tickReels textures l g) = g.
Proof.
  intro H. revert g. induction H as [|r l Hr Hl IH]; intro g; simpl; [auto|].
  unfold tickReel.
  destruct (tickSymbols_falsy textures (nsub (position r) (previousPosition r))
              (spinTween r) (symbols r) g Hr) as (H1 & H2).
  destruct (tickSymbols textures _ (spinTween r) (symbols r) g) as [syms g1].
  simpl in H1, H2. subst g1.
  destruct (IH g) as (H3 & H4).
  destruct (tickReels textures l g) as [l' g2].
  simpl in *. subst. split; [now f_equal | reflexivity].
Qed.

(** Where no [spinTween] is truthy, the ticker changes no texture and
    draws no random number. *)
Lemma ticker_keeps_textures (w : world) :
  noActiveTween w ->
  allTextures (ticker w) = allTextures w /\ rand (ticker w) = rand w.
Proof.
  intro H. unfold ticker, allTextures.
  destruct (tickReels_falsy (_slotTextures w) (reels w) (rand w) H) as (H1 & H2).
  destruct (tickReels (_slotTextures w) (reels w) (rand w)) as [rs g].
  simpl in *. auto.
Qed.

(* ================================================================== *)
(** ** [spinTween] never holds a tween *)

Lemma Forall_updateAt {A : Type} (P : A -> Prop) (i : nat) (f : A -> A)
      (l : list A) :
  (forall x, P x -> P (f x)) -> Forall P l -> Forall P (updateAt i f l).
Proof.
  intros Hf H. revert i. induction H as [|x l Hx Hl IH]; intros [|i]; simpl;
    constructor; auto.
Qed.

Lemma ticker_noActiveTween (w : world) :
  noActiveTween w -> noActiveTween (ticker w).
Proof.
  unfold noActiveTween. intro H.
  destruct (ticker_shape w) as (_ & Hs & _).
  apply (Forall_map spinTween (fun v => truthy v = false)).
  rewrite Hs. now apply Forall_map.
Qed.

Lemma animate_noActiveTween (tw : tween) (now : Z) (w : world) :
  noActiveTween w -> noActiveTween (animate tw now w).
Proof.
  unfold noActiveTween, animate. intro H.
  destruct (now <? _).
  - cbn. apply Forall_updateAt; auto.
  - unfold onComplete.
    set (w1 := set_reels _ (set_spinCalls _ (set_reels _ w))).
    assert (H1 : Forall (fun r => truthy (spinTween r) = false) (reels w1)).
    { unfold w1. cbn. repeat apply Forall_updateAt; auto. }
    set (w2 := if tw_forceWin tw then _ else w1).
    assert (H2 : Forall (fun r => truthy (spinTween r) = false) (reels w2)).
    { unfold w2. destruct (tw_forceWin tw); auto.
      destruct (nth_error (reels w1) (tw_index tw)); auto.
      destruct (forceWinAdjust _ _ _ _ _) as [syms g]. cbn.
      apply Forall_updateAt; auto. }
    destruct (nth_error (spinCalls w2) (tw_spin tw)) as [c|]; auto.
    destruct (Nat.eqb _ _); auto.
    destruct (resolve_shape (tw_spin tw) w2) as (R1 & _). now rewrite R1.
Qed.

Lemma runCallbacks_noActiveTween (clock : nat -> Z) :
  forall (cbs : list tween) (i : nat) (w : world),
    noActiveTween w -> noActiveTween (runCallbacks clock i cbs w).
Proof.
  induction cbs as [|tw rest IH]; intros i w H; simpl; auto.
  apply IH. now apply animate_noActiveTween.
Qed.

Lemma step_noActiveTween (e : event) (w : world) :
  noActiveTween w -> noActiveTween (step w e).
Proof.
  intro H. destruct e as [clock | forceWin clock]; simpl.
  - unfold frame. apply runCallbacks_noActiveTween.
    apply ticker_noActiveTween in H. exact H.
  - unfold startSpin.
    destruct (spinning w); auto.
    destruct (balance w <? SPIN_COST); auto.
    destruct (chooseResults forceWin _ _) as [results g].
    rewrite startReelSpin_world. unfold noActiveTween. cbn.
    apply Forall_map. apply Forall_forall. reflexivity.
Qed.

(** In every world reached from the initial one, through any frames
    and spin requests, every reel's [spinTween] is falsy: the field is
    only ever assigned [null] or the [undefined] that [tweenTo]
    evaluates to. *)
Lemma reachable_noActiveTween (draws : nat -> nat) (trace : list event) :
  noActiveTween (run trace (initSlotGame (initialWorld draws))).
Proof.
  assert (H0 : noActiveTween (initSlotGame (initialWorld draws))).
  { unfold noActiveTween, initSlotGame, initReelManager.
    cbn [set__slotTextures _slotTextures rand set_slotTextures slotTextures
         initialWorld reels app].
    generalize (mkRandom draws 0). generalize (map Tex symbolImagePaths).
    intros textures g.
    assert (G : forall n g, Forall (fun r => truthy (spinTween r) = false)
                                   (fst (newReels textures n g))).
    { induction n as [|n IH]; intro g0; cbn [newReels]; [constructor|].
      destruct (newSymbols textures 0 NUM_SYMBOLS_PER_REEL_STRIP g0) as [syms g1].
      specialize (IH g1). destruct (newReels textures n g1) as [rest g2].
      constructor; auto. }
    specialize (G 3%nat g). destruct (newReels textures 3 g) as [rs g']. exact G. }
  revert H0. generalize (initSlotGame (initialWorld draws)).
  unfold run. induction trace as [|e trace IH]; intros w H; simpl; auto.
  apply IH. now apply step_noActiveTween.
Qed.

(* ================================================================== *)
(** ** Regular play never changes a texture *)

Lemma textures_updateAt (i : nat) (f : reel -> reel) (l : list reel) :
  (forall r, symbols (f r) = symbols r) ->
  map (fun r => map sym_texture (symbols r)) (updateAt i f l)
  = map (fun r => map sym_texture (symbols r)) l.
Proof.
  intro Hf. revert i. induction l as [|r l IH]; intros [|i]; simpl;
    try reflexivity.
  - now rewrite Hf.
  - now rewrite IH.
Qed.

Lemma animate_regular_textures (tw : tween) (now : Z) (w : world) :
  tw_forceWin tw = false ->
  allTextures (animate tw now w) = allTextures w.
Proof.
  intro Hr. unfold allTextures, animate.
  destruct (now <? _).
  - cbn. now apply textures_updateAt.
  - unfold onComplete. rewrite Hr.
    set (w1 := set_reels _ (set_spinCalls _ (set_reels _ w))).
    assert (H1 : map (fun r => map sym_texture (symbols r)) (reels w1)
                 = map (fun r => map sym_texture (symbols r)) (reels w)).
    { unfold w1. cbn. now repeat rewrite textures_updateAt. }
    destruct (nth_error (spinCalls w1) (tw_spin tw)) as [c|]; auto.
    destruct (Nat.eqb _ _); auto.
    destruct (resolve_shape (tw_spin tw) w1) as (R1 & _). now rewrite R1.
Qed.

Lemma runCallbacks_regular (clock : nat -> Z) :
  forall (cbs : list tween) (i : nat) (w : world),
    Forall (fun tw => tw_forceWin tw = false) (cbs ++ rafQueue w) ->
    allTextures (runCallbacks clock i cbs w) = allTextures w /\
    Forall (fun tw => tw_forceWin tw = false)
           (rafQueue (runCallbacks clock i cbs w)).
Proof.
  induction cbs as [|tw rest IH]; intros i w H; simpl; [auto|].
  simpl in H. pose proof (Forall_inv H) as Htw.
  pose proof (Forall_inv_tail H) as Hrest.
  destruct (IH (S i) (animate tw (clock i) w)) as (H1 & H2).
  - destruct (animate_shape tw (clock i) w) as (_ & [(_ & Hq & _) | (_ & Hq & _)]);
      rewrite Hq; [|exact Hrest].
    rewrite app_assoc. apply Forall_app. split; [exact Hrest|].
    constructor; [exact Htw | constructor].
  - split; [|exact H2]. rewrite H1. now apply animate_regular_textures.
Qed.

Lemma spinTweensFrom_forceWin k results forceWin clock a rs :
  Forall (fun tw => tw_forceWin tw = forceWin)
         (spinTweensFrom k results forceWin clock a rs).
Proof.
  revert a. induction rs as [|r rs IH]; intro a; simpl; constructor; auto.
Qed.

Lemma step_regular (e : event) (w : world) :
  regularOnly [e] ->
  noActiveTween w ->
  Forall (fun tw => tw_forceWin tw = false) (rafQueue w) ->
  allTextures (step w e) = allTextures w /\
  Forall (fun tw => tw_forceWin tw = false) (rafQueue (step w e)).
Proof.
  intros He Hn Hq. apply Forall_inv in He.
  destruct e as [clock | forceWin clock]; simpl.
  - unfold frame.
    destruct (ticker_keeps_textures w Hn) as (T1 & _).
    destruct (ticker_shape w) as (_ & _ & T2 & _).
    destruct (runCallbacks_regular clock (rafQueue (ticker w)) 0
                (set_rafQueue [] (ticker w))) as (H1 & H2).
    + cbn. now rewrite app_nil_r, T2.
    + split; [|exact H2]. rewrite H1. exact T1.
  - subst forceWin. unfold startSpin.
    destruct (spinning w); [auto|].
    destruct (balance w <? SPIN_COST); [auto|].
    destruct (chooseResults false _ _) as [results g].
    rewrite startReelSpin_world. unfold allTextures.
    cbn [reels rafQueue spinCalls set_spinCalls set_rafQueue set_reels
         set_rand emit set_spinning set_balance].
    split.
    + rewrite map_map. reflexivity.
    + apply Forall_app. split; [exact Hq | apply spinTweensFrom_forceWin].
Qed.

(** With regular spins only, after any frames and spin requests every
    symbol of every reel still carries the texture it was created
    with: the ticker never redraws one, and only the forced-win branch
    of [onComplete] writes textures. *)
Lemma regular_play_keeps_textures (draws : nat -> nat) (trace : list event) :
  regularOnly trace ->
  allTextures (run trace (initSlotGame (initialWorld draws)))
  = allTextures (initSlotGame (initialWorld draws)).
Proof.
  intro Hreg.
  assert (G : forall (done : list event) (w : world),
             w = run done (initSlotGame (initialWorld draws)) ->
             Forall (fun tw => tw_forceWin tw = false) (rafQueue w) ->
             allTextures (run trace w) = allTextures w).
  { induction Hreg as [|e trace He Hreg IH]; intros done w Hw Hq;
      [reflexivity|].
    assert (Hn : noActiveTween w)
      by (rewrite Hw; apply reachable_noActiveTween).
    destruct (step_regular e w (Forall_cons e He (Forall_nil _)) Hn Hq)
      as (H1 & H2).
    change (run (e :: trace) w) with (run trace (step w e)).
    rewrite (IH (done ++ [e]) (step w e)); [exact H1| |exact H2].
    rewrite Hw. unfold run. now rewrite fold_left_app. }
  apply (G [] _ eq_refl).
  unfold initSlotGame, initReelManager.
  destruct (newReels _ 3 _) as [rs g]. constructor.
Qed.

Lemma middleSymbolTexture_In (l : list symbol) (t : Texture) :
  middleSymbolTexture l = Some t -> In t (map sym_texture l).
Proof.
  induction l as [|s l IH]; simpl; [discriminate|].
  destruct (nltb _ tolerance).
  - intro H. injection H as <-. now left.
  - intro H. right. now apply IH.
Qed.

(** Hence, in regular play, whatever the win line of reel [i] shows is
    one of the textures reel [i] was created with; the requested
    indices play no part in it. *)
Lemma regular_play_sample (draws : nat -> nat) (trace : list event)
      (i : nat) (t : Texture) :
  regularOnly trace ->
  nth_error (getVisibleTexturesAtWinLine
               (run trace (initSlotGame (initialWorld draws)))) i
  = Some (Some t) ->
  exists ts : list Texture,
    nth_error (allTextures (initSlotGame (initialWorld draws))) i = Some ts /\
    In t ts.
Proof.
  intros Hreg Hs.
  rewrite <- (regular_play_keeps_textures draws trace Hreg).
  unfold getVisibleTexturesAtWinLine in Hs. unfold allTextures.
  rewrite nth_error_map in *.
  destruct (nth_error (reels _) i) as [r|]; simpl in *; [|discriminate].
  injection Hs as Hs. eexists. split; [reflexivity|].
  now apply middleSymbolTexture_In.
Qed.

(* ================================================================== *)
(** ** A regular spin, frame by frame *)

Ltac by_computation := vm_compute; reflexivity.

Example afterInit_textures :
  allTextures afterInit
  = repeat [Tex 1; Tex 2; Tex 3; Tex 4; Tex 0;
            Tex 1; Tex 2; Tex 3; Tex 4; Tex 0] 3 /\
  slotTextures afterInit = [Tex 0; Tex 1; Tex 2; Tex 3; Tex 4].
Proof. split; by_computation. Qed.

Example spinStarted_results :
  map tw_results (rafQueue spinStarted) = repeat [1; 2; 3]%nat 3 /\
  map tw_target (rafQueue spinStarted) = [Num 10000; Num 11800; Num 11600].
Proof. split; by_computation. Qed.

(** C1 (code defect).  Regular spin with requested symbols coconut,
    kiwi, avocado (indices 1, 2, 3) on reels whose strip slots 1, 2, 3
    carry kiwi, avocado, corn; frames every 16 ms until all three
    tweens have completed.  The win line reads kiwi, avocado, corn:
    each reel stops with strip slot [results[i]] on the win line, and
    the texture of that slot is not the requested one.  Three more
    frames change nothing. *)
Theorem center_symbol_is_not_the_requested_one :
  map tw_results (rafQueue spinStarted) = repeat [1; 2; 3]%nat 3 /\
  rafQueue spinDone = [] /\
  spinCalls spinDone = [mkSpinCall 3 1 true] /\
  getVisibleTexturesAtWinLine spinDone
    = [Some (Tex 2); Some (Tex 3); Some (Tex 4)] /\
  map (fun t => Some (textureAt (slotTextures spinDone) t)) [1; 2; 3]%nat
    = [Some (Tex 1); Some (Tex 2); Some (Tex 3)] /\
  getVisibleTexturesAtWinLine (run (frames16 3) spinDone)
    = [Some (Tex 2); Some (Tex 3); Some (Tex 4)] /\
  allTextures spinDone = allTextures afterInit.
Proof. vm_compute. repeat split; reflexivity. Qed.

(** C3 (code defect).  Two frames into the same spin all three tweens
    are animating.  In the next ticker call the second symbol of the
    first reel, at offset 577.4..., moves by the scroll delta 272.3...
    past the bottom edge and is taken back by one strip height; its
    texture stays kiwi and no random number is drawn, although the
    next draw would have given corn. *)
Theorem wrapped_symbol_not_redrawn_during_spin :
  map tw_index (rafQueue midSpin) = [0; 1; 2]%nat /\
  option_map (fun r => nsub (position r) (previousPosition r))
             (nth_error (reels midSpin) 0)
    = Some (Num (851168 # 3125)) /\
  symbolAt midSpin 0 1 = Some (mkSymbol (Num (1804524 # 3125)) (Tex 2)) /\
  symbolAt (ticker midSpin) 0 1
    = Some (mkSymbol (Num (-3594308 # 3125)) (Tex 2)) /\
  nsub (nadd (Num (1804524 # 3125)) (Num (851168 # 3125))) totalStripHeight
    = Num (-3594308 # 3125) /\
  rand (ticker midSpin) = rand midSpin /\
  fst (randomTexture (_slotTextures midSpin) (rand midSpin)) = Tex 4.
Proof.
  split; [by_computation|].
  split; [by_computation|].
  split; [by_computation|].
  split; [by_computation|].
  split; [by_computation|].
  split; by_computation.
Qed.

(** C4 (code defect).  During the spin every reel has a tween in the
    animation-frame queue, yet its [spinTween] field holds [undefined],
    what the [tweenTo] call evaluated to; after completion it holds
    [null].  The field is never truthy. *)
Theorem spinTween_absent_while_animating :
  map tw_index (rafQueue spinStarted) = [0; 1; 2]%nat /\
  map spinTween (reels spinStarted) = [JsUndefined; JsUndefined; JsUndefined] /\
  map tw_index (rafQueue midSpin) = [0; 1; 2]%nat /\
  map spinTween (reels midSpin) = [JsUndefined; JsUndefined; JsUndefined] /\
  existsb (fun r => truthy (spinTween r)) (reels midSpin) = false /\
  rafQueue spinDone = [] /\
  map spinTween (reels spinDone) = [JsNull; JsNull; JsNull].
Proof. vm_compute. repeat split; reflexivity. Qed.

(* ================================================================== *)
(** ** Unresolvable centre and mismatching target list *)

Lemma allMatch_missing (sample : list (option Texture)) :
  In None sample -> allMatch sample = false.
Proof.
  intro H. destruct (allMatch sample) eqn:E; [|reflexivity].
  apply allMatch_iff in E. unfold isWin in E. rewrite Forall_forall in E.
  destruct (E None H) as [Hn _]. now elim Hn.
Qed.

(** C9, as stated, fails.  With late frames each spin completes in one
    frame.  The first is evaluated before any symbol has moved (kiwi
    on every win line, a win).  The second completes while the symbols
    are still far from the window: no reel has a symbol within
    tolerance of the win line, the sampler returns [null] three times,
    and [checkWin] reports an ordinary loss. *)
Lemma unresolvable_center_reported_as_loss :
  getVisibleTexturesAtWinLine lateFrames = [None; None; None] /\
  checkWin lateFrames = emit (ShowWinLossMessage "AZAR!" false) lateFrames /\
  ui lateFrames
  = [UpdateBalanceDisplay 1000;
     UpdateBalanceDisplay 900; SetSpinButtonsEnabled false; HideWinLossMessage;
     UpdateBalanceDisplay 1400; ShowWinLossMessage "GANHASTE 500!" true;
     TriggerFireworksSequence; SetSpinButtonsEnabled true;
     UpdateBalanceDisplay 1300; SetSpinButtonsEnabled false; HideWinLossMessage;
     ShowWinLossMessage "AZAR!" false; SetSpinButtonsEnabled true] /\
  spinning lateFrames = false /\
  rafQueue lateFrames = [].
Proof. vm_compute. repeat split; reflexivity. Qed.

(** C9, amended.  An unresolvable centre symbol is sampled as [null]
    and makes [checkWin] report the ordinary loss, with no payout.  The
    target list is not compared with the reel list: [startReelSpin]
    starts one tween per reel whatever the length of [results], and a
    reel without an entry gets the scroll target [NaN]. *)
Theorem unresolvable_center_is_a_loss :
  (forall w : world,
      centerUnresolvable w ->
      checkWin w = emit (ShowWinLossMessage "AZAR!" false) w) /\
  (forall (w : world) (results : list nat) (forceWin : bool)
          (clock : nat -> Z) (index : nat) (r : reel),
      nth_error (reels w) index = Some r ->
      exists tw : tween,
        nth_error (rafQueue (snd (startReelSpin results forceWin clock w)))
                  (length (rafQueue w) + index) = Some tw /\
        tw_index tw = index /\
        ((length results <= index)%nat -> tw_target tw = NaN)).
Proof.
  split.
  - intros w H. unfold checkWin.
    now rewrite (allMatch_missing _ H).
  - intros w results forceWin clock index r Hr.
    rewrite startReelSpin_world. cbn [snd rafQueue set_rafQueue].
    rewrite nth_error_app2 by lia.
    replace (length (rafQueue w) + index - length (rafQueue w))%nat
      with index by lia.
    rewrite (spinTweensFrom_nth _ _ _ _ _ _ _ _ Hr).
    eexists. split; [reflexivity|]. split; [reflexivity|].
    cbn [tw_target]. apply targetPosition_missing_result.
Qed.

Lemma unresolvable_center_is_a_loss_witness :
  centerUnresolvable lateFrames /\
  checkWin lateFrames = emit (ShowWinLossMessage "AZAR!" false) lateFrames.
Proof.
  assert (H : centerUnresolvable lateFrames) by (vm_compute; auto).
  split; [exact H|].
  exact (proj1 unresolvable_center_is_a_loss lateFrames H).
Defined.

(* ================================================================== *)
(** ** Instances *)

Lemma startSpin_insufficient_funds_witness :
  spinning lowBalance = false /\
  balance lowBalance < SPIN_COST /\
  ui (startSpin false (fun _ => 0) lowBalance)
  = ui lowBalance ++ [ShowGameMessage "Saldo insuficiente para girar!"] /\
  balance (startSpin false (fun _ => 0) lowBalance) = balance lowBalance /\
  spinning (startSpin false (fun _ => 0) lowBalance) = false.
Proof.
  assert (H1 : spinning lowBalance = false) by by_computation.
  assert (H2 : balance lowBalance < SPIN_COST) by by_computation.
  destruct (startSpin_insufficient_funds lowBalance false (fun _ => 0) H1 H2)
    as (U & B & S & _).
  split; [exact H1|]. split; [exact H2|]. split; [exact U|].
  split; [exact B | exact S].
Defined.

Lemma startSpin_while_spinning_witness :
  spinning spinStarted = true /\
  startSpin true (fun _ => 16) spinStarted = spinStarted.
Proof.
  assert (H : spinning spinStarted = true) by by_computation.
  split; [exact H|].
  exact (startSpin_while_spinning spinStarted true (fun _ => 16) H).
Defined.

Lemma aggregate_completion_once_witness :
  reels afterInit <> [] /\
  queueWellFormed afterInit /\
  spinning afterInit = false /\
  SPIN_COST <= balance afterInit /\
  completesOnce 3 0 (run (frames16 188) (startSpin false (fun _ => 0) afterInit)) /\
  resolvedCount 0 (run (frames16 188) (startSpin false (fun _ => 0) afterInit))
  = 1%nat.
Proof.
  assert (H1 : reels afterInit <> []) by (vm_compute; discriminate).
  assert (H2 : queueWellFormed afterInit) by (vm_compute; constructor).
  assert (H3 : spinning afterInit = false) by by_computation.
  assert (H4 : SPIN_COST <= balance afterInit) by (vm_compute; discriminate).
  split; [exact H1|]. split; [exact H2|]. split; [exact H3|].
  split; [exact H4|].
  pose proof (proj2 (aggregate_completion_once afterInit [] false
                       (fun _ => 0) (frames16 188) H1 H2) H3 H4) as H.
  change (length (reels afterInit)) with 3%nat in H.
  change (length (spinCalls afterInit)) with 0%nat in H.
  split; [exact H|].
  destruct H as (_ & _ & Hiff & _). apply Hiff. by_computation.
Defined.

(* ================================================================== *)
(** ** Proving a property of every reachable world *)

Section ReachableInvariant.

(** A property of a world and of the callbacks that have not completed
    yet in the current frame. *)
Variable I : list tween -> world -> Prop.

Hypothesis I_init : forall draws, I [] (initSlotGame (initialWorld draws)).
Hypothesis I_ticker : forall w, I (rafQueue w) w -> I (rafQueue w) (ticker w).
Hypothesis I_clear : forall Q w, I Q w -> I Q (set_rafQueue [] w).
Hypothesis I_animate :
  forall tw rest now w,
    I ((tw :: rest) ++ rafQueue w) w ->
    I (rest ++ rafQueue (animate tw now w)) (animate tw now w).
Hypothesis I_startSpin :
  forall forceWin clock w,
    I (rafQueue w) w ->
    I (rafQueue (startSpin forceWin clock w)) (startSpin forceWin clock w).

Lemma runCallbacks_invariant (clock : nat -> Z) :
  forall (cbs : list tween) (i : nat) (w : world),
    I (cbs ++ rafQueue w) w ->
    I (rafQueue (runCallbacks clock i cbs w)) (runCallbacks clock i cbs w).
Proof.
  induction cbs as [|tw rest IH]; intros i w H; simpl.
  - exact H.
  - apply IH. now apply I_animate.
Qed.

Lemma step_invariant (e : event) (w : world) :
  I (rafQueue w) w -> I (rafQueue (step w e)) (step w e).
Proof.
  intro H. destruct e as [clock | forceWin clock]; simpl.
  - unfold frame. apply runCallbacks_invariant.
    cbn [rafQueue set_rafQueue]. rewrite app_nil_r.
    apply I_clear.
    destruct (ticker_shape w) as (_ & _ & T & _).
    rewrite T. now apply I_ticker.
  - now apply I_startSpin.
Qed.

Lemma reachable_invariant (draws : nat -> nat) (trace : list event) :
  I (rafQueue (run trace (initSlotGame (initialWorld draws))))
    (run trace (initSlotGame (initialWorld draws))).
Proof.
  assert (H0 : I (rafQueue (initSlotGame (initialWorld draws)))
                 (initSlotGame (initialWorld draws))).
  { replace (rafQueue (initSlotGame (initialWorld draws))) with (@nil tween).
    - apply I_init.
    - unfold initSlotGame, initReelManager.
      destruct (newReels _ 3 _) as [rs g]. reflexivity. }
  revert H0. generalize (initSlotGame (initialWorld draws)).
  unfold run. induction trace as [|e trace IH]; intros w H; simpl; auto.
  apply IH. now apply step_invariant.
Qed.

End ReachableInvariant.

(* ================================================================== *)
(** ** What a callback does to the session *)

Lemma ticker_session (w : world) :
  balance (ticker w) = balance w /\
  spinning (ticker w) = spinning w /\
  ui (ticker w) = ui w.
Proof.
  unfold ticker. destruct (tickReels _ _ _) as [rs g]. cbn. auto.
Qed.

Lemma checkWin_cases (w : world) :
  spinning (checkWin w) = spinning w /\
  ((balance (checkWin w) = balance w + winAmount /\
    ui (checkWin w)
    = ui w ++ [UpdateBalanceDisplay (balance w + winAmount);
               ShowWinLossMessage "GANHASTE 500!" true;
               TriggerFireworksSequence])
   \/
   (balance (checkWin w) = balance w /\
    ui (checkWin w) = ui w ++ [ShowWinLossMessage "AZAR!" false])).
Proof.
  unfold checkWin. destruct (allMatch _); cbn.
  - split; [reflexivity|]. left. split; [reflexivity|].
    repeat rewrite <- app_assoc. reflexivity.
  - split; [reflexivity|]. right. auto.
Qed.

(** The session fields after one [animate] callback: unchanged unless
    the callback completes the last tween of an awaited spin, in which
    case the session is idle again and [checkWin] has run once. *)
Lemma animate_session (tw : tween) (now : Z) (w : world) :
  let fired := negb (now <? endTime tw) && firesContinuation tw w in
  spinning (animate tw now w) = (if fired then false else spinning w) /\
  (fired = false ->
   balance (animate tw now w) = balance w /\ ui (animate tw now w) = ui w) /\
  (fired = true ->
   (balance (animate tw now w) = balance w + winAmount /\
    ui (animate tw now w)
    = ui w ++ [UpdateBalanceDisplay (balance w + winAmount);
               ShowWinLossMessage "GANHASTE 500!" true;
               TriggerFireworksSequence;
               SetSpinButtonsEnabled true])
   \/
   (balance (animate tw now w) = balance w /\
    ui (animate tw now w)
    = ui w ++ [ShowWinLossMessage "AZAR!" false;
               SetSpinButtonsEnabled true])).
Proof.
  cbv zeta. unfold animate, endTime, firesContinuation.
  destruct (now <? tw_startTime tw + tw_time tw); cbn [negb andb].
  - cbn. repeat split; auto; discriminate.
  - unfold onComplete.
    set (w0 := set_reels (updateAt (tw_index tw) (set_position (tw_target tw))
                                   (reels w)) w).
    set (w1 := set_reels _ (set_spinCalls _ w0)).
    set (w2 := if tw_forceWin tw then _ else w1).
    assert (H2 : length (reels w2) = length (reels w) /\
                 spinCalls w2 = updateAt (tw_spin tw) incrStopped (spinCalls w) /\
                 balance w2 = balance w /\ spinning w2 = spinning w /\
                 ui w2 = ui w).
    { unfold w2. destruct (tw_forceWin tw).
      - destruct (nth_error (reels w1) (tw_index tw)) as [r|].
        + destruct (forceWinAdjust _ _ _ _ _) as [syms g]. cbn.
          repeat rewrite length_updateAt. auto.
        + cbn. repeat rewrite length_updateAt. auto.
      - cbn. repeat rewrite length_updateAt. auto. }
    destruct H2 as (L2 & S2 & B2 & P2 & U2).
    rewrite S2, L2, nth_error_updateAt_same.
    destruct (nth_error (spinCalls w) (tw_spin tw)) as [c|] eqn:Ec;
      cbn [option_map incrStopped reelsStopping].
    + destruct (Nat.eqb (S (reelsStopping c)) (length (reels w))) eqn:En;
        cbn [andb].
      * unfold resolve. rewrite S2, nth_error_updateAt_same, Ec.
        cbn [option_map incrStopped resolved awaited].
        destruct (Nat.eqb (resolved c) 0 && awaited c) eqn:Ef.
        -- unfold afterReelsStop.
           set (w3 := set_spinning false _).
           destruct (checkWin_cases w3) as (Hsp & [(Hb & Hu) | (Hb & Hu)]).
           ++ split; [cbn [spinning emit]; rewrite Hsp; reflexivity|].
              split; [discriminate|]. intros _. left.
              cbn [balance ui emit]. rewrite Hb, Hu. unfold w3. cbn.
              rewrite B2, U2. split; [reflexivity|].
              rewrite <- app_assoc. reflexivity.
           ++ split; [cbn [spinning emit]; rewrite Hsp; reflexivity|].
              split; [discriminate|]. intros _. right.
              cbn [balance ui emit]. rewrite Hb, Hu. unfold w3. cbn.
              rewrite B2, U2. split; [reflexivity|].
              rewrite <- app_assoc. reflexivity.
        -- cbn. rewrite B2, P2, U2. repeat split; auto; discriminate.
      * rewrite B2, P2, U2. repeat split; auto; discriminate.
    + rewrite B2, P2, U2. repeat split; auto; discriminate.
Qed.

Lemma chooseResults_length (forceWin : bool) (len : nat) (g : random) :
  length (fst (chooseResults forceWin len g)) = 3%nat.
Proof.
  unfold chooseResults. destruct forceWin; reflexivity.
Qed.

(** The three outcomes of a spin request. *)
Lemma startSpin_cases (forceWin : bool) (clock : nat -> Z) (w : world) :
  let w' := startSpin forceWin clock w in
  (spinning w = true /\ w' = w)
  \/
  (spinning w = false /\ balance w < SPIN_COST /\
   w' = emit (ShowGameMessage "Saldo insuficiente para girar!") w)
  \/
  (spinning w = false /\ SPIN_COST <= balance w /\
   spinning w' = true /\
   balance w' = balance w - SPIN_COST /\
   ui w' = ui w ++ [UpdateBalanceDisplay (balance w - SPIN_COST);
                    SetSpinButtonsEnabled false; HideWinLossMessage] /\
   reels w' = map (set_spinTween JsUndefined) (reels w) /\
   spinCalls w' = spinCalls w ++ [mkSpinCall 0 0 true] /\
   rafQueue w'
   = rafQueue w ++
     spinTweensFrom (length (spinCalls w))
       (fst (chooseResults forceWin (length (slotTextures w)) (rand w)))
       forceWin clock 0 (reels w)).
Proof.
  cbv zeta. unfold startSpin.
  destruct (spinning w) eqn:Es; [left; auto | right].
  destruct (balance w <? SPIN_COST) eqn:Eb.
  - left. apply Z.ltb_lt in Eb. auto.
  - right. apply Z.ltb_ge in Eb.
    destruct (chooseResults forceWin _ _) as [results g].
    rewrite startReelSpin_world.
    cbn [reels rafQueue spinCalls set_spinCalls set_rafQueue set_reels
         set_rand emit set_spinning set_balance balance spinning ui fst].
    repeat (split; [solve [auto] |]).
    split.
    + repeat rewrite <- app_assoc. reflexivity.
    + split; [reflexivity|]. split; [|reflexivity].
      clear. induction (spinCalls w) as [|c l IH]; simpl; [reflexivity|].
      now rewrite IH.
Qed.

(* ================================================================== *)
(** ** The ledger *)

Lemma displayedBalance_app (l l' : list uiEvent) :
  displayedBalance (l ++ l')
  = fold_left (fun acc e => match e with
                            | UpdateBalanceDisplay b => Some b
                            | _ => acc
                            end) l' (displayedBalance l).
Proof. unfold displayedBalance. apply fold_left_app. Qed.

Lemma buttonsEnabled_app (l l' : list uiEvent) :
  buttonsEnabled (l ++ l')
  = fold_left (fun acc e => match e with
                            | SetSpinButtonsEnabled b => b
                            | _ => acc
                            end) l' (buttonsEnabled l).
Proof. unfold buttonsEnabled. apply fold_left_app. Qed.

Lemma spinsAccepted_app (l l' : list uiEvent) :
  spinsAccepted (l ++ l') = spinsAccepted l + spinsAccepted l'.
Proof.
  unfold spinsAccepted. rewrite filter_app, length_app. lia.
Qed.

Lemma winsPaid_app (l l' : list uiEvent) :
  winsPaid (l ++ l') = winsPaid l + winsPaid l'.
Proof.
  unfold winsPaid. rewrite filter_app, length_app. lia.
Qed.

Ltac ledger_arith w :=
  rewrite ?spinsAccepted_app, ?winsPaid_app, ?displayedBalance_app,
    ?buttonsEnabled_app;
  unfold spinsAccepted, winsPaid, SPIN_COST, winAmount in *;
  cbn [fold_left filter isHide isFireworks length];
  change (Z.of_nat 0) with 0; change (Z.of_nat 1) with 1;
  generalize dependent (Z.of_nat (length (filter isHide (ui w))));
  generalize dependent (Z.of_nat (length (filter isFireworks (ui w))));
  intros; repeat split; try reflexivity; try assumption; try lia.

Lemma ledger_reachable (draws : nat -> nat) (trace : list event) :
  ledger (run trace (initSlotGame (initialWorld draws))).
Proof.
  apply (reachable_invariant (fun _ w => ledger w)).
  - (* initSlotGame *)
    intro d. unfold initSlotGame, initReelManager.
    destruct (newReels _ 3 _) as [rs g]. unfold ledger. cbn.
    repeat split; try reflexivity. lia.
  - (* ticker *)
    intros w (H1 & H2 & H3 & H4).
    destruct (ticker_session w) as (B & S & U).
    unfold ledger. rewrite B, S, U. auto.
  - (* clearing the queue *)
    intros Q w H. exact H.
  - (* animate *)
    intros tw rest now w (H1 & H2 & H3 & H4).
    destruct (animate_session tw now w) as (S & Hn & Hf).
    unfold ledger.
    destruct (negb (now <? endTime tw) && firesContinuation tw w).
    + rewrite S.
      destruct (Hf eq_refl) as [(B & U) | (B & U)]; rewrite B, U;
        ledger_arith w.
    + rewrite S. destruct (Hn eq_refl) as (B & U). rewrite B, U. auto.
  - (* startSpin *)
    intros forceWin clock w (H1 & H2 & H3 & H4).
    destruct (startSpin_cases forceWin clock w)
      as [(Hs & ->) | [(Hs & Hb & ->) | (Hs & Hb & S & B & U & _)]].
    + unfold ledger. auto.
    + unfold ledger. cbn [balance ui spinning emit]. ledger_arith w.
    + unfold ledger. rewrite S, B, U. ledger_arith w.
Qed.

(* ================================================================== *)
(** ** The session invariant *)

Lemma completeCalls_last (calls : list spinCall) (c : spinCall) (n : nat) :
  completeCalls (length calls) n (calls ++ [c])
  = calls ++ [if Nat.eqb (S (reelsStopping c)) n
              then incrResolved (incrStopped c) else incrStopped c].
Proof.
  unfold completeCalls. rewrite updateAt_middle, nth_error_middle.
  cbn [incrStopped reelsStopping].
  destruct (Nat.eqb (S (reelsStopping c)) n); [|reflexivity].
  now rewrite updateAt_middle.
Qed.

Lemma spinTweensFrom_index k results forceWin clock a rs :
  map tw_index (spinTweensFrom k results forceWin clock a rs)
  = seq a (length rs).
Proof.
  revert a. induction rs as [|r rs IH]; intro a; simpl; [reflexivity|].
  now rewrite IH.
Qed.

Lemma session_reachable (draws : nat -> nat) (trace : list event) :
  session (rafQueue (run trace (initSlotGame (initialWorld draws))))
          (run trace (initSlotGame (initialWorld draws))).
Proof.
  apply (reachable_invariant session).
  - (* initSlotGame *)
    intro d.
    pose proof (reachable_wellFormed d []) as H3.
    cbv zeta in H3. unfold run in H3. cbn [fold_left] in H3.
    split; [exact (proj2 H3)|].
    unfold initSlotGame, initReelManager.
    destruct (newReels _ 3 _) as [rs g]. cbn. split; constructor.
  - (* ticker *)
    intros w (Hn & H).
    destruct (ticker_shape w) as (T1 & _ & _ & T3).
    destruct (ticker_session w) as (_ & S & _).
    unfold session. rewrite T1, S, T3. auto.
  - (* clearing the queue *)
    intros Q w H. exact H.
  - (* animate *)
    intros tw rest now w (Hn & H).
    destruct (spinning w) eqn:Es; [|destruct H as (H & _); discriminate].
    destruct H as (calls & c & Hc & Hdone & Haw & Hres & Hsum & _ & Hown & Hnd).
    pose proof (Forall_inv Hown) as Htw. simpl in Htw.
    pose proof (Forall_inv_tail Hown) as Hrest.
    assert (Hfire : firesContinuation tw w = Nat.eqb (S (reelsStopping c)) 3).
    { unfold firesContinuation.
      rewrite Htw, Hc, nth_error_middle, Hn, Hres, Haw.
      cbn [Nat.eqb]. now rewrite !andb_true_r. }
    destruct (animate_session tw now w) as (Hsp & _).
    destruct (animate_shape tw now w) as (Hlen & [(Hlt & Hq & Hs) | (Hge & Hq & Hs)]).
    + (* the tween continues *)
      apply Z.ltb_lt in Hlt. rewrite Hlt in Hsp. cbn in Hsp.
      split; [congruence|]. rewrite Hsp, Es, Hq, Hs.
      exists calls, c. repeat split; auto.
      * rewrite <- Hsum. simpl. repeat rewrite length_app. simpl. lia.
      * destruct rest; [destruct (rafQueue w)|]; discriminate.
      * rewrite app_assoc. apply Forall_app. split; [exact Hrest|].
        constructor; [exact Htw | constructor].
      * simpl in Hnd. rewrite app_assoc, map_app. simpl.
        apply (Permutation_NoDup (l := tw_index tw :: map tw_index (rest ++ rafQueue w)));
          [|exact Hnd].
        apply Permutation_cons_append.
    + (* the tween completes *)
      apply Z.ltb_ge in Hge. rewrite Hge in Hsp. cbn [negb andb] in Hsp.
      rewrite Hfire in Hsp.
      split; [congruence|]. rewrite Hsp, Es, Hq, Hs, Htw, Hc, Hn.
      rewrite completeCalls_last.
      simpl in Hsum.
      destruct (Nat.eqb (S (reelsStopping c)) 3) eqn:E.
      * apply Nat.eqb_eq in E. split.
        -- destruct (rest ++ rafQueue w); [reflexivity | simpl in Hsum; lia].
        -- apply Forall_app. split; [exact Hdone|].
           constructor; [|constructor].
           unfold callDone. cbn. rewrite Hres, Haw. auto.
      * apply Nat.eqb_neq in E.
        exists calls, (incrStopped c). cbn.
        repeat split; auto; try lia.
        -- intro Hnil. rewrite Hnil in Hsum. simpl in Hsum. lia.
        -- simpl in Hnd. now inversion Hnd.
  - (* startSpin *)
    intros forceWin clock w (Hn & H).
    destruct (startSpin_cases forceWin clock w)
      as [(Hs & ->) | [(Hs & Hb & ->) | (Hs & Hb & Hsp & B & U & R & C & Q)]].
    + split; assumption.
    + split; [exact Hn|]. cbn [spinning emit]. exact H.
    + rewrite Hs in H. destruct H as (Hq & Hdone).
      split; [rewrite R; now rewrite length_map|].
      rewrite Hsp, Q, C, Hq. cbn [app].
      exists (spinCalls w), (mkSpinCall 0 0 true). cbn.
      rewrite spinTweensFrom_length, Hn.
      repeat split; auto.
      * destruct (reels w); [discriminate | discriminate].
      * apply spinTweensFrom_spin.
      * rewrite spinTweensFrom_index. apply seq_NoDup.
Qed.

(* ================================================================== *)
(** ** Numbers on the strip *)

Lemma half_cell : ndiv CELL_HEIGHT (Num 2) = Num 100.
Proof. reflexivity. Qed.

Lemma window_height : nmul CELL_HEIGHT (ofNat NUM_VISIBLE_SYMBOLS) = Num 600.
Proof. reflexivity. Qed.

Lemma initialOffset_value (j : nat) :
  exists q : Q, initialOffset j = Num q /\
                (q == 200 * inject_Z (Z.of_nat j) + 100)%Q.
Proof.
  unfold initialOffset. rewrite half_cell.
  unfold ofNat, ofZ, CELL_HEIGHT. cbn [nmul nadd].
  eexists. split; [reflexivity|].
  repeat rewrite Qred_correct. ring.
Qed.

(** [onStrip] in rational terms. *)
Lemma onStrip_iff (j : nat) (pp : Q) (y : num) :
  onStrip j (Num pp) y <->
  exists (yq : Q) (k : Z),
    y = Num yq /\
    (yq == 200 * inject_Z (Z.of_nat j) + 100 + pp + 2000 * inject_Z k)%Q.
Proof.
  unfold onStrip, congruentModStrip, finite.
  destruct (initialOffset_value j) as (o & Ho & Eo). rewrite Ho.
  rewrite totalStripHeight_val. unfold ofZ. cbn [nadd nmul].
  split.
  - intros ((yq & ->) & k & Hk). exists yq, k. split; [reflexivity|].
    cbn [num_eq] in Hk. rewrite Hk. repeat rewrite Qred_correct.
    rewrite Eo. ring.
  - intros (yq & k & -> & Hk). split; [now exists yq|].
    exists k. cbn [num_eq]. repeat rewrite Qred_correct.
    rewrite Hk, Eo. ring.
Qed.

(** The scroll target is a finite number congruent to
    [cellHeight - t * cellHeight] modulo the strip height. *)
Lemma targetPosition_value (p : Q) (t : nat) :
  exists (q : Q) (k : Z),
    targetPosition (Num p) (ofNat t) = Num q /\
    (q == 200 - 200 * inject_Z (Z.of_nat t) + 2000 * inject_Z k)%Q.
Proof.
  unfold targetPosition, spinDistance, distanceToAlign,
    currentReelPositionNormalized, finalDesiredReelPosition,
    winningSymbolTargetYInStrip, offsetToCenterVisibleArea, minFullSpins,
    CELL_HEIGHT, ofNat, ofZ.
  rewrite totalStripHeight_val.
  cbn [nmod nmul nsub nadd nltb].
  change (Qeq_bool 2000 0) with false. cbv iota.
  set (T := Qtrunc (p / 2000)).
  cbn [nltb nadd nsub].
  destruct (Qltb (Qred (p - 2000 * inject_Z T)) 0); cbn [nsub nadd nltb];
  match goal with |- context [if ?b then _ else _] => destruct b end;
  cbn [nadd nsub nmul].
  - eexists; exists (T + 5); split; [reflexivity|].
    repeat rewrite Qred_correct. rewrite inject_Z_plus.
    change (inject_Z 5) with 5%Q. ring.
  - eexists; exists (T + 4); split; [reflexivity|].
    repeat rewrite Qred_correct. rewrite inject_Z_plus.
    change (inject_Z 4) with 4%Q. ring.
  - eexists; exists (T + 6); split; [reflexivity|].
    repeat rewrite Qred_correct. rewrite inject_Z_plus.
    change (inject_Z 6) with 6%Q. ring.
  - eexists; exists (T + 5); split; [reflexivity|].
    repeat rewrite Qred_correct. rewrite inject_Z_plus.
    change (inject_Z 5) with 5%Q. ring.
Qed.

Lemma alignedCell_iff (q : Q) :
  alignedCell (Num q) <-> exists m : Z, (q == 200 * inject_Z m)%Q.
Proof.
  unfold alignedCell, ofZ, CELL_HEIGHT. cbn [nmul num_eq].
  split; intros (m & H); exists m.
  - rewrite H, Qred_correct. ring.
  - rewrite H, Qred_correct. ring.
Qed.

Lemma targetPosition_aligned (p : Q) (t : nat) :
  finite (targetPosition (Num p) (ofNat t)) /\
  alignedCell (targetPosition (Num p) (ofNat t)).
Proof.
  destruct (targetPosition_value p t) as (q & k & -> & Hq).
  split; [now exists q|].
  apply alignedCell_iff. exists (1 - Z.of_nat t + 10 * k).
  rewrite Hq. unfold Z.sub.
  rewrite !inject_Z_plus, inject_Z_opp, inject_Z_mult.
  change (inject_Z 1) with 1%Q. change (inject_Z 10) with 10%Q. ring.
Qed.

(** One ticker step moves a symbol by the scroll delta, up to one
    strip height. *)
Lemma tickSymbol_offset textures (d y : Q) field (s : symbol) (g : random) :
  sym_y s = Num y ->
  exists (y' : Q) (k : Z),
    sym_y (fst (tickSymbol textures (Num d) field s g)) = Num y' /\
    (y' == y + d + 2000 * inject_Z k)%Q.
Proof.
  intro Hy. unfold tickSymbol. rewrite Hy, half_cell, window_height.
  rewrite totalStripHeight_val. cbn [nadd nsub].
  destruct (nltb _ (Num 0)).
  - exists (Qred (Qred (y + d) + 2000)), 1%Z. split.
    + destruct (truthy field); [destruct (randomTexture textures g)|];
        reflexivity.
    + repeat rewrite Qred_correct. change (inject_Z 1) with 1%Q. ring.
  - destruct (ngtb _ _).
    + exists (Qred (Qred (y + d) - 2000)), (-1)%Z. split.
      * destruct (truthy field); [destruct (randomTexture textures g)|];
          reflexivity.
      * repeat rewrite Qred_correct. change (inject_Z (-1)) with (-1)%Q. ring.
    + exists (Qred (y + d)), 0%Z. split; [reflexivity|].
      rewrite Qred_correct. change (inject_Z 0) with 0%Q. ring.
Qed.

(* ================================================================== *)
(** ** Reels in step *)

Lemma tickSymbols_offsets textures deltaY field :
  forall (l : list symbol) (g : random) (j : nat) (y' : num),
    nth_error (map sym_y (fst (tickSymbols textures deltaY field l g))) j
    = Some y' ->
    exists (s : symbol) (g' : random),
      nth_error l j = Some s /\
      y' = sym_y (fst (tickSymbol textures deltaY field s g')).
Proof.
  induction l as [|s l IH]; intros g j y' H.
  - destruct j; discriminate.
  - cbn [tickSymbols] in H.
    destruct (tickSymbol textures deltaY field s g) as [s' g1] eqn:E1.
    destruct (tickSymbols textures deltaY field l g1) as [l' g2] eqn:E2.
    destruct j as [|j]; simpl in H.
    + injection H as <-. exists s, g. rewrite E1. auto.
    + apply (IH g1 j y'). rewrite E2. exact H.
Qed.

Lemma tickReels_nth textures :
  forall (l : list reel) (g : random) (i : nat) (r' : reel),
    nth_error (fst (tickReels textures l g)) i = Some r' ->
    exists (r : reel) (g' : random),
      nth_error l i = Some r /\ r' = fst (tickReel textures r g').
Proof.
  induction l as [|r l IH]; intros g i r' H.
  - destruct i; discriminate.
  - cbn [tickReels] in H.
    destruct (tickReel textures r g) as [r1 g1] eqn:E1.
    destruct (tickReels textures l g1) as [l' g2] eqn:E2.
    destruct i as [|i]; simpl in H.
    + injection H as <-. exists r, g. rewrite E1. auto.
    + apply (IH g1 i r'). rewrite E2. exact H.
Qed.

Lemma tickReel_fields textures (r : reel) (g : random) :
  position (fst (tickReel textures r g)) = position r /\
  previousPosition (fst (tickReel textures r g)) = position r /\
  symbols (fst (tickReel textures r g))
  = fst (tickSymbols textures (nsub (position r) (previousPosition r))
                     (spinTween r) (symbols r) g).
Proof.
  unfold tickReel. destruct (tickSymbols _ _ _ _ _). cbn. auto.
Qed.

(** The ticker keeps a reel in step: afterwards every symbol is at its
    place for the position the reel has now. *)
Lemma tickReel_inStep textures (r : reel) (g : random) :
  reelInStep r -> reelInStep (fst (tickReel textures r g)).
Proof.
  intros ((p & Hp) & (pp & Hpp) & Hlen & Hsym).
  destruct (tickReel_fields textures r g) as (F1 & F2 & F3).
  unfold reelInStep. rewrite F1, F2, F3, Hp.
  split; [now exists p|]. split; [now exists p|]. split.
  - rewrite tickSymbols_length. exact Hlen.
  - intros j y' Hj.
    apply tickSymbols_offsets in Hj. destruct Hj as (s & g' & Hs & ->).
    assert (Hs' : nth_error (map sym_y (symbols r)) j = Some (sym_y s))
      by (rewrite nth_error_map, Hs; reflexivity).
    apply Hsym in Hs'. rewrite Hpp in Hs'.
    apply onStrip_iff in Hs'. destruct Hs' as (yq & k & Hy & Hk).
    rewrite Hpp. cbn [nsub].
    destruct (tickSymbol_offset textures (Qred (p - pp)) yq (spinTween r) s g' Hy)
      as (y2 & k2 & Hy2 & Hk2).
    apply onStrip_iff. exists y2, (k + k2)%Z. split; [exact Hy2|].
    rewrite Hk2, Hk, Qred_correct, inject_Z_plus. ring.
Qed.

Lemma newSymbols_offsets textures :
  forall (n j : nat) (g : random),
    map sym_y (fst (newSymbols textures j n g)) = map initialOffset (seq j n).
Proof.
  induction n as [|n IH]; intros j g; cbn [newSymbols seq map fst];
    [reflexivity|].
  destruct (randomTexture textures g) as [t g1].
  specialize (IH (S j) g1).
  destruct (newSymbols textures (S j) n g1) as [rest g2].
  cbn [fst map sym_y] in *. now rewrite IH.
Qed.

Lemma newReels_inStep textures :
  forall (n : nat) (g : random),
    Forall (fun r => reelInStep r /\ position r = Num 0)
           (fst (newReels textures n g)).
Proof.
  induction n as [|n IH]; intro g; cbn [newReels]; [constructor|].
  pose proof (newSymbols_offsets textures NUM_SYMBOLS_PER_REEL_STRIP 0 g) as Ho.
  destruct (newSymbols textures 0 NUM_SYMBOLS_PER_REEL_STRIP g) as [syms g1].
  specialize (IH g1). destruct (newReels textures n g1) as [rest g2].
  cbn [fst] in *. constructor; [|exact IH].
  split; [|reflexivity].
  unfold reelInStep. cbn [position previousPosition symbols].
  split; [now exists 0%Q|]. split; [now exists 0%Q|]. split.
  - rewrite <- (length_map sym_y), Ho, length_map. apply length_seq.
  - intros j y Hj. rewrite Ho, nth_error_map in Hj.
    destruct (nth_error (seq 0 NUM_SYMBOLS_PER_REEL_STRIP) j) as [j'|] eqn:Ej;
      [|discriminate].
    injection Hj as <-.
    assert (j' = j).
    { assert (Hlt : (j < length (seq 0 NUM_SYMBOLS_PER_REEL_STRIP))%nat)
        by (apply nth_error_Some; congruence).
      rewrite length_seq in Hlt.
      rewrite (nth_error_nth' _ 0%nat) in Ej by (now rewrite length_seq).
      rewrite seq_nth in Ej by exact Hlt. now injection Ej. }
    subst j'.
    destruct (initialOffset_value j) as (o & Ho' & Eo).
    apply onStrip_iff. exists o, 0%Z. split; [exact Ho'|].
    rewrite Eo. change (inject_Z 0) with 0%Q. ring.
Qed.

Lemma offsets_updateAt_texture (i : nat) (t : Texture) (l : list symbol) :
  map sym_y (updateAt i (set_texture t) l) = map sym_y l.
Proof.
  revert i. induction l as [|s l IH]; intros [|i]; simpl; try reflexivity.
  now rewrite IH.
Qed.

(** The forced-win adjustment moves no symbol. *)
Lemma forceWinAdjust_offsets textures results index syms g :
  map sym_y (fst (forceWinAdjust textures results index syms g))
  = map sym_y syms.
Proof.
  unfold forceWinAdjust.
  destruct (sortByY (visibleFrom 0 syms)) as [|[i0 s0] [|[i1 s1] [|[i2 s2] rest]]];
    try reflexivity.
  destruct (randomTexture _ g) as [t0 g0].
  destruct (randomTexture _ g0) as [t2 g2].
  cbn [fst]. now rewrite !offsets_updateAt_texture.
Qed.

(** What one [animate] callback does to the reels: only the animated
    reel changes, and of it only the position, the [spinTween] field
    and (forced win) textures. *)
Lemma animate_reels (tw : tween) (now : Z) (w : world) :
  (forall i, i <> tw_index tw ->
             nth_error (reels (animate tw now w)) i = nth_error (reels w) i) /\
  (forall r, nth_error (reels w) (tw_index tw) = Some r ->
             exists r',
               nth_error (reels (animate tw now w)) (tw_index tw) = Some r' /\
               previousPosition r' = previousPosition r /\
               map sym_y (symbols r') = map sym_y (symbols r) /\
               position r'
               = if now <? endTime tw
                 then lerp (tw_start tw) (tw_target tw)
                           (backout (tw_amount tw)
                                    (ndiv (ofZ (now - tw_startTime tw))
                                          (ofZ (tw_time tw))))
                 else tw_target tw).
Proof.
  unfold animate, endTime.
  destruct (now <? tw_startTime tw + tw_time tw).
  - cbn. split.
    + intros i Hi. apply nth_error_updateAt_other. congruence.
    + intros r Hr. rewrite nth_error_updateAt_same, Hr. cbn.
      eexists. split; [reflexivity|]. cbn. auto.
  - unfold onComplete.
    set (w0 := set_reels (updateAt (tw_index tw) (set_position (tw_target tw))
                                   (reels w)) w).
    set (w1 := set_reels _ (set_spinCalls _ w0)).
    set (w2 := if tw_forceWin tw then _ else w1).
    assert (H1o : forall i, i <> tw_index tw ->
                            nth_error (reels w1) i = nth_error (reels w) i).
    { intros i Hi. unfold w1, w0. cbn.
      rewrite !nth_error_updateAt_other by congruence. reflexivity. }
    assert (H1s : forall r, nth_error (reels w) (tw_index tw) = Some r ->
                            nth_error (reels w1) (tw_index tw)
                            = Some (set_spinTween JsNull
                                      (set_position (tw_target tw) r))).
    { intros r Hr. unfold w1, w0. cbn.
      rewrite !nth_error_updateAt_same, Hr. reflexivity. }
    assert (H2 : (forall i, i <> tw_index tw ->
                            nth_error (reels w2) i = nth_error (reels w) i) /\
                 (forall r, nth_error (reels w) (tw_index tw) = Some r ->
                            exists r',
                              nth_error (reels w2) (tw_index tw) = Some r' /\
                              previousPosition r' = previousPosition r /\
                              map sym_y (symbols r') = map sym_y (symbols r) /\
                              position r' = tw_target tw)).
    { unfold w2. destruct (tw_forceWin tw).
      - destruct (nth_error (reels w1) (tw_index tw)) as [r1|] eqn:E1.
        + pose proof (forceWinAdjust_offsets (_slotTextures w1) (tw_results tw)
                        (tw_index tw) (symbols r1) (rand w1)) as Ho.
          destruct (forceWinAdjust _ _ _ _ _) as [syms g]. cbn [fst] in Ho.
          cbn [reels set_rand set_reels]. split.
          * intros i Hi. rewrite nth_error_updateAt_other by congruence.
            now apply H1o.
          * intros r Hr. rewrite nth_error_updateAt_same, E1.
            pose proof (H1s r Hr) as E. injection E as E. subst r1.
            eexists. split; [reflexivity|]. cbn. auto.
        + split; [exact H1o|]. intros r Hr.
          pose proof (H1s r Hr) as E. discriminate E.
      - split; [exact H1o|]. intros r Hr.
        eexists. split; [exact (H1s r Hr)|]. cbn. auto. }
    assert (Hfin : reels (match nth_error (spinCalls w2) (tw_spin tw) with
                          | Some c =>
                              if Nat.eqb (reelsStopping c) (length (reels w2))
                              then resolve (tw_spin tw) w2 else w2
                          | None => w2
                          end) = reels w2).
    { destruct (nth_error (spinCalls w2) (tw_spin tw)) as [c|]; auto.
      destruct (Nat.eqb _ _); auto.
      now destruct (resolve_shape (tw_spin tw) w2) as (R1 & _). }
    rewrite Hfin. exact H2.
Qed.

(* ================================================================== *)
(** ** The geometry invariant *)

Lemma Forall_nth_error {A : Type} (P : A -> Prop) (l : list A) :
  Forall P l <-> (forall i x, nth_error l i = Some x -> P x).
Proof.
  rewrite Forall_forall. split.
  - intros H i x Hx. apply H. eapply nth_error_In. exact Hx.
  - intros H x Hx. apply In_nth_error in Hx. destruct Hx as (i & Hi).
    eapply H. exact Hi.
Qed.

Lemma Qeq_bool_inject_pos (z : Z) : 0 < z -> Qeq_bool (inject_Z z) 0 = false.
Proof.
  intro Hz. destruct (Qeq_bool (inject_Z z) 0) eqn:E; [|reflexivity].
  apply Qeq_bool_eq in E. unfold Qeq in E. simpl in E. lia.
Qed.

Lemma lerp_finite (a b amount : num) (x time : Z) :
  finite a -> finite b -> finite amount -> 0 < time ->
  finite (lerp a b (backout amount (ndiv (ofZ x) (ofZ time)))).
Proof.
  intros (qa & ->) (qb & ->) (qm & ->) Ht.
  unfold lerp, backout, ndiv, ofZ. rewrite (Qeq_bool_inject_pos _ Ht).
  cbn. eexists. reflexivity.
Qed.

Lemma spinTweensFrom_inStep k results forceWin clock :
  forall (rs : list reel) (a : nat),
    Forall (fun r => finite (position r)) rs ->
    (a + length rs <= length results)%nat ->
    Forall tweenInStep (spinTweensFrom k results forceWin clock a rs).
Proof.
  induction rs as [|r rs IH]; intros a Hfin Hlen; cbn [spinTweensFrom];
    [constructor|].
  pose proof (Forall_inv Hfin) as (p & Hp). simpl in Hlen.
  constructor.
  - unfold tweenInStep. cbn [tw_start tw_target tw_time tw_amount]. rewrite Hp.
    assert (Hr : exists t, resultAt results a = ofNat t).
    { unfold resultAt. destruct (nth_error results a) as [t|] eqn:E.
      - now exists t.
      - apply nth_error_None in E. lia. }
    destruct Hr as (t & ->).
    destruct (targetPosition_aligned p t) as (F & A).
    split; [now exists p|]. split; [exact F|]. split; [exact A|].
    split; [unfold SPIN_DURATION_BASE; lia | now eexists].
  - apply IH; [exact (Forall_inv_tail Hfin) | lia].
Qed.

Lemma reelInStep_offsets (r r' : reel) :
  reelInStep r ->
  previousPosition r' = previousPosition r ->
  map sym_y (symbols r') = map sym_y (symbols r) ->
  finite (position r') ->
  reelInStep r'.
Proof.
  intros (_ & Hpp & Hlen & Hsym) Hprev Hmap Hpos.
  unfold reelInStep. rewrite Hprev, Hmap.
  split; [exact Hpos|]. split; [exact Hpp|]. split; [|exact Hsym].
  rewrite <- (length_map sym_y), Hmap, length_map. exact Hlen.
Qed.

Lemma geometry_reachable (draws : nat -> nat) (trace : list event) :
  geometry (rafQueue (run trace (initSlotGame (initialWorld draws))))
           (run trace (initSlotGame (initialWorld draws))).
Proof.
  apply (reachable_invariant geometry).
  - (* initSlotGame *)
    intro d. unfold geometry, initSlotGame, initReelManager.
    cbn [set__slotTextures _slotTextures rand set_slotTextures slotTextures
         initialWorld reels app].
    pose proof (newReels_inStep (map Tex symbolImagePaths) 3 (mkRandom d 0)) as H.
    pose proof (newReels_length (map Tex symbolImagePaths) 3 (mkRandom d 0)) as L.
    destruct (newReels _ 3 _) as [rs g]. cbn [fst] in *. cbn.
    split; [exact L|]. split.
    + eapply Forall_impl; [|exact H]. now intros r (Hr & _).
    + split; [constructor|]. intros i r Hr _.
      rewrite Forall_nth_error in H. destruct (H i r Hr) as (_ & ->).
      exists 0%Z. reflexivity.
  - (* ticker *)
    intros w (Hlen & Hreels & Htws & Hal).
    destruct (ticker_shape w) as (T1 & _ & _ & _).
    assert (Hnth : forall i r', nth_error (reels (ticker w)) i = Some r' ->
                     exists r g', nth_error (reels w) i = Some r /\
                                  r' = fst (tickReel (_slotTextures w) r g')).
    { intros i r' Hr'. unfold ticker in Hr'.
      pose proof (tickReels_nth (_slotTextures w) (reels w) (rand w) i r') as H.
      destruct (tickReels _ _ _) as [rs g]. cbn in *. auto. }
    split; [congruence|]. split; [|split; [exact Htws|]].
    + apply Forall_nth_error. intros i r' Hr'.
      destruct (Hnth i r' Hr') as (r & g' & Hr & ->).
      apply tickReel_inStep. rewrite Forall_nth_error in Hreels. eauto.
    + intros i r' Hr' Hno.
      destruct (Hnth i r' Hr') as (r & g' & Hr & ->).
      destruct (tickReel_fields (_slotTextures w) r g') as (-> & _).
      eauto.
  - (* clearing the queue *)
    intros Q w H. exact H.
  - (* animate *)
    intros tw rest now w (Hlen & Hreels & Htws & Hal).
    pose proof (Forall_inv Htws) as (Hs & Ht & Ha & Htime & Ham).
    pose proof (Forall_inv_tail Htws) as Hrest. simpl in Hrest.
    rewrite Forall_nth_error in Hreels.
    destruct (animate_reels tw now w) as (Hother & Hsame).
    destruct (animate_shape tw now w) as (Hl & Hq).
    assert (Hpos : finite (if now <? endTime tw
                           then lerp (tw_start tw) (tw_target tw)
                                     (backout (tw_amount tw)
                                              (ndiv (ofZ (now - tw_startTime tw))
                                                    (ofZ (tw_time tw))))
                           else tw_target tw)).
    { destruct (now <? endTime tw); [now apply lerp_finite | exact Ht]. }
    assert (Hstep : forall i r', nth_error (reels (animate tw now w)) i = Some r' ->
                                 reelInStep r').
    { intros i r' Hr'. destruct (Nat.eq_dec i (tw_index tw)) as [-> | Hi].
      - destruct (nth_error (reels w) (tw_index tw)) as [r|] eqn:Er.
        + destruct (Hsame r eq_refl) as (r2 & E2 & Hp & Hm & Hpo).
          rewrite E2 in Hr'. injection Hr' as <-.
          apply (reelInStep_offsets r); eauto. now rewrite Hpo.
        + apply nth_error_None in Er.
          assert (nth_error (reels (animate tw now w)) (tw_index tw) = None)
            by (apply nth_error_None; lia).
          congruence.
      - rewrite (Hother i Hi) in Hr'. eauto. }
    split; [congruence|]. split; [now apply Forall_nth_error|].
    destruct Hq as [(Hlt & Hq & _) | (Hge & Hq & _)]; rewrite Hq.
    + (* the tween continues *)
      split.
      * rewrite app_assoc. apply Forall_app. split; [exact Hrest|].
        constructor; [exact (Forall_inv Htws) | constructor].
      * intros i r' Hr' Hno.
        assert (Hi : i <> tw_index tw).
        { intro E. apply (Hno tw); [|now symmetry].
          rewrite app_assoc. apply in_or_app. right. now left. }
        rewrite (Hother i Hi) in Hr'. apply (Hal i r' Hr').
        intros tw' [<- | Hin]; [congruence|].
        apply Hno. rewrite app_assoc. apply in_or_app. now left.
    + (* the tween completes *)
      split; [exact Hrest|].
      intros i r' Hr' Hno.
      destruct (Nat.eq_dec i (tw_index tw)) as [-> | Hi].
      * destruct (nth_error (reels w) (tw_index tw)) as [r|] eqn:Er.
        -- destruct (Hsame r eq_refl) as (r2 & E2 & _ & _ & Hpo).
           rewrite E2 in Hr'. injection Hr' as <-.
           apply Z.ltb_ge in Hge. rewrite Hge in Hpo. now rewrite Hpo.
        -- apply nth_error_None in Er.
           assert (nth_error (reels (animate tw now w)) (tw_index tw) = None)
             by (apply nth_error_None; lia).
           congruence.
      * rewrite (Hother i Hi) in Hr'. apply (Hal i r' Hr').
        intros tw' [<- | Hin]; [congruence | now apply Hno].
  - (* startSpin *)
    intros forceWin clock w (Hlen & Hreels & Htws & Hal).
    destruct (startSpin_cases forceWin clock w)
      as [(Hs & ->) | [(Hs & Hb & ->) | (Hs & Hb & _ & _ & _ & R & _ & Q)]].
    + exact (conj Hlen (conj Hreels (conj Htws Hal))).
    + exact (conj Hlen (conj Hreels (conj Htws Hal))).
    + unfold geometry. rewrite R, Q, length_map.
      split; [exact Hlen|]. split.
      * apply Forall_map. eapply Forall_impl; [|exact Hreels].
        intros r (H1 & H2 & H3 & H4).
        exact (conj H1 (conj H2 (conj H3 H4))).
      * split.
        -- apply Forall_app. split; [exact Htws|].
           apply spinTweensFrom_inStep.
           ++ eapply Forall_impl; [|exact Hreels]. now intros r (H1 & _).
           ++ rewrite chooseResults_length, Hlen. simpl. lia.
        -- intros i r' Hr' Hno. exfalso.
           rewrite nth_error_map in Hr'.
           destruct (nth_error (reels w) i) as [r|] eqn:Er; [|discriminate].
           pose proof (spinTweensFrom_nth (length (spinCalls w))
                         (fst (chooseResults forceWin (length (slotTextures w))
                                             (rand w)))
                         forceWin clock 0 (reels w) i r Er) as Htw.
           apply nth_error_In in Htw.
           apply (Hno _ (in_or_app _ _ _ (or_intror Htw))). reflexivity.
Qed.

(* ================================================================== *)
(** ** Symbols of one strip keep their distance *)

(** Two places of a strip of ten cells are at least one cell apart. *)
Lemma onStrip_apart (j j' : nat) (pp : Q) (y y' : Q) :
  (j < 10)%nat -> (j' < 10)%nat -> j <> j' ->
  onStrip j (Num pp) (Num y) ->
  onStrip j' (Num pp) (Num y') ->
  (200 <= Qabs (y - y'))%Q.
Proof.
  intros Hj Hj' Hne H H'.
  apply onStrip_iff in H. destruct H as (yq & k & E & Hk). injection E as <-.
  apply onStrip_iff in H'. destruct H' as (yq' & k' & E' & Hk'). injection E' as <-.
  set (n := (Z.of_nat j - Z.of_nat j' + 10 * (k - k'))%Z).
  assert (Hn : (y - y' == 200 * inject_Z n)%Q).
  { rewrite Hk, Hk'. unfold n, Z.sub.
    rewrite !inject_Z_plus, !inject_Z_opp, inject_Z_mult, inject_Z_plus,
      inject_Z_opp.
    change (inject_Z 10) with 10%Q. ring. }
  assert (Hnz : (n <= -1 \/ 1 <= n)%Z) by (unfold n; lia).
  rewrite Hn. destruct Hnz as [Hneg | Hpos].
  - assert (H1 : (inject_Z n <= -1)%Q).
    { change (-1)%Q with (inject_Z (-1)). now rewrite <- Zle_Qle. }
    rewrite Qabs_neg by lra. lra.
  - assert (H1 : (1 <= inject_Z n)%Q).
    { change 1%Q with (inject_Z 1). now rewrite <- Zle_Qle. }
    rewrite Qabs_pos by lra. lra.
Qed.

Lemma nearCenter_iff (y : Q) :
  nltb (nabs (nsub (Num y) targetCenterY)) tolerance = true <->
  (Qabs (y - 300) < 5)%Q.
Proof.
  change targetCenterY with (Num 300). unfold tolerance. cbn [nsub nabs nltb].
  rewrite Qltb_lt. rewrite Qred_correct. reflexivity.
Qed.

(** On a reel in step at most one symbol is within tolerance of the
    win line. *)
Lemma reelInStep_center_unique (r : reel) (j j' : nat) (s s' : symbol) :
  reelInStep r ->
  nth_error (symbols r) j = Some s ->
  nth_error (symbols r) j' = Some s' ->
  nltb (nabs (nsub (sym_y s) targetCenterY)) tolerance = true ->
  nltb (nabs (nsub (sym_y s') targetCenterY)) tolerance = true ->
  j = j'.
Proof.
  intros (_ & (pp & Hpp) & Hlen & Hsym) Hs Hs' Hc Hc'.
  destruct (Nat.eq_dec j j') as [E | Hne]; [exact E | exfalso].
  assert (Hj : (j < 10)%nat).
  { change 10%nat with NUM_SYMBOLS_PER_REEL_STRIP. rewrite <- Hlen.
    apply nth_error_Some. congruence. }
  assert (Hj' : (j' < 10)%nat).
  { change 10%nat with NUM_SYMBOLS_PER_REEL_STRIP. rewrite <- Hlen.
    apply nth_error_Some. congruence. }
  assert (H1 : onStrip j (previousPosition r) (sym_y s))
    by (apply Hsym; rewrite nth_error_map, Hs; reflexivity).
  assert (H2 : onStrip j' (previousPosition r) (sym_y s'))
    by (apply Hsym; rewrite nth_error_map, Hs'; reflexivity).
  rewrite Hpp in H1, H2.
  destruct H1 as ((y & Hy) & H1c). destruct H2 as ((y' & Hy') & H2c).
  assert (G1 : onStrip j (Num pp) (Num y)) by (rewrite <- Hy; split; [now exists y | exact H1c]).
  assert (G2 : onStrip j' (Num pp) (Num y')) by (rewrite <- Hy'; split; [now exists y' | exact H2c]).
  pose proof (onStrip_apart j j' pp y y' Hj Hj' Hne G1 G2) as Hfar.
  rewrite Hy in Hc. rewrite Hy' in Hc'.
  apply nearCenter_iff in Hc. apply nearCenter_iff in Hc'.
  assert (Htri : (Qabs (y - y') <= Qabs (y - 300) + Qabs (y' - 300))%Q).
  { setoid_replace (y - y')%Q with ((y - 300) + - (y' - 300))%Q by ring.
    eapply Qle_trans; [apply Qabs_triangle|].
    rewrite Qabs_opp. apply Qle_refl. }
  lra.
Qed.

(* ================================================================== *)
(** ** The sampler on a reel in step *)

Lemma middleSymbolTexture_first (l : list symbol) (t : Texture) :
  middleSymbolTexture l = Some t ->
  exists j s, nth_error l j = Some s /\
              nltb (nabs (nsub (sym_y s) targetCenterY)) tolerance = true /\
              t = sym_texture s.
Proof.
  induction l as [|s l IH]; simpl; [discriminate|].
  destruct (nltb _ tolerance) eqn:E.
  - intro H. injection H as <-. exists 0%nat, s. auto.
  - intro H. destruct (IH H) as (j & s' & Hj & Hn & Ht).
    exists (S j), s'. auto.
Qed.

Lemma middleSymbolTexture_none (l : list symbol) :
  middleSymbolTexture l = None <->
  (forall s, In s l ->
             nltb (nabs (nsub (sym_y s) targetCenterY)) tolerance = false).
Proof.
  induction l as [|s l IH]; simpl.
  - split; [intros _ s [] | reflexivity].
  - destruct (nltb _ tolerance) eqn:E.
    + split; [discriminate|]. intro H.
      rewrite (H s (or_introl eq_refl)) in E. discriminate.
    + rewrite IH. split.
      * intros H s' [<- | Hin]; auto.
      * intros H s' Hin. apply H. now right.
Qed.

(* ================================================================== *)
(** ** Easing *)

Lemma backout_value (a t : Q) :
  backout (Num a) (Num t)
  = Num (Qred (Qred (Qred (Qred (t - 1) * Qred (t - 1))
                     * Qred (Qred (Qred (a + 1) * Qred (t - 1)) + a)) + 1)).
Proof. reflexivity. Qed.

Lemma backout_rational (a t : Q) :
  exists v : Q,
    backout (Num a) (Num t) = Num v /\
    (v == (t - 1) * (t - 1) * ((a + 1) * (t - 1) + a) + 1)%Q.
Proof.
  rewrite backout_value. eexists. split; [reflexivity|].
  repeat rewrite Qred_correct. reflexivity.
Qed.

Lemma lerp_rational (a b f : Q) :
  exists v : Q, lerp (Num a) (Num b) (Num f) = Num v /\
                (v == a + (b - a) * f)%Q.
Proof.
  unfold lerp. cbn [nsub nmul nadd]. eexists. split; [reflexivity|].
  repeat rewrite Qred_correct. reflexivity.
Qed.

(* ================================================================== *)
(** ** Frames with one clock reading *)

Lemma runCallbacks_queue (c : Z) :
  forall (cbs : list tween) (i : nat) (w : world),
    rafQueue (runCallbacks (fun _ => c) i cbs w)
    = rafQueue w ++ filter (fun tw => c <? endTime tw) cbs.
Proof.
  induction cbs as [|tw rest IH]; intros i w; simpl.
  - now rewrite app_nil_r.
  - rewrite IH.
    destruct (animate_shape tw c w) as (_ & [(Hlt & Hq & _) | (Hge & Hq & _)]);
      rewrite Hq.
    + apply Z.ltb_lt in Hlt. rewrite Hlt. now rewrite <- app_assoc.
    + apply Z.ltb_ge in Hge. now rewrite Hge.
Qed.

(** A frame in which every callback reads the clock [c] keeps exactly
    the tweens whose end time lies after [c], in their order. *)
Lemma frame_queue (c : Z) (w : world) :
  rafQueue (frame (fun _ => c) w)
  = filter (fun tw => c <? endTime tw) (rafQueue w).
Proof.
  unfold frame. rewrite runCallbacks_queue.
  destruct (ticker_shape w) as (_ & _ & T & _). now rewrite T.
Qed.

Lemma frame_reels_length (clock : nat -> Z) (w : world) :
  length (reels (frame clock w)) = length (reels w).
Proof.
  unfold frame.
  destruct (ticker_shape w) as (T1 & _ & T2 & T3).
  assert (G : forall cbs i w0,
             length (reels (runCallbacks clock i cbs w0)) = length (reels w0)).
  { induction cbs as [|tw rest IH]; intros i w0; simpl; [reflexivity|].
    rewrite IH. now destruct (animate_shape tw (clock i) w0) as (H & _). }
  rewrite G. cbn. exact T1.
Qed.

Lemma spinTweensFrom_skipn k results forceWin clock :
  forall (m a : nat) (rs : list reel),
    skipn m (spinTweensFrom k results forceWin clock a rs)
    = spinTweensFrom k results forceWin clock (a + m) (skipn m rs).
Proof.
  induction m as [|m IH]; intros a rs.
  - now rewrite Nat.add_0_r.
  - destruct rs as [|r rs]; [reflexivity|].
    cbn [spinTweensFrom skipn]. rewrite IH. f_equal. lia.
Qed.

(** With one start time the end times grow with the reel index, so a
    clock reading cuts off a prefix of the tweens. *)
Lemma spinTweensFrom_filter k results forceWin (s c : Z) :
  forall (rs : list reel) (a : nat),
    exists n : nat,
      filter (fun tw => c <? endTime tw)
             (spinTweensFrom k results forceWin (fun _ => s) a rs)
      = skipn n (spinTweensFrom k results forceWin (fun _ => s) a rs).
Proof.
  assert (Hall : forall rs a,
             c < s + (SPIN_DURATION_BASE + Z.of_nat a * 500) ->
             filter (fun tw => c <? endTime tw)
                    (spinTweensFrom k results forceWin (fun _ => s) a rs)
             = spinTweensFrom k results forceWin (fun _ => s) a rs).
  { induction rs as [|r rs IH]; intros a Ha; cbn [spinTweensFrom filter];
      [reflexivity|].
    unfold endTime at 1. cbn [tw_startTime tw_time].
    apply Z.ltb_lt in Ha. rewrite Ha. f_equal. apply IH.
    apply Z.ltb_lt in Ha. lia. }
  induction rs as [|r rs IH]; intro a.
  - exists 0%nat. reflexivity.
  - destruct (c <? s + (SPIN_DURATION_BASE + Z.of_nat a * 500)) eqn:E.
    + exists 0%nat. apply Z.ltb_lt in E. now apply Hall.
    + destruct (IH (S a)) as (n & Hn). exists (S n).
      cbn [spinTweensFrom filter skipn].
      unfold endTime at 1. cbn [tw_startTime tw_time]. rewrite E. exact Hn.
Qed.

(* ================================================================== *)
(** ** Visible symbols and their order *)

Lemma visibleFrom_In :
  forall (l : list symbol) (a i : nat) (s : symbol),
    In (i, s) (visibleFrom a l) <->
    (a <= i)%nat /\ nth_error l (i - a) = Some s /\ inVisibleArea s = true.
Proof.
  induction l as [|x l IH]; intros a i s.
  - simpl. split; [intros [] |].
    intros (_ & H & _). destruct (i - a)%nat; discriminate.
  - cbn [visibleFrom]. fold (inVisibleArea x).
    assert (Hrest : In (i, s) (visibleFrom (S a) l) <->
                    (a < i)%nat /\ nth_error (x :: l) (i - a) = Some s /\
                    inVisibleArea s = true).
    { rewrite IH. split.
      - intros (H1 & H2 & H3). split; [lia|]. split; [|exact H3].
        replace (i - a)%nat with (S (i - S a)) by lia. exact H2.
      - intros (H1 & H2 & H3). split; [lia|]. split; [|exact H3].
        replace (i - a)%nat with (S (i - S a)) in H2 by lia. exact H2. }
    destruct (inVisibleArea x) eqn:Ex.
    + split.
      * intros [E | Hin].
        -- injection E as <- <-. rewrite Nat.sub_diag. auto.
        -- apply Hrest in Hin. destruct Hin as (H1 & H2 & H3).
           split; [lia | auto].
      * intros (H1 & H2 & H3).
        destruct (Nat.eq_dec i a) as [-> | Hne].
        -- left. rewrite Nat.sub_diag in H2. simpl in H2. now injection H2 as ->.
        -- right. apply Hrest. split; [lia | auto].
    + rewrite Hrest. split.
      * intros (H1 & H2 & H3). split; [lia | auto].
      * intros (H1 & H2 & H3).
        destruct (Nat.eq_dec i a) as [-> | Hne].
        -- rewrite Nat.sub_diag in H2. simpl in H2. injection H2 as ->.
           congruence.
        -- split; [lia | auto].
Qed.

Lemma visibleFrom_NoDup :
  forall (l : list symbol) (a : nat), NoDup (map fst (visibleFrom a l)).
Proof.
  induction l as [|x l IH]; intro a; cbn [visibleFrom]; [constructor|].
  destruct (_ && _); [|apply IH].
  cbn [map fst]. constructor; [|apply IH].
  rewrite in_map_iff. intros ((i & s) & E & Hin). simpl in E. subst i.
  apply visibleFrom_In in Hin. lia.
Qed.

Lemma insertByY_perm (x : nat * symbol) (l : list (nat * symbol)) :
  Permutation (insertByY x l) (x :: l).
Proof.
  induction l as [|h t IH]; simpl; [reflexivity|].
  destruct (nltb _ _); [|reflexivity].
  rewrite IH. apply perm_swap.
Qed.

Lemma sortByY_perm (l : list (nat * symbol)) : Permutation (sortByY l) l.
Proof.
  induction l as [|x l IH]; simpl; [reflexivity|].
  rewrite insertByY_perm. now constructor.
Qed.

Lemma insertByY_sorted (x : nat * symbol) (l : list (nat * symbol)) :
  Sorted notAbove l -> Sorted notAbove (insertByY x l).
Proof.
  induction 1 as [|h t Hs IH Hhd]; simpl.
  - repeat constructor.
  - destruct (nltb (sym_y (snd h)) (sym_y (snd x))) eqn:E.
    + constructor; [exact IH|].
      destruct t as [|h' t']; simpl.
      * constructor. unfold notAbove.
        destruct (sym_y (snd h)) as [qh|], (sym_y (snd x)) as [qx|];
          cbn [nltb] in *; try discriminate.
        apply Qltb_lt in E. apply Qltb_ge. lra.
      * destruct (nltb (sym_y (snd h')) (sym_y (snd x))).
        -- constructor. now inversion Hhd.
        -- constructor. unfold notAbove.
           destruct (sym_y (snd h)) as [qh|], (sym_y (snd x)) as [qx|];
             cbn [nltb] in *; try discriminate.
           apply Qltb_lt in E. apply Qltb_ge. lra.
    + constructor; [now constructor|]. constructor. exact E.
Qed.

Lemma sortByY_sorted (l : list (nat * symbol)) : Sorted notAbove (sortByY l).
Proof.
  induction l as [|x l IH]; simpl; [constructor|].
  now apply insertByY_sorted.
Qed.

(* ================================================================== *)
(** ** The forced-win adjustment *)

Lemma nth_error_updateAt_texture (i j : nat) (t : Texture) (l : list symbol) :
  nth_error (updateAt i (set_texture t) l) j
  = if Nat.eqb i j then option_map (set_texture t) (nth_error l j)
    else nth_error l j.
Proof.
  destruct (Nat.eqb i j) eqn:E.
  - apply Nat.eqb_eq in E. subst j. apply nth_error_updateAt_same.
  - apply Nat.eqb_neq in E. now apply nth_error_updateAt_other.
Qed.

Lemma randomTexture_In (textures : list Texture) (g : random) :
  textures <> [] -> In (fst (randomTexture textures g)) textures.
Proof.
  intro Hne. unfold randomTexture, randomIndex, textureAt. cbn [fst].
  destruct textures as [|t l]; [now elim Hne|].
  apply nth_In. cbn [length Nat.eqb].
  apply Nat.mod_upper_bound. discriminate.
Qed.

Lemma randomTexture_empty (g : random) :
  fst (randomTexture [] g) = TexUndefined.
Proof. reflexivity. Qed.

Lemma randomTexture_used (textures : list Texture) (g : random) :
  used (snd (randomTexture textures g)) = S (used g).
Proof. reflexivity. Qed.

Lemma forceWinAdjust_few textures results index syms g :
  (length (visibleFrom 0 syms) < 3)%nat ->
  forceWinAdjust textures results index syms g = (syms, g).
Proof.
  intro H. unfold forceWinAdjust.
  rewrite <- (Permutation_length (sortByY_perm (visibleFrom 0 syms))) in H.
  destruct (sortByY (visibleFrom 0 syms))
    as [|[i0 s0] [|[i1 s1] [|[i2 s2] rest]]]; try reflexivity.
  simpl in H. lia.
Qed.

(* ================================================================== *)
(** ** The UI manager *)

Section UiManager.

Local Open Scope string_scope.

Lemma removeBackgrounds_In (c : string) (l : list string) :
  In c (UI.removeBackgrounds l) <-> In c l /\ c <> "win-bg" /\ c <> "lose-bg".
Proof.
  unfold UI.removeBackgrounds. rewrite filter_In.
  rewrite negb_true_iff, orb_false_iff, !String.eqb_neq. tauto.
Qed.

Lemma addClass_In (c x : string) (l : list string) :
  In x (UI.addClass c l) <-> In x l \/ x = c.
Proof.
  unfold UI.addClass. destruct (existsb (String.eqb c) l) eqn:E.
  - split; [tauto|]. intros [H | ->]; [exact H|].
    apply existsb_exists in E. destruct E as (y & Hy & Ey).
    apply String.eqb_eq in Ey. now subst y.
  - rewrite in_app_iff. simpl. split; intro H.
    + destruct H as [H | [H | []]]; [now left | right; now symmetry].
    + destruct H as [H | H]; [now left | right; left; now symmetry].
Qed.

Lemma removeBackgrounds_addClass (isWin : bool) (l : list string) :
  UI.removeBackgrounds
    (if isWin then UI.addClass "win-bg" (UI.removeBackgrounds l)
     else UI.addClass "lose-bg" (UI.removeBackgrounds l))
  = UI.removeBackgrounds l.
Proof.
  assert (Hidem : forall l0, UI.removeBackgrounds (UI.removeBackgrounds l0)
                             = UI.removeBackgrounds l0).
  { intro l0. unfold UI.removeBackgrounds.
    induction l0 as [|c l0 IH]; simpl; [reflexivity|].
    destruct (negb _) eqn:E; simpl; [rewrite E|]; now rewrite ?IH. }
  destruct isWin; unfold UI.addClass;
    destruct (existsb _ _); rewrite ?Hidem; try reflexivity;
    unfold UI.removeBackgrounds at 1; rewrite filter_app; simpl;
    rewrite app_nil_r; apply Hidem.
Qed.

Lemma replayUi_app (l l' : list uiEvent) (u : UI.elements) :
  replayUi (l ++ l') u
  = match replayUi l u with
    | UI.Returns u' => replayUi l' u'
    | UI.TypeError u' => UI.TypeError u'
    end.
Proof.
  revert u. induction l as [|e l IH]; intro u; simpl; [reflexivity|].
  destruct (applyUiEvent e u); [apply IH | reflexivity].
Qed.

(** On a complete page no recorded call throws, and every call leaves
    the page complete. *)
Lemma applyUiEvent_complete (e : uiEvent) (u : UI.elements) :
  completePage u ->
  exists u', applyUiEvent e u = UI.Returns u' /\ completePage u'.
Proof.
  intros (H1 & H2 & H3 & H4 & H5 & H6 & H7).
  destruct u as [sb ab wd wt bd mb mt ok ht ce]. cbn in *.
  destruct sb as [sb|]; [|now elim H1]. destruct ab as [ab|]; [|now elim H2].
  destruct wd as [wd|]; [|now elim H3]. destruct wt as [wt|]; [|now elim H4].
  destruct bd as [bd|]; [|now elim H5]. destruct mb as [mb|]; [|now elim H6].
  destruct mt as [mt|]; [|now elim H7].
  destruct e; cbn; eexists; (split; [reflexivity|]);
    unfold completePage; cbn; repeat split; discriminate.
Qed.

End UiManager.

(* ================================================================== *)
(** ** The rocket explosion *)

Section ExplosionFacts.

Import Explosion.

Lemma generate_spec x y velocity firstSprite n : forall i ps children,
  generate x y velocity firstSprite i n ps children =
  (ps ++ map (spawned x y velocity firstSprite) (seq i n),
   children ++ map (fun j => firstSprite + j)%nat (seq i n)).
Proof.
  induction n as [|n IH]; intros i ps children; cbn [generate seq map].
  - now rewrite !app_nil_r.
  - rewrite IH, <- !app_assoc. reflexivity.
Qed.

Lemma sweep_keep life : (0 < life)%Z -> forall backwards later children,
  sweep life backwards later children = (rev backwards ++ later, children).
Proof.
  intros L. induction backwards as [|p rest IH]; intros later children;
    cbn [sweep rev app]; [reflexivity|].
  destruct (Z.leb_spec life 0); [lia|].
  rewrite IH, <- app_assoc. reflexivity.
Qed.

Lemma sweep_drop life : (life <= 0)%Z -> forall backwards later children,
  sweep life backwards later children =
  (later, fold_left (fun c p => removeChild (sprite p) c) backwards children).
Proof.
  intros L. induction backwards as [|p rest IH]; intros later children;
    cbn [sweep fold_left]; [reflexivity|].
  destruct (Z.leb_spec life 0); [|lia]. apply IH.
Qed.

Lemma removeChild_last c : forall children,
  ~ In c children -> removeChild c (children ++ [c]) = children.
Proof.
  induction children as [|d rest IH]; intros N; cbn [removeChild app].
  - now rewrite Nat.eqb_refl.
  - destruct (Nat.eqb_spec c d) as [->|_].
    + exfalso. apply N. now left.
    + f_equal. apply IH. intros I. apply N. now right.
Qed.

Lemma remove_backwards children : forall ps : list particle,
  NoDup (map sprite ps) ->
  (forall p, In p ps -> ~ In (sprite p) children) ->
  fold_left (fun c p => removeChild (sprite p) c) (rev ps)
            (children ++ map sprite ps) = children.
Proof.
  induction ps as [|p ps IH] using rev_ind; intros N F.
  - cbn. now rewrite app_nil_r.
  - rewrite rev_app_distr, map_app. cbn [rev app map fold_left].
    rewrite map_app in N. apply NoDup_remove in N. cbn [map] in N.
    rewrite app_nil_r in N. destruct N as [N1 N2].
    rewrite app_assoc, removeChild_last.
    + apply IH; [exact N1|]. intros q I. apply F, in_or_app. now left.
    + intros I. apply in_app_or in I. destruct I as [I|I]; [|now apply N2].
      apply (F p); [|exact I]. apply in_or_app. right. now left.
Qed.

Lemma map_sprite_move ps : map sprite (map moveParticle ps) = map sprite ps.
Proof. rewrite map_map. reflexivity. Qed.

Lemma iter_move_sprite k p : sprite (Nat.iter k moveParticle p) = sprite p.
Proof. induction k as [|k IH]; [reflexivity|]. exact IH. Qed.

Lemma iter_move_velocity k p :
  vx (Nat.iter k moveParticle p) = vx p /\ vy (Nat.iter k moveParticle p) = vy p.
Proof. induction k as [|k IH]; [now split|]. exact IH. Qed.

Lemma iter_move_place k p :
  (px (Nat.iter k moveParticle p) == px p + inject_Z (Z.of_nat k) * vx p /\
   py (Nat.iter k moveParticle p) == py p + inject_Z (Z.of_nat k) * vy p)%Q.
Proof.
  induction k as [|k [IHx IHy]].
  - cbn. split; ring.
  - destruct (iter_move_velocity k p) as [Vx Vy].
    change (Nat.iter (S k) moveParticle p)
      with (moveParticle (Nat.iter k moveParticle p)).
    cbn [moveParticle px py]. rewrite Vx, Vy.
    rewrite Nat2Z.inj_succ. unfold Z.succ. rewrite inject_Z_plus.
    split; [rewrite IHx | rewrite IHy]; ring.
Qed.

Lemma iter_move_scale k p :
  (scaleX (Nat.iter k moveParticle p) == scaleX p * (95 # 100) ^ Z.of_nat k /\
   scaleY (Nat.iter k moveParticle p) == scaleY p * (95 # 100) ^ Z.of_nat k)%Q.
Proof.
  induction k as [|k [IHx IHy]].
  - cbn. split; ring.
  - change (Nat.iter (S k) moveParticle p)
      with (moveParticle (Nat.iter k moveParticle p)).
    cbn [moveParticle scaleX scaleY].
    rewrite Nat2Z.inj_succ. unfold Z.succ.
    rewrite Qpower_plus by (intros E; discriminate E).
    split; [rewrite IHx | rewrite IHy]; ring.
Qed.

Lemma map_iter_succ (k : nat) (ps : list particle) :
  map moveParticle (map (Nat.iter k moveParticle) ps) =
  map (Nat.iter (S k) moveParticle) ps.
Proof. rewrite map_map. reflexivity. Qed.

(** The state while the explosion lasts. *)
Lemma frames_in_flight x y velocity firstSprite children k :
  (k < 200)%nat ->
  Nat.iter k frame (explodeRocket x y velocity firstSprite children) =
  mkState (map (Nat.iter k moveParticle)
               (map (spawned x y velocity firstSprite) (seq 0 explosionSize)))
          (initialLife - Z.of_nat k)
          (children ++ map (fun j => firstSprite + j)%nat (seq 0 explosionSize))
          true.
Proof.
  induction k as [|k IH]; intros L.
  - unfold explodeRocket. rewrite generate_spec. cbn [app].
    change (Nat.iter 0 frame ?s) with s.
    rewrite (map_ext (Nat.iter 0 moveParticle) (fun p => p)), map_id
      by reflexivity.
    now rewrite Z.sub_0_r.
  - rewrite Nat.iter_succ, IH by lia.
    unfold frame. cbn [frameRequested]. unfold update.
    cbn [particles explosionLife stage].
    rewrite sweep_keep by (unfold initialLife; lia).
    rewrite rev_involutive, app_nil_r, map_iter_succ.
    rewrite !length_map, length_seq. cbn [explosionSize Nat.eqb negb].
    f_equal. lia.
Qed.

Lemma spawned_sprites x y velocity firstSprite l :
  map sprite (map (spawned x y velocity firstSprite) l) =
  map (fun j => firstSprite + j)%nat l.
Proof. rewrite map_map. reflexivity. Qed.

Lemma shifted_NoDup firstSprite n i :
  NoDup (map (fun j => firstSprite + j)%nat (seq i n)).
Proof.
  apply Finite.Injective_map_NoDup; [|apply seq_NoDup].
  intros a b E. lia.
Qed.

(** The frame at which the counter reaches zero. *)
Lemma frames_to_end x y velocity firstSprite children :
  freshSprites firstSprite children ->
  Nat.iter 200 frame (explodeRocket x y velocity firstSprite children) =
  mkState [] 0 children false.
Proof.
  intros F. change 200%nat with (S 199).
  rewrite Nat.iter_succ, frames_in_flight by lia.
  unfold frame. cbn [frameRequested]. unfold update.
  cbn [particles explosionLife stage].
  rewrite sweep_drop by (unfold initialLife; lia).
  cbn [length Nat.eqb negb].
  set (ps := map moveParticle _).
  assert (E : map (fun j => firstSprite + j)%nat (seq 0 explosionSize) =
              map sprite ps).
  { unfold ps. rewrite map_sprite_move, !map_map.
    apply map_ext. intros j. now rewrite iter_move_sprite. }
  rewrite E, remove_backwards.
  - f_equal.
  - rewrite <- E. apply shifted_NoDup.
  - intros p I C. apply (in_map sprite) in I. rewrite <- E in I.
    apply in_map_iff in I. destruct I as [j [J _]].
    apply F in C. lia.
Qed.

Lemma frame_at_rest children : forall k,
  Nat.iter k frame (mkState [] 0 children false) = mkState [] 0 children false.
Proof.
  induction k as [|k IH]; [reflexivity|]. rewrite Nat.iter_succ, IH. reflexivity.
Qed.

Lemma frames_after_end x y velocity firstSprite children k :
  freshSprites firstSprite children -> (200 <= k)%nat ->
  Nat.iter k frame (explodeRocket x y velocity firstSprite children) =
  mkState [] 0 children false.
Proof.
  intros F L. replace k with ((k - 200) + 200)%nat by lia.
  rewrite Nat.iter_add, frames_to_end by exact F. apply frame_at_rest.
Qed.

End ExplosionFacts.

(* ================================================================== *)
(** ** The fountain *)

Section FountainFacts.

Import Fountain.

Local Open Scope Q_scope.


(** The fade factor, as a quotient of the remaining time. *)
Lemma fade_quotient (life t : Q) :
  ~ life == 0 ->
  1 - (t - life * (7 # 10)) / (life - life * (7 # 10)) ==
  (life - t) / (life * (3 # 10)).
Proof. intros H. field. split; [exact H|]. intros E. apply H. lra. Qed.

Lemma fade_range (life t : Q) :
  0 < life -> life * (7 # 10) < t -> t < life ->
  0 < (life - t) / (life * (3 # 10)) /\ (life - t) / (life * (3 # 10)) <= 1.
Proof.
  intros L A B. assert (D : 0 < life * (3 # 10)) by lra. split.
  - apply Qlt_shift_div_l; [exact D|]. lra.
  - apply Qle_shift_div_r; [exact D|]. lra.
Qed.

Lemma particleUpdate_alpha deltaMs p :
  0 < lifetime p ->
  let p' := fst (particleUpdate deltaMs p) in
  (timeAlive p' <= lifetime p * (7 # 10) -> alpha p' = initialAlpha p) /\
  (lifetime p * (7 # 10) < timeAlive p' ->
   alpha p' == initialAlpha p * ((lifetime p - timeAlive p') / (lifetime p * (3 # 10)))).
Proof.
  intros L. cbn [particleUpdate fst alpha timeAlive].
  destruct (Qltb (lifetime p * (7 # 10)) (timeAlive p + deltaMs)) eqn:E.
  - apply Qltb_lt in E. split; [intros H; lra|]. intros _.
    rewrite fade_quotient; [reflexivity|]. intros Z. lra.
  - apply Qltb_ge in E. split; [reflexivity|]. intros H. lra.
Qed.

Lemma particleUpdate_dead deltaMs p :
  snd (particleUpdate deltaMs p) = true <-> lifetime p <= timeAlive p + deltaMs.
Proof. cbn [particleUpdate snd]. apply Qle_bool_iff. Qed.

Lemma particleUpdate_alive deltaMs p :
  snd (particleUpdate deltaMs p) = false <-> timeAlive p + deltaMs < lifetime p.
Proof.
  cbn [particleUpdate snd]. split; intros H.
  - apply Qnot_le_lt. intros C. apply Qle_bool_iff in C. congruence.
  - destruct (Qle_bool (lifetime p) (timeAlive p + deltaMs)) eqn:E; [|reflexivity].
    apply Qle_bool_iff in E. lra.
Qed.

(** A particle that stays is in flight again. *)
Lemma particleUpdate_inFlight deltaMs p :
  0 <= deltaMs ->
  lifetime p = 1500 -> initialAlpha p = 1 -> gravity p = 1 # 2 ->
  0 <= timeAlive p ->
  snd (particleUpdate deltaMs p) = false ->
  inFlight (fst (particleUpdate deltaMs p)).
Proof.
  intros D L A G T S'. apply particleUpdate_alive in S'.
  unfold inFlight.
  cbn [particleUpdate fst lifetime initialAlpha gravity timeAlive alpha].
  rewrite L in *. rewrite A.
  repeat (split; [first [reflexivity | assumption | lra]|]).
  destruct (Qltb (1500 * (7 # 10)) (timeAlive p + deltaMs)) eqn:E.
  - apply Qltb_lt in E.
    destruct (fade_range 1500 (timeAlive p + deltaMs)) as [R1 R2];
      [reflexivity | exact E | exact S' |].
    rewrite fade_quotient by (intros Z; discriminate Z).
    set (r := (1500 - (timeAlive p + deltaMs)) / (1500 * (3 # 10))) in *.
    clearbody r. split; lra.
  - split; [reflexivity | apply Qle_refl].
Qed.


Lemma sweepParticles_In deltaMs q : forall ps,
  In q (sweepParticles deltaMs ps) ->
  exists p, In p ps /\ particleUpdate deltaMs p = (q, false).
Proof.
  induction ps as [|p ps IH]; cbn [sweepParticles fold_right]; [intros []|].
  fold (sweepParticles deltaMs ps).
  destruct (particleUpdate deltaMs p) as [p' dead] eqn:E.
  destruct dead.
  - intros I. destruct (IH I) as [r [R1 R2]]. exists r. split; [now right|exact R2].
  - intros [<-|I].
    + exists p. split; [now left|exact E].
    + destruct (IH I) as [r [R1 R2]]. exists r. split; [now right|exact R2].
Qed.

Lemma sweepParticles_all_dead deltaMs : forall ps,
  Forall (fun p => snd (particleUpdate deltaMs p) = true) ps ->
  sweepParticles deltaMs ps = [].
Proof.
  induction ps as [|p ps IH]; intros F; [reflexivity|].
  cbn [sweepParticles fold_right]. fold (sweepParticles deltaMs ps).
  pose proof (Forall_inv F) as H. cbn beta in H.
  destruct (particleUpdate deltaMs p) as [p' dead]. cbn [snd] in H. subst dead.
  apply IH. exact (Forall_inv_tail F).
Qed.

(** *** The emission loop *)

Lemma emission_frame texture rand : forall fuel f,
  sameFrame f (emission fuel texture rand f).
Proof.
  induction fuel as [|fuel IH]; intros f; cbn [emission].
  - repeat split.
  - destruct (Qle_bool _ _); [|repeat split].
    destruct (IH (set_emissionTimer
                    (emissionTimer (spawnParticle texture rand f) -
                     emissionInterval (spawnParticle texture rand f))
                    (spawnParticle texture rand f)))
      as [H1 [H2 [H3 [H4 [H5 [H6 H7]]]]]].
    unfold sameFrame. rewrite H1, H2, H3, H4, H5, H6, H7.
    destruct texture; repeat split.
Qed.

Lemma emission_texture rand : forall fuel f,
  emissionInterval f = 10 -> 0 <= emissionTimer f ->
  emissionTimer f < 10 * inject_Z (Z.of_nat fuel) ->
  exists n : nat,
    particles (emission fuel true rand f) =
      particles f ++ map (freshParticle rand f) (seq 0 n) /\
    drawn (emission fuel true rand f) = (drawn f + 2 * n)%nat /\
    consoleErrors (emission fuel true rand f) = consoleErrors f /\
    emissionTimer (emission fuel true rand f) ==
      emissionTimer f - 10 * inject_Z (Z.of_nat n) /\
    0 <= emissionTimer (emission fuel true rand f) /\
    emissionTimer (emission fuel true rand f) < 10.
Proof.
  induction fuel as [|fuel IH]; intros f I T0 T1.
  - exfalso. change (inject_Z (Z.of_nat 0)) with 0 in T1. lra.
  - cbn [emission]. rewrite I.
    destruct (Qle_bool 10 (emissionTimer f)) eqn:E.
    + apply Qle_bool_iff in E.
      set (g := set_emissionTimer _ _).
      assert (G1 : emissionTimer g = emissionTimer f - 10)
        by (unfold g; cbn; now rewrite I).
      assert (G2 : particles g = particles f ++ [freshParticle rand f 0]).
      { unfold g, freshParticle. cbn. now rewrite Nat.add_0_r. }
      assert (G3 : drawn g = S (S (drawn f))) by reflexivity.
      assert (G4 : consoleErrors g = consoleErrors f) by reflexivity.
      assert (G5 : forall k, freshParticle rand g k = freshParticle rand f (S k)).
      { intros k. unfold freshParticle. rewrite G3.
        replace (S (S (drawn f)) + 2 * k)%nat
          with (drawn f + 2 * S k)%nat by lia.
        reflexivity. }
      rewrite Nat2Z.inj_succ in T1. unfold Z.succ in T1.
      rewrite inject_Z_plus in T1. change (inject_Z 1) with 1 in T1.
      destruct (IH g) as [n [N1 [N2 [N3 [N4 [N5 N6]]]]]];
        [exact I | rewrite G1; lra | rewrite G1; lra |].
      exists (S n). split; [|split; [|split; [|split; [|split]]]];
        [ | | | | exact N5 | exact N6].
      * rewrite N1, G2, <- app_assoc. cbn [app seq map]. do 2 f_equal.
        rewrite <- seq_shift, map_map. apply map_ext. exact G5.
      * rewrite N2, G3. lia.
      * now rewrite N3.
      * rewrite N4, G1, Nat2Z.inj_succ. unfold Z.succ.
        rewrite inject_Z_plus. change (inject_Z 1) with 1. ring.
    + exists 0%nat. cbn [seq map]. rewrite app_nil_r, Nat.add_0_r.
      assert (L : emissionTimer f < 10).
      { apply Qnot_le_lt. intros C. apply Qle_bool_iff in C. congruence. }
      split; [|split; [|split; [|split; [|split]]]];
        [reflexivity | reflexivity | reflexivity | | exact T0 | exact L].
      change (inject_Z (Z.of_nat 0)) with 0. ring.
Qed.

Lemma emission_no_texture rand : forall fuel f,
  emissionInterval f = 10 -> 0 <= emissionTimer f ->
  emissionTimer f < 10 * inject_Z (Z.of_nat fuel) ->
  exists n : nat,
    particles (emission fuel false rand f) = particles f /\
    drawn (emission fuel false rand f) = drawn f /\
    consoleErrors (emission fuel false rand f) = (consoleErrors f + n)%nat /\
    emissionTimer (emission fuel false rand f) ==
      emissionTimer f - 10 * inject_Z (Z.of_nat n) /\
    0 <= emissionTimer (emission fuel false rand f) /\
    emissionTimer (emission fuel false rand f) < 10.
Proof.
  induction fuel as [|fuel IH]; intros f I T0 T1.
  - exfalso. change (inject_Z (Z.of_nat 0)) with 0 in T1. lra.
  - cbn [emission]. rewrite I.
    destruct (Qle_bool 10 (emissionTimer f)) eqn:E.
    + apply Qle_bool_iff in E.
      set (g := set_emissionTimer _ _).
      assert (G1 : emissionTimer g = emissionTimer f - 10)
        by (unfold g; cbn; now rewrite I).
      assert (G2 : particles g = particles f) by reflexivity.
      assert (G3 : drawn g = drawn f) by reflexivity.
      assert (G4 : consoleErrors g = S (consoleErrors f)) by reflexivity.
      rewrite Nat2Z.inj_succ in T1. unfold Z.succ in T1.
      rewrite inject_Z_plus in T1. change (inject_Z 1) with 1 in T1.
      destruct (IH g) as [n [N1 [N2 [N3 [N4 [N5 N6]]]]]];
        [exact I | rewrite G1; lra | rewrite G1; lra |].
      exists (S n). split; [|split; [|split; [|split; [|split]]]];
        [ | | | | exact N5 | exact N6].
      * now rewrite N1.
      * now rewrite N2.
      * rewrite N3, G4. lia.
      * rewrite N4, G1, Nat2Z.inj_succ. unfold Z.succ.
        rewrite inject_Z_plus. change (inject_Z 1) with 1. ring.
    + exists 0%nat. rewrite Nat.add_0_r.
      assert (L : emissionTimer f < 10).
      { apply Qnot_le_lt. intros C. apply Qle_bool_iff in C. congruence. }
      split; [|split; [|split; [|split; [|split]]]];
        [reflexivity | reflexivity | reflexivity | | exact T0 | exact L].
      change (inject_Z (Z.of_nat 0)) with 0. ring.
Qed.

(** The rounds allowed are more than the loop takes. *)
Lemma emissionRounds_enough f :
  emissionInterval f = 10 -> 0 <= emissionTimer f ->
  emissionTimer f < 10 * inject_Z (Z.of_nat (emissionRounds f)).
Proof.
  intros I T. unfold emissionRounds. rewrite I.
  set (q := emissionTimer f / 10).
  assert (Q0 : 0 <= q).
  { unfold q, Qdiv. apply Qmult_le_0_compat; [exact T | discriminate]. }
  assert (F0 : (0 <= Qfloor q)%Z).
  { change 0%Z with (Qfloor 0). now apply Qfloor_resp_le. }
  rewrite Nat2Z.inj_succ, Z2Nat.id by exact F0.
  pose proof (Qlt_floor q) as H.
  assert (E : emissionTimer f == 10 * q) by (unfold q; field).
  rewrite E. unfold Z.succ. lra.
Qed.


(** *** One update *)

Lemma inFlight_ready p : inFlight p -> ready p.
Proof. intros [A [B [C [D _]]]]. repeat split; assumption. Qed.

Lemma freshParticle_ready rand f k : ready (freshParticle rand f k).
Proof. repeat split. cbn. apply Qle_refl. Qed.

Lemma sweepParticles_inFlight deltaMs ps :
  0 <= deltaMs -> Forall ready ps ->
  Forall inFlight (sweepParticles deltaMs ps).
Proof.
  intros D R. apply Forall_forall. intros q I.
  destruct (sweepParticles_In deltaMs q ps I) as [p [P1 P2]].
  rewrite Forall_forall in R. destruct (R p P1) as [A [B [C T]]].
  change q with (fst (q, false)). rewrite <- P2.
  apply particleUpdate_inFlight; try assumption. now rewrite P2.
Qed.

(** An update while the fountain emits. *)
Lemma update_emitting deltaMs texture rand f :
  emissionInterval f = 10 -> 0 <= emissionTimer f -> 0 <= deltaMs ->
  isEmitting f = true ->
  exists n : nat,
    particles (update 1 (Some deltaMs) texture rand f) =
      sweepParticles deltaMs
        (particles f ++
         if texture then map (freshParticle rand f) (seq 0 n) else []) /\
    drawn (update 1 (Some deltaMs) texture rand f) =
      (drawn f + if texture then 2 * n else 0)%nat /\
    consoleErrors (update 1 (Some deltaMs) texture rand f) =
      (consoleErrors f + if texture then 0 else n)%nat /\
    emissionTimer (update 1 (Some deltaMs) texture rand f) ==
      emissionTimer f + deltaMs - 10 * inject_Z (Z.of_nat n) /\
    0 <= emissionTimer (update 1 (Some deltaMs) texture rand f) /\
    emissionTimer (update 1 (Some deltaMs) texture rand f) < 10 /\
    emissionInterval (update 1 (Some deltaMs) texture rand f) = 10 /\
    isEmitting (update 1 (Some deltaMs) texture rand f) = true /\
    onTicker (update 1 (Some deltaMs) texture rand f) = onTicker f /\
    containerOnStage (update 1 (Some deltaMs) texture rand f) =
      containerOnStage f.
Proof.
  intros I T D E. unfold update.
  cbn [set_fountainActiveTime isEmitting emissionTimer]. rewrite E.
  set (f' := set_emissionTimer _ _).
  assert (I' : emissionInterval f' = 10) by exact I.
  assert (T' : 0 <= emissionTimer f') by (unfold f'; cbn; lra).
  pose proof (emissionRounds_enough f' I' T') as R.
  destruct (emission_frame texture rand (emissionRounds f') f')
    as [H1 [H2 [H3 [H4 [H5 [H6 H7]]]]]].
  set (f2 := emission (emissionRounds f') texture rand f') in *.
  cbn [set_particles isEmitting]. rewrite H3.
  change (isEmitting f') with (isEmitting f). rewrite E. cbn [negb andb].
  cbn [set_particles particles drawn consoleErrors emissionTimer
       emissionInterval isEmitting onTicker containerOnStage].
  rewrite H1, H3, H6, H7.
  change (isEmitting f') with (isEmitting f).
  change (onTicker f') with (onTicker f).
  change (containerOnStage f') with (containerOnStage f).
  change (emissionTimer f') with (emissionTimer f + deltaMs) in *.
  destruct texture.
  - destruct (emission_texture rand (emissionRounds f') f' I' T' R)
      as [n [N1 [N2 [N3 [N4 [N5 N6]]]]]].
    fold f2 in N1, N2, N3, N4, N5, N6. exists n.
    rewrite N1, N2, N3, Nat.add_0_r.
    repeat split; assumption.
  - destruct (emission_no_texture rand (emissionRounds f') f' I' T' R)
      as [n [N1 [N2 [N3 [N4 [N5 N6]]]]]].
    fold f2 in N1, N2, N3, N4, N5, N6. exists n.
    rewrite N1, N2, N3, Nat.add_0_r, app_nil_r.
    repeat split; assumption.
Qed.

(** An update after the emission has stopped. *)
Lemma update_stopped deltaMs texture rand f :
  isEmitting f = false ->
  update 1 (Some deltaMs) texture rand f =
  let f1 := set_fountainActiveTime (fountainActiveTime f + deltaMs) f in
  match sweepParticles deltaMs (particles f) with
  | [] => destroy (set_particles [] f1)
  | ps => set_particles ps f1
  end.
Proof.
  intros E. unfold update. cbv zeta.
  set (f1 := set_fountainActiveTime _ f).
  change (isEmitting f1) with (isEmitting f). rewrite E.
  change (isEmitting (set_particles _ f1)) with (isEmitting f). rewrite E.
  change (particles f1) with (particles f).
  cbn [set_particles particles negb andb].
  destruct (sweepParticles deltaMs (particles f)); reflexivity.
Qed.

(** Without the texture the loop spawns nothing, whatever the timer. *)
Lemma emission_untextured rand : forall fuel f,
  particles (emission fuel false rand f) = particles f /\
  drawn (emission fuel false rand f) = drawn f.
Proof.
  induction fuel as [|fuel IH]; intros f; cbn [emission]; [now split|].
  destruct (Qle_bool _ _); [|now split].
  destruct (IH (set_emissionTimer
                  (emissionTimer (spawnParticle false rand f) -
                   emissionInterval (spawnParticle false rand f))
                  (spawnParticle false rand f))) as [H1 H2].
  rewrite H1, H2. now split.
Qed.

(** *** Runs *)

Lemma settled_new canvasCenterX canvasCenterY x y drawn0 :
  settled (newFountain canvasCenterX canvasCenterY x y drawn0).
Proof.
  unfold settled, newFountain. cbn.
  repeat split; try discriminate; try constructor.
Qed.

Lemma fresh_ready rand f texture n :
  Forall ready (if texture : bool then map (freshParticle rand f) (seq 0 n) else []).
Proof.
  destruct texture; [|constructor]. apply Forall_forall. intros p I.
  apply in_map_iff in I. destruct I as [k [<- _]]. apply freshParticle_ready.
Qed.

Lemma settled_step rand f e :
  match e with Tick deltaMs _ => 0 <= deltaMs | EmissionTimeout => True end ->
  settled f -> settled (step rand f e).
Proof.
  intros D S0. pose proof S0 as [I [T0 [T1 [F [Off On]]]]].
  destruct e as [deltaMs texture|].
  - cbn [step]. destruct (onTicker f) eqn:O; [|exact S0].
    destruct (isEmitting f) eqn:E.
    + destruct (update_emitting deltaMs texture rand f I T0 D E)
        as [n [N1 [_ [_ [_ [N5 [N6 [N7 [N8 [N9 N10]]]]]]]]]].
      unfold settled. rewrite N1, N7, N8, N9, N10, O.
      split; [reflexivity|]. split; [exact N5|]. split; [exact N6|].
      split; [|split; [discriminate | intros _; now apply On]].
      apply sweepParticles_inFlight; [exact D|].
      apply Forall_app. split.
      * eapply Forall_impl; [|exact F]. apply inFlight_ready.
      * apply fresh_ready.
    + rewrite update_stopped by exact E. cbv zeta.
      pose proof (sweepParticles_inFlight deltaMs (particles f) D) as S'.
      destruct (sweepParticles deltaMs (particles f)) as [|q qs].
      * unfold settled. cbn. repeat split; try assumption; try constructor.
        discriminate.
      * unfold settled. cbn. rewrite O.
        split; [exact I|]. split; [exact T0|]. split; [exact T1|].
        split; [|split; [discriminate | intros _; now apply On]].
        apply S'. eapply Forall_impl; [|exact F]. apply inFlight_ready.
  - unfold settled. cbn.
    split; [exact I|]. split; [exact T0|]. split; [exact T1|].
    split; [exact F|]. split; [|exact On].
    intros O. destruct (Off O) as [_ [A B]]. now repeat split.
Qed.

Lemma settled_run rand : forall es f,
  forwardTicks es -> settled f -> settled (run rand es f).
Proof.
  induction es as [|e es IH]; intros f F S'; [exact S'|].
  cbn [run fold_left]. apply IH; [exact (Forall_inv_tail F)|].
  apply settled_step; [exact (Forall_inv F) | exact S'].
Qed.

Lemma run_app rand es1 es2 f :
  run rand (es1 ++ es2) f = run rand es2 (run rand es1 f).
Proof. unfold run. apply fold_left_app. Qed.

(** *** Launch velocities *)




(** *** A fountain without its texture *)

Lemma update_particles delta tickerDeltaMS texture rand f :
  exists f2,
    particles (update delta tickerDeltaMS texture rand f) =
      sweepParticles
        (match tickerDeltaMS with Some d => d | None => delta * (1000 / 60) end)
        (particles f2) /\
    drawn (update delta tickerDeltaMS texture rand f) = drawn f2 /\
    f2 = (let deltaMs :=
            match tickerDeltaMS with Some d => d | None => delta * (1000 / 60) end in
          let f1 := set_fountainActiveTime (fountainActiveTime f + deltaMs) f in
          if isEmitting f1
          then emission (emissionRounds
                           (set_emissionTimer (emissionTimer f1 + deltaMs) f1))
                        texture rand
                        (set_emissionTimer (emissionTimer f1 + deltaMs) f1)
          else f1).
Proof.
  eexists. split; [|split; [|reflexivity]]; unfold update; cbv zeta;
    match goal with |- context [if ?c then destroy ?a else _] =>
      destruct c eqn:C end; cbn [destroy set_particles particles drawn];
    try reflexivity.
  apply andb_true_iff in C. destruct C as [_ C].
  apply Nat.eqb_eq, length_zero_iff_nil in C. cbn [set_particles particles] in C.
  now rewrite C.
Qed.

Lemma untextured_step rand f e :
  match e with Tick _ texture => texture = false | EmissionTimeout => True end ->
  particles f = [] ->
  particles (step rand f e) = [] /\ drawn (step rand f e) = drawn f.
Proof.
  intros M P. destruct e as [deltaMs texture|]; [|now split].
  subst texture. cbn [step]. destruct (onTicker f); [|now split].
  destruct (update_particles 1 (Some deltaMs) false rand f) as [f2 [A [B C]]].
  rewrite A, B, C. cbv zeta.
  destruct (isEmitting _).
  - destruct (emission_untextured rand
                (emissionRounds
                   (set_emissionTimer
                      (emissionTimer
                         (set_fountainActiveTime (fountainActiveTime f + deltaMs) f) +
                       deltaMs)
                      (set_fountainActiveTime (fountainActiveTime f + deltaMs) f)))
                (set_emissionTimer
                   (emissionTimer
                      (set_fountainActiveTime (fountainActiveTime f + deltaMs) f) +
                    deltaMs)
                   (set_fountainActiveTime (fountainActiveTime f + deltaMs) f)))
      as [H1 H2].
    rewrite H1, H2. cbn [set_emissionTimer set_fountainActiveTime particles drawn].
    rewrite P. now split.
  - cbn [set_fountainActiveTime particles drawn]. rewrite P. now split.
Qed.

(** *** After the emission has stopped *)

Lemma fading_step rand T f e :
  fading T f ->
  fading (match e with Tick deltaMs _ => T - deltaMs | EmissionTimeout => T end)
         (step rand f e).
Proof.
  intros K0. pose proof K0 as [E [On Off]]. destruct e as [deltaMs texture|].
  - cbn [step]. destruct (onTicker f) eqn:O.
    + rewrite update_stopped by exact E. cbv zeta.
      destruct (On eq_refl) as [A _].
      destruct (sweepParticles deltaMs (particles f)) as [|q qs] eqn:S'.
      * unfold fading. cbn. split; [exact E|]. split; [discriminate|]. now split.
      * assert (B : forall r, In r (q :: qs) ->
                      lifetime r <= timeAlive r + (T - deltaMs) /\
                      timeAlive r < lifetime r).
        { intros r R. rewrite <- S' in R.
          destruct (sweepParticles_In deltaMs r (particles f) R) as [p [P1 P2]].
          rewrite Forall_forall in A. specialize (A p P1).
          assert (P3 : snd (particleUpdate deltaMs p) = false) by now rewrite P2.
          apply particleUpdate_alive in P3.
          replace r with (fst (particleUpdate deltaMs p)) by now rewrite P2.
          cbn [particleUpdate fst lifetime timeAlive]. split; lra. }
        unfold fading. cbn. rewrite O. split; [exact E|].
        split; [|discriminate]. intros _. split.
        -- apply Forall_forall. intros r R. now apply B.
        -- right. split; [discriminate|].
           apply Forall_forall. intros r R. now apply B.
    + split; [exact E|]. split; [intros C; congruence | intros _; now apply Off].
  - exact (conj eq_refl (conj On Off)).
Qed.

Lemma fading_run rand : forall es T f,
  fading T f -> T <= elapsed es ->
  onTicker (run rand es f) = false /\ particles (run rand es f) = [] /\
  containerOnStage (run rand es f) = false.
Proof.
  induction es as [|e es IH]; intros T f K L.
  - cbn [run fold_left]. cbn in L. destruct K as [_ [On Off]].
    destruct (onTicker f) eqn:O; [exfalso | now split; [|apply Off]].
    destruct (On eq_refl) as [A [B|[B1 B2]]]; [lra|].
    destruct (particles f) as [|p ps]; [now apply B1|].
    pose proof (Forall_inv A) as A1. pose proof (Forall_inv B2) as A2.
    cbn beta in A1, A2. lra.
  - cbn [run fold_left]. apply (IH _ _ (fading_step rand T f e K)).
    cbn [elapsed fold_right] in L. fold (elapsed es) in L.
    destruct e; lra.
Qed.

Lemma settled_fading f :
  settled f -> fading 1500 (set_isEmitting false f).
Proof.
  intros [_ [_ [_ [F [Off _]]]]]. unfold fading. cbn.
  split; [reflexivity|]. split.
  - intros _. split; [|left; reflexivity].
    eapply Forall_impl; [|exact F]. intros p [L [_ [_ [T _]]]].
    rewrite L. lra.
  - intros O. destruct (Off O) as [_ [A B]]. now split.
Qed.

End FountainFacts.

(* ================================================================== *)
(** ** The reels in every world the game can reach *)

(** X1. However the game is played, there are three reels of ten
    symbols each: no symbol is ever added to or removed from a strip. *)
Theorem reels_keep_their_symbols (draws : nat -> nat) (trace : list event) :
  length (reels (played draws trace)) = 3%nat /\
  Forall (fun r => length (symbols r) = 10%nat) (reels (played draws trace)).
Proof.
  destruct (geometry_reachable draws trace) as [L [F _]].
  split; [exact L|].
  eapply Forall_impl; [|exact F]. intros r [_ [_ [H _]]]. exact H.
Qed.

(** X2. No reel position and no symbol offset ever becomes NaN. *)
Theorem positions_stay_finite (draws : nat -> nat) (trace : list event) :
  Forall (fun r => finite (position r) /\ finite (previousPosition r) /\
                   Forall (fun s => finite (sym_y s)) (symbols r))
         (reels (played draws trace)).
Proof.
  destruct (geometry_reachable draws trace) as [_ [F _]].
  eapply Forall_impl; [|exact F]. intros r [H1 [H2 [_ H4]]].
  split; [exact H1|]. split; [exact H2|].
  apply Forall_forall. intros s I.
  destruct (In_nth_error _ _ I) as [j J].
  apply (H4 j (sym_y s)). now apply map_nth_error.
Qed.


(** X4. While no spin is in progress every reel rests on a cell
    boundary: its position is a whole multiple of the cell height. *)
Theorem resting_reels_on_cell_boundary (draws : nat -> nat) (trace : list event) :
  spinning (played draws trace) = false ->
  Forall (fun r => exists (q : Q) (m : Z),
                     position r = Num q /\ (q == 200 * inject_Z m)%Q)
         (reels (played draws trace)).
Proof.
  intros Idle.
  destruct (geometry_reachable draws trace) as [_ [F [_ A]]].
  destruct (session_reachable draws trace) as [_ Hs].
  fold (played draws trace) in F, A, Hs. rewrite Idle in Hs.
  destruct Hs as [Q0 _].
  apply Forall_nth_error. intros i r Hr.
  assert (Al : alignedCell (position r)).
  { apply (A i r Hr). rewrite Q0. intros tw []. }
  rewrite Forall_nth_error in F. destruct (F i r Hr) as [[q Hq] _].
  rewrite Hq in Al. apply alignedCell_iff in Al. destruct Al as [m Hm].
  now exists q, m.
Qed.

Lemma resting_reels_on_cell_boundary_witness :
  Forall (fun r => exists (q : Q) (m : Z),
                     position r = Num q /\ (q == 200 * inject_Z m)%Q)
         (reels (played countingDraws (Spin false (fun _ => 0) :: frames16 188))).
Proof.
  apply (resting_reels_on_cell_boundary
           countingDraws (Spin false (fun _ => 0) :: frames16 188)).
  vm_compute. reflexivity.
Defined.

(** X5. During a spin a reel that has no animation callback pending
    has already stopped on a cell boundary. *)
Theorem stopped_reel_on_cell_boundary
        (draws : nat -> nat) (trace : list event) (i : nat) (r : reel) :
  nth_error (reels (played draws trace)) i = Some r ->
  ~ In i (map tw_index (rafQueue (played draws trace))) ->
  exists (q : Q) (m : Z), position r = Num q /\ (q == 200 * inject_Z m)%Q.
Proof.
  intros Hr N.
  destruct (geometry_reachable draws trace) as [_ [F [_ A]]].
  fold (played draws trace) in F, A.
  assert (Al : alignedCell (position r)).
  { apply (A i r Hr). intros tw I E. apply N. rewrite <- E. now apply in_map. }
  rewrite Forall_nth_error in F. destruct (F i r Hr) as [[q Hq] _].
  rewrite Hq in Al. apply alignedCell_iff in Al. destruct Al as [m Hm].
  now exists q, m.
Qed.

(** X6. Two symbols of a strip are never both within tolerance of the
    win line, so the sampler's [break] at the first match loses
    nothing: it returns the texture of the symbol at the win line
    whenever there is one. *)
Theorem win_line_symbol_unique (draws : nat -> nat) (trace : list event) :
  Forall (fun r =>
            (forall j j' s s',
                nth_error (symbols r) j = Some s ->
                nth_error (symbols r) j' = Some s' ->
                atWinLine s = true -> atWinLine s' = true -> j = j') /\
            (forall t,
                middleSymbolTexture (symbols r) = Some t <->
                exists j s, nth_error (symbols r) j = Some s /\
                            atWinLine s = true /\ t = sym_texture s))
         (reels (played draws trace)).
Proof.
  destruct (geometry_reachable draws trace) as [_ [F _]].
  eapply Forall_impl; [|exact F]. intros r R.
  assert (U : forall j j' s s',
             nth_error (symbols r) j = Some s ->
             nth_error (symbols r) j' = Some s' ->
             atWinLine s = true -> atWinLine s' = true -> j = j').
  { intros j j' s s' J J' N N'.
    exact (reelInStep_center_unique r j j' s s' R J J' N N'). }
  split; [exact U|]. intros t. split.
  - apply middleSymbolTexture_first.
  - intros [j [s [J [N ->]]]].
    destruct (middleSymbolTexture (symbols r)) as [t'|] eqn:M.
    + destruct (middleSymbolTexture_first _ _ M) as [j' [s' [J' [N' ->]]]].
      assert (E : j' = j) by exact (U j' j s' s J' J N' N).
      subst j'. congruence.
    + rewrite middleSymbolTexture_none in M.
      pose proof (M s (nth_error_In _ _ J)) as C.
      unfold atWinLine in N. congruence.
Qed.

Lemma stopped_reel_on_cell_boundary_witness :
  exists (q : Q) (m : Z),
    position (nth 0 (reels (played countingDraws
                              (Spin false (fun _ => 0) :: frames16 130)))
                  restingReel) = Num q /\
    (q == 200 * inject_Z m)%Q.
Proof.
  apply (stopped_reel_on_cell_boundary
           countingDraws (Spin false (fun _ => 0) :: frames16 130) 0).
  - vm_compute. reflexivity.
  - vm_compute. intros [H|[H|[]]]; discriminate H.
Defined.

(* ================================================================== *)
(** ** The spin session *)

(** X7. While no spin is in progress no animation callback is
    pending, and every spin so far has counted all three reels and
    resolved its promise exactly once. *)
Theorem idle_game_has_no_pending_animation
        (draws : nat -> nat) (trace : list event) :
  spinning (played draws trace) = false ->
  rafQueue (played draws trace) = [] /\
  Forall (fun c => reelsStopping c = 3%nat /\ resolved c = 1%nat /\
                   awaited c = true)
         (spinCalls (played draws trace)).
Proof.
  intros Idle. destruct (session_reachable draws trace) as [_ Hs].
  fold (played draws trace) in Hs. rewrite Idle in Hs. exact Hs.
Qed.

Lemma idle_game_has_no_pending_animation_witness :
  rafQueue (played countingDraws (Spin false (fun _ => 0) :: frames16 188)) = [] /\
  Forall (fun c => reelsStopping c = 3%nat /\ resolved c = 1%nat /\
                   awaited c = true)
         (spinCalls (played countingDraws
                            (Spin false (fun _ => 0) :: frames16 188))).
Proof.
  apply (idle_game_has_no_pending_animation
           countingDraws (Spin false (fun _ => 0) :: frames16 188)).
  vm_compute. reflexivity.
Defined.

(** X8. While a spin is in progress exactly its own call is
    unresolved; the reels it has counted and the animation callbacks
    still pending add up to three, at least one callback is pending,
    all pending callbacks belong to that call, and no reel has two. *)
Theorem spinning_game_accounts_for_every_reel
        (draws : nat -> nat) (trace : list event) :
  spinning (played draws trace) = true ->
  exists (calls : list spinCall) (c : spinCall),
    spinCalls (played draws trace) = calls ++ [c] /\
    Forall (fun d => reelsStopping d = 3%nat /\ resolved d = 1%nat) calls /\
    resolved c = 0%nat /\
    (reelsStopping c + length (rafQueue (played draws trace)))%nat = 3%nat /\
    rafQueue (played draws trace) <> [] /\
    Forall (fun tw => tw_spin tw = length calls) (rafQueue (played draws trace)) /\
    NoDup (map tw_index (rafQueue (played draws trace))).
Proof.
  intros Sp. destruct (session_reachable draws trace) as [_ Hs].
  fold (played draws trace) in Hs. rewrite Sp in Hs.
  destruct Hs as [calls [c [H1 [H2 [_ [H4 [H5 [H6 [H7 H8]]]]]]]]].
  exists calls, c. repeat split; try assumption.
  eapply Forall_impl; [|exact H2]. intros d [A [B _]]. now split.
Qed.

Lemma spinning_game_accounts_for_every_reel_witness :
  exists (calls : list spinCall) (c : spinCall),
    spinCalls (played countingDraws (Spin false (fun _ => 0) :: frames16 130))
    = calls ++ [c] /\
    Forall (fun d => reelsStopping d = 3%nat /\ resolved d = 1%nat) calls /\
    resolved c = 0%nat /\
    (reelsStopping c +
     length (rafQueue (played countingDraws
                              (Spin false (fun _ => 0%Z) :: frames16 130))))%nat
    = 3%nat /\
    rafQueue (played countingDraws (Spin false (fun _ => 0) :: frames16 130))
    <> [] /\
    Forall (fun tw => tw_spin tw = length calls)
           (rafQueue (played countingDraws
                             (Spin false (fun _ => 0) :: frames16 130))) /\
    NoDup (map tw_index
               (rafQueue (played countingDraws
                                 (Spin false (fun _ => 0) :: frames16 130)))).
Proof.
  apply (spinning_game_accounts_for_every_reel
           countingDraws (Spin false (fun _ => 0) :: frames16 130)).
  vm_compute. reflexivity.
Defined.


(** X10. The eased progress of a reel tween, [backout(amount)(t)]:
    it is 0 at the start, 1 at the end, and for a positive amount it
    exceeds 1 (the reel is past its target) exactly while
    [1 / (amount + 1) < t < 1]. *)
Theorem backout_overshoots (a t : Q) :
  exists v : Q,
    backout (Num a) (Num t) = Num v /\
    (t == 0 -> v == 0)%Q /\
    (t == 1 -> v == 1)%Q /\
    (0 < a -> t < 1 -> (1 < v <-> 1 < (a + 1) * t))%Q.
Proof.
  destruct (backout_rational a t) as [v [E V]].
  exists v. split; [exact E|].
  assert (V' : (v - 1 == (t - 1) * (t - 1) * ((a + 1) * t - 1))%Q)
    by (rewrite V; ring).
  split; [|split].
  - intros T. rewrite V, T. ring.
  - intros T. rewrite V, T. ring.
  - intros A T.
    assert (P : (0 < (t - 1) * (t - 1))%Q).
    { setoid_replace ((t - 1) * (t - 1))%Q with ((1 - t) * (1 - t))%Q by ring.
      apply Qmult_lt_0_compat; lra. }
    set (s := ((t - 1) * (t - 1))%Q) in *. clearbody s.
    set (u := ((a + 1) * t - 1)%Q) in *.
    assert (U : ((a + 1) * t == u + 1)%Q) by (unfold u; ring).
    rewrite U. clearbody u. split; intros H.
    + destruct (Qlt_le_dec 0 u) as [Hu|Hu]; [lra|]. exfalso.
      assert (C : (s * u <= 0)%Q).
      { setoid_replace (s * u)%Q with (- (s * - u))%Q by ring.
        assert (0 <= s * - u)%Q by (apply Qmult_le_0_compat; lra). lra. }
      lra.
    + assert (0 < s * u)%Q by (apply Qmult_lt_0_compat; lra). lra.
Qed.

(* ================================================================== *)
(** ** The cascade of a spin *)

Lemma frames_queue_suffix k results forceWin (s : Z) (a : nat) (rs : list reel) :
  forall (clocks : list Z) (w : world) (n : nat),
    rafQueue w = skipn n (spinTweensFrom k results forceWin (fun _ => s) a rs) ->
    exists n',
      rafQueue (run (framesAt clocks) w)
      = skipn n' (spinTweensFrom k results forceWin (fun _ => s) a rs).
Proof.
  induction clocks as [|c clocks IH]; intros w n H.
  - exists n. exact H.
  - cbn [framesAt map run fold_left step].
    destruct (spinTweensFrom_filter k results forceWin s c (skipn n rs) (a + n))
      as [n2 F].
    apply (IH (frame (fun _ => c) w) (n2 + n)%nat).
    rewrite frame_queue, H, spinTweensFrom_skipn, F.
    rewrite <- spinTweensFrom_skipn. apply skipn_skipn.
Qed.

(** X11. The reels stop from left to right: after an accepted spin
    whose tweens were created at one clock reading, and any number of
    frames, the reels still animating are the last ones, [m], ...,
    [2], for some [m]. *)
Theorem reels_stop_left_to_right
        (draws : nat -> nat) (trace : list event) (forceWin : bool)
        (s : Z) (clocks : list Z) :
  spinning (played draws trace) = false ->
  SPIN_COST <= balance (played draws trace) ->
  exists m : nat,
    map tw_index
        (rafQueue (run (framesAt clocks)
                       (startSpin forceWin (fun _ => s) (played draws trace))))
    = seq m (3 - m).
Proof.
  intros Idle Funds.
  destruct (session_reachable draws trace) as [L3 Hs].
  fold (played draws trace) in L3, Hs. rewrite Idle in Hs.
  destruct Hs as [Q0 _].
  destruct (startSpin_cases forceWin (fun _ => s) (played draws trace))
    as [[C _]|[[_ [C _]]|[_ [_ [_ [_ [_ [_ [_ Hq]]]]]]]]];
    [congruence | lia |].
  rewrite Q0 in Hq. cbn [app] in Hq.
  destruct (frames_queue_suffix _ _ _ _ _ _ clocks _ 0%nat Hq) as [n Hn].
  exists n. rewrite Hn, spinTweensFrom_skipn, spinTweensFrom_index.
  rewrite length_skipn, L3. reflexivity.
Qed.

Lemma reels_stop_left_to_right_witness :
  exists m : nat,
    map tw_index
        (rafQueue (run (framesAt [1000; 2100; 2600])
                       (startSpin false (fun _ => 0) (played countingDraws []))))
    = seq m (3 - m).
Proof.
  apply (reels_stop_left_to_right countingDraws [] false 0 [1000; 2100; 2600]).
  - vm_compute. reflexivity.
  - vm_compute. discriminate.
Defined.

(* ================================================================== *)
(** ** The forced win *)

Lemma drawResults_spec (len : nat) : forall (n : nat) (g : random),
  length (fst (drawResults n len g)) = n /\
  (0 < len -> Forall (fun i => i < len) (fst (drawResults n len g)))%nat /\
  used (snd (drawResults n len g)) = (used g + n)%nat.
Proof.
  induction n as [|n IH]; intros g; cbn [drawResults].
  - cbn. repeat split; [constructor | lia].
  - unfold randomIndex.
    specialize (IH (mkRandom (source g) (S (used g)))).
    destruct (drawResults n len (mkRandom (source g) (S (used g))))
      as [rest g2]. cbn [fst snd used length] in *.
    destruct IH as [A [B C]]. split; [now rewrite A|]. split; [|lia].
    intros P. constructor; [|now apply B].
    destruct (Nat.eqb_spec len 0); [lia|]. apply Nat.mod_upper_bound. lia.
Qed.

(** X12. The three results of a spin: always three; indices of
    loaded textures when there are textures; one draw repeated three
    times for a forced win, three draws otherwise. *)
Theorem chooseResults_are_texture_indices
        (forceWin : bool) (len : nat) (g : random) :
  length (fst (chooseResults forceWin len g)) = 3%nat /\
  ((0 < len)%nat ->
   Forall (fun i => (i < len)%nat) (fst (chooseResults forceWin len g))) /\
  (forceWin = true ->
   exists i, fst (chooseResults forceWin len g) = [i; i; i]) /\
  used (snd (chooseResults forceWin len g))
  = (used g + if forceWin then 1 else 3)%nat.
Proof.
  unfold chooseResults. destruct forceWin.
  - unfold randomIndex. cbn [fst snd repeat length used].
    split; [reflexivity|]. split; [|split; [|lia]].
    + intros P.
      assert (B : ((if Nat.eqb len 0 then 0
                    else Nat.modulo (source g (used g)) len) < len)%nat).
      { destruct (Nat.eqb_spec len 0); [lia|].
        apply Nat.mod_upper_bound. lia. }
      repeat constructor; exact B.
    + intros _. eexists. reflexivity.
  - destruct (drawResults_spec len 3 g) as [A [B C]].
    split; [exact A|]. split; [exact B|]. split; [discriminate | exact C].
Qed.

Lemma sorted_first_three (l : list (nat * symbol)) :
  (3 <= length l)%nat ->
  exists x0 x1 x2 rest,
    sortByY l = x0 :: x1 :: x2 :: rest /\
    In x0 l /\ In x1 l /\ In x2 l /\
    notAbove x0 x1 /\ notAbove x1 x2.
Proof.
  intros L. pose proof (sortByY_perm l) as P.
  pose proof (sortByY_sorted l) as S'.
  pose proof (Permutation_length P) as E.
  destruct (sortByY l) as [|x0 [|x1 [|x2 rest]]]; cbn [length] in E; try lia.
  exists x0, x1, x2, rest. split; [reflexivity|].
  repeat split.
  - apply (Permutation_in _ P). now left.
  - apply (Permutation_in _ P). right. now left.
  - apply (Permutation_in _ P). right. right. now left.
  - apply Sorted_inv in S'. destruct S' as [_ H]. now apply HdRel_inv in H.
  - apply Sorted_inv in S'. destruct S' as [S' _].
    apply Sorted_inv in S'. destruct S' as [_ H]. now apply HdRel_inv in H.
Qed.

Lemma sorted_first_three_distinct (syms : list symbol) x0 x1 x2 rest :
  sortByY (visibleFrom 0 syms) = x0 :: x1 :: x2 :: rest ->
  fst x0 <> fst x1 /\ fst x1 <> fst x2 /\ fst x0 <> fst x2.
Proof.
  intros E. pose proof (visibleFrom_NoDup syms 0) as N.
  apply (Permutation_NoDup
           (Permutation_map fst (Permutation_sym (sortByY_perm _)))) in N.
  rewrite E in N. cbn [map] in N.
  apply NoDup_cons_iff in N. destruct N as [N0 N].
  apply NoDup_cons_iff in N. destruct N as [N1 _].
  cbn [In] in N0, N1. repeat split; intros C.
  - apply N0. left. now symmetry.
  - apply N1. left. now symmetry.
  - apply N0. right. left. now symmetry.
Qed.

(** X13. The forced-win adjustment, when at least three symbols are
    inside the visible area: the three it picks are three different
    symbols of the strip inside the visible area, in top-to-bottom
    order; the middle one gets the winning texture; the top and the
    bottom one get a texture other than the winning one (or none at
    all when there is no other texture); every other symbol and every
    offset stays as it is; two random draws are taken. *)
Theorem forced_win_dresses_the_window
        (textures : list Texture) (results : list nat) (index : nat)
        (syms : list symbol) (g : random) :
  (3 <= length (visibleFrom 0 syms))%nat ->
  exists (i0 i1 i2 : nat) (s0 s1 s2 : symbol) (t0 t2 : Texture),
    nth_error syms i0 = Some s0 /\ nth_error syms i1 = Some s1 /\
    nth_error syms i2 = Some s2 /\
    i0 <> i1 /\ i1 <> i2 /\ i0 <> i2 /\
    inVisibleArea s0 = true /\ inVisibleArea s1 = true /\
    inVisibleArea s2 = true /\
    nltb (sym_y s1) (sym_y s0) = false /\ nltb (sym_y s2) (sym_y s1) = false /\
    nth_error (fst (forceWinAdjust textures results index syms g)) i1
    = Some (set_texture (winningTextureOf textures results index) s1) /\
    nth_error (fst (forceWinAdjust textures results index syms g)) i0
    = Some (set_texture t0 s0) /\
    nth_error (fst (forceWinAdjust textures results index syms g)) i2
    = Some (set_texture t2 s2) /\
    (forall t, In t textures -> t <> winningTextureOf textures results index ->
               t0 <> winningTextureOf textures results index /\ In t0 textures /\
               t2 <> winningTextureOf textures results index /\ In t2 textures) /\
    ((forall t, In t textures -> t = winningTextureOf textures results index) ->
     t0 = TexUndefined /\ t2 = TexUndefined) /\
    (forall j, j <> i0 -> j <> i1 -> j <> i2 ->
               nth_error (fst (forceWinAdjust textures results index syms g)) j
               = nth_error syms j) /\
    map sym_y (fst (forceWinAdjust textures results index syms g))
    = map sym_y syms /\
    used (snd (forceWinAdjust textures results index syms g)) = S (S (used g)).
Proof.
  intros L.
  destruct (sorted_first_three _ L)
    as [[i0 s0] [[i1 s1] [[i2 s2] [rest [E [I0 [I1 [I2 [O01 O12]]]]]]]]].
  destruct (sorted_first_three_distinct _ _ _ _ _ E) as [D01 [D12 D02]].
  cbn [fst] in D01, D12, D02. unfold notAbove in O01, O12.
  cbn [snd] in O01, O12.
  apply visibleFrom_In in I0, I1, I2.
  rewrite Nat.sub_0_r in I0, I1, I2.
  destruct I0 as [_ [N0 V0]], I1 as [_ [N1 V1]], I2 as [_ [N2 V2]].
  set (win := winningTextureOf textures results index).
  set (others := filter (fun t => negb (Texture_eqb t win)) textures).
  pose proof (forceWinAdjust_offsets textures results index syms g) as Off.
  unfold forceWinAdjust in *. fold win in Off |- *. rewrite E in Off |- *.
  fold others in Off |- *.
  destruct (randomTexture others g) as [t0 g1] eqn:R0.
  destruct (randomTexture others g1) as [t2 g2] eqn:R2.
  cbn [fst snd] in Off |- *.
  exists i0, i1, i2, s0, s1, s2, t0, t2.
  assert (In_others : forall t, In t others <-> In t textures /\ t <> win).
  { intros t. unfold others. rewrite filter_In, negb_true_iff.
    split; intros [A B]; (split; [exact A|]).
    - intros C. apply Texture_eqb_eq in C. congruence.
    - destruct (Texture_eqb t win) eqn:C; [|reflexivity].
      apply Texture_eqb_eq in C. contradiction. }
  assert (T0 : t0 = fst (randomTexture others g)) by now rewrite R0.
  assert (T2 : t2 = fst (randomTexture others g1)) by now rewrite R2.
  repeat (split; [assumption|]).
  split; [|split; [|split; [|split; [|split; [|split; [|split]]]]]].
  - rewrite !nth_error_updateAt_texture.
    destruct (Nat.eqb_spec i2 i1); [congruence|].
    destruct (Nat.eqb_spec i0 i1); [congruence|].
    rewrite Nat.eqb_refl, N1. reflexivity.
  - rewrite !nth_error_updateAt_texture.
    destruct (Nat.eqb_spec i2 i0); [congruence|].
    destruct (Nat.eqb_spec i1 i0); [congruence|].
    rewrite Nat.eqb_refl, N0. reflexivity.
  - rewrite !nth_error_updateAt_texture.
    rewrite Nat.eqb_refl.
    destruct (Nat.eqb_spec i0 i2); [congruence|].
    destruct (Nat.eqb_spec i1 i2); [congruence|].
    rewrite N2. reflexivity.
  - intros t A B.
    assert (NE : others <> []).
    { intros C. assert (In t others) by now apply In_others.
      rewrite C in H. contradiction. }
    pose proof (randomTexture_In others g NE) as A0.
    pose proof (randomTexture_In others g1 NE) as A2.
    rewrite <- T0 in A0. rewrite <- T2 in A2.
    apply In_others in A0, A2. tauto.
  - intros A.
    assert (NI : forall t, ~ In t others).
    { intros t I. apply In_others in I. destruct I as [I1 I2].
      now apply I2, A. }
    assert (NE : others = []).
    { clear - NI. destruct others as [|t l]; [reflexivity|].
      exfalso. apply (NI t). now left. }
    rewrite T0, T2, NE. now rewrite !randomTexture_empty.
  - intros j J0 J1 J2. rewrite !nth_error_updateAt_texture.
    destruct (Nat.eqb_spec i2 j); [congruence|].
    destruct (Nat.eqb_spec i0 j); [congruence|].
    destruct (Nat.eqb_spec i1 j); [congruence|]. reflexivity.
  - exact Off.
  - replace g2 with (snd (randomTexture others g1)) by now rewrite R2.
    rewrite randomTexture_used.
    replace g1 with (snd (randomTexture others g)) by now rewrite R0.
    now rewrite randomTexture_used.
Qed.

Lemma forced_win_dresses_the_window_witness :
  exists (i0 i1 i2 : nat) (s0 s1 s2 : symbol) (t0 t2 : Texture),
    nth_error sampleStrip i0 = Some s0 /\ nth_error sampleStrip i1 = Some s1 /\
    nth_error sampleStrip i2 = Some s2 /\
    i0 <> i1 /\ i1 <> i2 /\ i0 <> i2 /\
    inVisibleArea s0 = true /\ inVisibleArea s1 = true /\
    inVisibleArea s2 = true /\
    nltb (sym_y s1) (sym_y s0) = false /\ nltb (sym_y s2) (sym_y s1) = false /\
    nth_error (fst (forceWinAdjust sampleTextures [2; 2; 2]%nat 0 sampleStrip (mkRandom countingDraws 0))) i1
    = Some (set_texture (winningTextureOf sampleTextures [2; 2; 2]%nat 0) s1) /\
    nth_error (fst (forceWinAdjust sampleTextures [2; 2; 2]%nat 0 sampleStrip (mkRandom countingDraws 0))) i0
    = Some (set_texture t0 s0) /\
    nth_error (fst (forceWinAdjust sampleTextures [2; 2; 2]%nat 0 sampleStrip (mkRandom countingDraws 0))) i2
    = Some (set_texture t2 s2) /\
    (forall t, In t sampleTextures -> t <> winningTextureOf sampleTextures [2; 2; 2]%nat 0 ->
               t0 <> winningTextureOf sampleTextures [2; 2; 2]%nat 0 /\ In t0 sampleTextures /\
               t2 <> winningTextureOf sampleTextures [2; 2; 2]%nat 0 /\ In t2 sampleTextures) /\
    ((forall t, In t sampleTextures -> t = winningTextureOf sampleTextures [2; 2; 2]%nat 0) ->
     t0 = TexUndefined /\ t2 = TexUndefined) /\
    (forall j, j <> i0 -> j <> i1 -> j <> i2 ->
               nth_error (fst (forceWinAdjust sampleTextures [2; 2; 2]%nat 0 sampleStrip (mkRandom countingDraws 0))) j
               = nth_error sampleStrip j) /\
    map sym_y (fst (forceWinAdjust sampleTextures [2; 2; 2]%nat 0 sampleStrip (mkRandom countingDraws 0)))
    = map sym_y sampleStrip /\
    used (snd (forceWinAdjust sampleTextures [2; 2; 2]%nat 0 sampleStrip (mkRandom countingDraws 0))) = S (S (used (mkRandom countingDraws 0))).
Proof.
  apply (forced_win_dresses_the_window
           sampleTextures [2; 2; 2]%nat 0 sampleStrip (mkRandom countingDraws 0)).
  apply Nat.leb_le. vm_compute. reflexivity.
Defined.

(* ================================================================== *)
(** ** The page behind the game *)

Section UiFacts.

Local Open Scope string_scope.

Lemma initUIManager_complete (doc : UI.elements) :
  completePage doc ->
  completePage (UI.initUIManager doc) /\
  buttonsDisabled false (UI.initUIManager doc).
Proof.
  intros (H1 & H2 & H3 & H4 & H5 & H6 & H7).
  destruct doc as [sb ab wd wt bd mb mt ok ht ce]. cbn in *.
  destruct sb as [sb|]; [|now elim H1]. destruct ab as [ab|]; [|now elim H2].
  unfold UI.initUIManager, completePage, buttonsDisabled. cbn.
  repeat split; try assumption; discriminate.
Qed.

Lemma replay_tracks_log (u0 : UI.elements) :
  completePage u0 -> buttonsDisabled false u0 ->
  forall l : list uiEvent,
  exists u',
    replayUi l u0 = UI.Returns u' /\ completePage u' /\
    (forall b, displayedBalance l = Some b ->
               UI.balanceDisplay u' = Some (UI.Number b)) /\
    buttonsDisabled (negb (buttonsEnabled l)) u'.
Proof.
  intros C0 B0. induction l as [|e l IH] using rev_ind.
  - exists u0. cbn. repeat split; try apply C0; try apply B0. discriminate.
  - destruct IH as [u1 [R [C [D B]]]].
    rewrite replayUi_app, R. cbn [replayUi].
    rewrite displayedBalance_app, buttonsEnabled_app. cbn [fold_left].
    destruct (applyUiEvent_complete e u1 C) as [u2 [A C2]]. rewrite A.
    exists u2. split; [reflexivity|]. split; [exact C2|].
    destruct C as (H1 & H2 & H3 & H4 & H5 & H6 & H7).
    destruct B as [B1 B2].
    destruct u1 as [sb ab wd wt bd mb mt ok ht ce]. cbn in *.
    destruct sb as [sb|]; [|now elim H1]. destruct ab as [ab|]; [|now elim H2].
    destruct wd as [wd|]; [|now elim H3]. destruct wt as [wt|]; [|now elim H4].
    destruct bd as [bd|]; [|now elim H5]. destruct mb as [mb|]; [|now elim H6].
    destruct mt as [mt|]; [|now elim H7].
    destruct e; cbn in A; injection A as <-; unfold buttonsDisabled; cbn.
    all: split; [intros b Eb|].
    all: try (now apply D).
    all: try (injection Eb as <-; reflexivity).
    all: try exact (conj B1 B2).
    now split.
Qed.

(** X14. The calls the game makes on the UI manager, applied in
    order to a page that has every element, never throw; afterwards
    the balance element shows the current balance, and the two spin
    buttons are disabled exactly while a spin is in progress. *)
Theorem page_shows_game_state
        (draws : nat -> nat) (trace : list event) (doc : UI.elements) :
  completePage doc ->
  exists u',
    replayUi (ui (played draws trace)) (UI.initUIManager doc) = UI.Returns u' /\
    UI.balanceDisplay u' = Some (UI.Number (balance (played draws trace))) /\
    option_map UI.disabled (UI.spinButton u')
    = Some (spinning (played draws trace)) /\
    option_map UI.disabled (UI.autoWinButton u')
    = Some (spinning (played draws trace)).
Proof.
  intros C. destruct (initUIManager_complete doc C) as [C0 B0].
  destruct (replay_tracks_log _ C0 B0 (ui (played draws trace)))
    as [u' [R [_ [D [B1 B2]]]]].
  destruct (ledger_reachable draws trace) as [_ [_ [L3 L4]]].
  fold (played draws trace) in L3, L4.
  exists u'. split; [exact R|]. split; [now apply D|].
  rewrite L4, negb_involutive in B1, B2. now split.
Qed.

Lemma page_shows_game_state_witness :
  exists u',
    replayUi (ui (played countingDraws (Spin false (fun _ => 0) :: frames16 130))) (UI.initUIManager samplePage) = UI.Returns u' /\
    UI.balanceDisplay u' = Some (UI.Number (balance (played countingDraws (Spin false (fun _ => 0) :: frames16 130)))) /\
    option_map UI.disabled (UI.spinButton u')
    = Some (spinning (played countingDraws (Spin false (fun _ => 0) :: frames16 130))) /\
    option_map UI.disabled (UI.autoWinButton u')
    = Some (spinning (played countingDraws (Spin false (fun _ => 0) :: frames16 130))).
Proof.
  apply (page_shows_game_state
           countingDraws (Spin false (fun _ => 0) :: frames16 130) samplePage).
  unfold completePage, samplePage. cbn. repeat split; discriminate.
Defined.

(** X15. [showWinLossMessage] on a page that has the result box and
    its text: the text is set, the box becomes opaque, it keeps its
    other classes and carries exactly the background class of the
    outcome, and one hide timer is started; when that timer fires the
    box is as [hideWinLossMessage] leaves it. *)
Theorem result_message_shows_then_hides
        (message : string) (isWin : bool) (u : UI.elements) :
  UI.winMessageText u <> None -> UI.winMessageDisplay u <> None ->
  exists u1 box box1,
    UI.showWinLossMessage message isWin u = UI.Returns u1 /\
    UI.winMessageDisplay u = Some box /\
    UI.winMessageDisplay u1 = Some box1 /\
    UI.winMessageText u1 = Some (UI.Text message) /\
    UI.opacity box1 = "1" /\
    (forall c, In c (UI.classList box1) <->
               (In c (UI.classList box) /\ c <> "win-bg" /\ c <> "lose-bg") \/
               c = (if isWin then "win-bg" else "lose-bg")) /\
    UI.hideTimers u1 = S (UI.hideTimers u) /\
    UI.hideTimerFires u1
    = UI.Returns (UI.hideWinLossMessage
                    (UI.set_winMessageText (Some (UI.Text message)) u)).
Proof.
  intros H1 H2. destruct u as [sb ab wd wt bd mb mt ok ht ce]. cbn in *.
  destruct wt as [wt|]; [|now elim H1]. destruct wd as [wd|]; [|now elim H2].
  unfold UI.showWinLossMessage. cbn -[UI.addClass UI.removeBackgrounds].
  eexists. exists wd. eexists. split; [reflexivity|].
  cbn -[UI.addClass UI.removeBackgrounds].
  split; [reflexivity|]. split; [reflexivity|]. split; [reflexivity|].
  split; [reflexivity|]. split; [|split; [reflexivity|]].
  - intros c. cbn -[UI.addClass UI.removeBackgrounds].
    destruct isWin; rewrite addClass_In, removeBackgrounds_In; tauto.
  - unfold UI.hideTimerFires, UI.hideWinLossMessage.
    cbn -[UI.addClass UI.removeBackgrounds].
    now rewrite removeBackgrounds_addClass.
Qed.

Lemma result_message_shows_then_hides_witness :
  exists u1 box box1,
    UI.showWinLossMessage "AZAR!" false samplePage = UI.Returns u1 /\
    UI.winMessageDisplay samplePage = Some box /\
    UI.winMessageDisplay u1 = Some box1 /\
    UI.winMessageText u1 = Some (UI.Text "AZAR!") /\
    UI.opacity box1 = "1" /\
    (forall c, In c (UI.classList box1) <->
               (In c (UI.classList box) /\ c <> "win-bg" /\ c <> "lose-bg") \/
               c = (if false then "win-bg" else "lose-bg")) /\
    UI.hideTimers u1 = S (UI.hideTimers samplePage) /\
    UI.hideTimerFires u1
    = UI.Returns (UI.hideWinLossMessage
                    (UI.set_winMessageText (Some (UI.Text "AZAR!")) samplePage)).
Proof.
  apply (result_message_shows_then_hides "AZAR!" false samplePage);
    discriminate.
Defined.

(** X16. [showWinLossMessage] has no guard: it throws exactly when
    the result text or the result box is missing, and when only the
    box is missing the text has already been replaced. *)
Theorem result_message_throws_without_elements
        (message : string) (isWin : bool) (u : UI.elements) :
  ((exists u', UI.showWinLossMessage message isWin u = UI.TypeError u') <->
   (UI.winMessageText u = None \/ UI.winMessageDisplay u = None)) /\
  (forall u', UI.showWinLossMessage message isWin u = UI.TypeError u' ->
              (UI.winMessageText u = None -> u' = u) /\
              (UI.winMessageText u <> None ->
               u' = UI.set_winMessageText (Some (UI.Text message)) u)).
Proof.
  destruct u as [sb ab wd wt bd mb mt ok ht ce].
  unfold UI.showWinLossMessage. cbn.
  destruct wt as [wt|], wd as [wd|]; cbn; split;
    try (split; [intros [u' E]; first [discriminate E | now left | now right]
                |intros [E|E]; try discriminate E; eexists; reflexivity]);
    intros u' E; try discriminate E; injection E as <-;
    (split; [intros C | intros C]); try discriminate C; try reflexivity;
    now elim C.
Qed.

End UiFacts.

(* ================================================================== *)
(** ** The fireworks: explosion and fountain *)

Section ExplosionRuns.

Import Explosion.

Lemma nth_error_seq_Some (a n i j : nat) :
  nth_error (seq a n) i = Some j -> j = (a + i)%nat.
Proof.
  revert a i. induction n as [|n IH]; intros a [|i] H; cbn in H;
    try discriminate H.
  - injection H as <-. lia.
  - apply IH in H. lia.
Qed.

(** X17. For the first 199 frames an explosion keeps all its 500
    particles on the stage and stays scheduled; after [k] frames
    particle [i] has moved [k] times its velocity away from the centre
    and its scale is [0.5 * 0.95 ^ k]. *)
Theorem explosion_in_flight
        (x y : Q) (velocity : nat -> Q * Q) (firstSprite : nat)
        (children : list nat) (k : nat) :
  (k < 200)%nat ->
  length (particles (frames k (explodeRocket x y velocity firstSprite children)))
  = 500%nat /\
  frameRequested (frames k (explodeRocket x y velocity firstSprite children))
  = true /\
  explosionLife (frames k (explodeRocket x y velocity firstSprite children))
  = 200 - Z.of_nat k /\
  stage (frames k (explodeRocket x y velocity firstSprite children))
  = children ++ map (fun j => firstSprite + j)%nat (seq 0 500) /\
  forall i p,
    nth_error (particles (frames k (explodeRocket x y velocity firstSprite
                                                  children))) i = Some p ->
    sprite p = (firstSprite + i)%nat /\
    (px p == x + inject_Z (Z.of_nat k) * fst (velocity i))%Q /\
    (py p == y + inject_Z (Z.of_nat k) * snd (velocity i))%Q /\
    (scaleX p == (1 # 2) * (95 # 100) ^ Z.of_nat k)%Q /\
    (scaleY p == (1 # 2) * (95 # 100) ^ Z.of_nat k)%Q.
Proof.
  intros K. unfold frames. rewrite frames_in_flight by exact K.
  cbn [particles frameRequested explosionLife stage].
  rewrite !length_map, length_seq.
  split; [reflexivity|]. split; [reflexivity|]. split; [reflexivity|].
  split; [reflexivity|]. intros i p H.
  rewrite map_map, nth_error_map in H.
  destruct (nth_error (seq 0 explosionSize) i) as [j|] eqn:J;
    [|discriminate H].
  apply nth_error_seq_Some in J. cbn [option_map] in H.
  injection H as <-. cbn [Nat.add] in J. subst j.
  destruct (iter_move_place k (spawned x y velocity firstSprite i)) as [P1 P2].
  destruct (iter_move_scale k (spawned x y velocity firstSprite i)) as [S1 S2].
  rewrite iter_move_sprite. split; [reflexivity|].
  split; [exact P1|]. split; [exact P2|]. split; [exact S1 | exact S2].
Qed.

Lemma explosion_in_flight_witness :
  length (particles (frames 3 (explodeRocket 100 50
                                (fun i => (inject_Z (Z.of_nat i) - 250, 3)%Q)
                                7 [1; 2; 3]%nat)))
  = 500%nat /\
  frameRequested (frames 3 (explodeRocket 100 50
                              (fun i => (inject_Z (Z.of_nat i) - 250, 3)%Q)
                              7 [1; 2; 3]%nat))
  = true /\
  explosionLife (frames 3 (explodeRocket 100 50
                             (fun i => (inject_Z (Z.of_nat i) - 250, 3)%Q)
                             7 [1; 2; 3]%nat))
  = 200 - Z.of_nat 3 /\
  stage (frames 3 (explodeRocket 100 50
                     (fun i => (inject_Z (Z.of_nat i) - 250, 3)%Q)
                     7 [1; 2; 3]%nat))
  = [1; 2; 3]%nat ++ map (fun j => 7 + j)%nat (seq 0 500) /\
  forall i p,
    nth_error (particles (frames 3 (explodeRocket 100 50
                                      (fun i => (inject_Z (Z.of_nat i) - 250, 3)%Q)
                                      7 [1; 2; 3]%nat))) i = Some p ->
    sprite p = (7 + i)%nat /\
    (px p == 100 + inject_Z (Z.of_nat 3)
                   * fst ((fun i => (inject_Z (Z.of_nat i) - 250, 3)%Q) i))%Q /\
    (py p == 50 + inject_Z (Z.of_nat 3)
                  * snd ((fun i => (inject_Z (Z.of_nat i) - 250, 3)%Q) i))%Q /\
    (scaleX p == (1 # 2) * (95 # 100) ^ Z.of_nat 3)%Q /\
    (scaleY p == (1 # 2) * (95 # 100) ^ Z.of_nat 3)%Q.
Proof.
  apply (explosion_in_flight
           100 50 (fun i => (inject_Z (Z.of_nat i) - 250, 3)%Q) 7
           [1; 2; 3]%nat 3).
  lia.
Defined.

(** X18. From frame 200 on the explosion is over: all its particles
    are gone, the stage has exactly the children it had before, and no
    further frame is requested. *)
Theorem explosion_cleans_up
        (x y : Q) (velocity : nat -> Q * Q) (firstSprite : nat)
        (children : list nat) (k : nat) :
  freshSprites firstSprite children -> (200 <= k)%nat ->
  frames k (explodeRocket x y velocity firstSprite children)
  = mkState [] 0 children false.
Proof. intros F K. now apply frames_after_end. Qed.

Lemma explosion_cleans_up_witness :
  frames 201 (explodeRocket 100 50
                (fun i => (inject_Z (Z.of_nat i) - 250, 3)%Q) 7 [1; 2; 3]%nat)
  = mkState [] 0 [1; 2; 3]%nat false.
Proof.
  apply (explosion_cleans_up
           100 50 (fun i => (inject_Z (Z.of_nat i) - 250, 3)%Q) 7
           [1; 2; 3]%nat 201).
  - intros c [<-|[<-|[<-|[]]]]; lia.
  - lia.
Defined.

End ExplosionRuns.

Section FountainRuns.

Import Fountain.

Local Open Scope Q_scope.

(** X19. One update of a fountain particle with a positive lifetime:
    it is to be removed exactly when its time alive has reached its
    lifetime; its opacity is the initial one up to 70% of the
    lifetime and then falls linearly with the time left; a particle
    of initial opacity 1 that stays has an opacity in (0, 1]. *)
Theorem particle_fades (deltaMs : Q) (p : particle) :
  0 < lifetime p ->
  (snd (particleUpdate deltaMs p) = true <->
   lifetime p <= timeAlive p + deltaMs) /\
  timeAlive (fst (particleUpdate deltaMs p)) = timeAlive p + deltaMs /\
  (timeAlive p + deltaMs <= lifetime p * (7 # 10) ->
   alpha (fst (particleUpdate deltaMs p)) = initialAlpha p) /\
  (lifetime p * (7 # 10) < timeAlive p + deltaMs ->
   alpha (fst (particleUpdate deltaMs p))
   == initialAlpha p *
      ((lifetime p - (timeAlive p + deltaMs)) / (lifetime p * (3 # 10)))) /\
  (initialAlpha p == 1 -> timeAlive p + deltaMs < lifetime p ->
   0 < alpha (fst (particleUpdate deltaMs p)) /\
   alpha (fst (particleUpdate deltaMs p)) <= 1).
Proof.
  intros L. destruct (particleUpdate_alpha deltaMs p L) as [A1 A2].
  cbv zeta in A1, A2.
  change (timeAlive (fst (particleUpdate deltaMs p)))
    with (timeAlive p + deltaMs) in A1, A2.
  split; [apply particleUpdate_dead|]. split; [reflexivity|].
  split; [exact A1|]. split; [exact A2|].
  intros I T.
  destruct (Qlt_le_dec (lifetime p * (7 # 10)) (timeAlive p + deltaMs)) as [H|H].
  - rewrite (A2 H), I.
    destruct (fade_range (lifetime p) (timeAlive p + deltaMs) L H T) as [R1 R2].
    set (r := (lifetime p - (timeAlive p + deltaMs)) / (lifetime p * (3 # 10)))
      in *.
    clearbody r. split; lra.
  - rewrite (A1 H), I. split; [reflexivity | discriminate].
Qed.

Lemma particle_fades_witness :
  (snd (particleUpdate 1200 (newParticle 0 0 1 (-12) 1500)) = true <->
   lifetime (newParticle 0 0 1 (-12) 1500)
   <= timeAlive (newParticle 0 0 1 (-12) 1500) + 1200) /\
  timeAlive (fst (particleUpdate 1200 (newParticle 0 0 1 (-12) 1500)))
  = timeAlive (newParticle 0 0 1 (-12) 1500) + 1200 /\
  (timeAlive (newParticle 0 0 1 (-12) 1500) + 1200
   <= lifetime (newParticle 0 0 1 (-12) 1500) * (7 # 10) ->
   alpha (fst (particleUpdate 1200 (newParticle 0 0 1 (-12) 1500)))
   = initialAlpha (newParticle 0 0 1 (-12) 1500)) /\
  (lifetime (newParticle 0 0 1 (-12) 1500) * (7 # 10)
   < timeAlive (newParticle 0 0 1 (-12) 1500) + 1200 ->
   alpha (fst (particleUpdate 1200 (newParticle 0 0 1 (-12) 1500)))
   == initialAlpha (newParticle 0 0 1 (-12) 1500) *
      ((lifetime (newParticle 0 0 1 (-12) 1500)
        - (timeAlive (newParticle 0 0 1 (-12) 1500) + 1200))
       / (lifetime (newParticle 0 0 1 (-12) 1500) * (3 # 10)))) /\
  (initialAlpha (newParticle 0 0 1 (-12) 1500) == 1 ->
   timeAlive (newParticle 0 0 1 (-12) 1500) + 1200
   < lifetime (newParticle 0 0 1 (-12) 1500) ->
   0 < alpha (fst (particleUpdate 1200 (newParticle 0 0 1 (-12) 1500))) /\
   alpha (fst (particleUpdate 1200 (newParticle 0 0 1 (-12) 1500))) <= 1).
Proof.
  apply (particle_fades 1200 (newParticle 0 0 1 (-12) 1500)).
  reflexivity.
Defined.



(** X21. Whatever happens to a fountain, as long as time does not
    run backwards: each of its particles is younger than its lifetime
    of 1500 ms and has an opacity in (0, 1]; the emission timer stays
    within one interval; and the fountain leaves the ticker only after
    its emission has stopped, with no particle left and its container
    off the stage. *)
Theorem fountain_particles_in_flight
        (rand : nat -> Q) (es : list event)
        (canvasCenterX canvasCenterY x y : Q) (drawn0 : nat) :
  forwardTicks es ->
  Forall inFlight
         (particles (run rand es (newFountain canvasCenterX canvasCenterY x y
                                              drawn0))) /\
  0 <= emissionTimer (run rand es (newFountain canvasCenterX canvasCenterY x y
                                               drawn0)) /\
  emissionTimer (run rand es (newFountain canvasCenterX canvasCenterY x y
                                          drawn0)) < 10 /\
  (onTicker (run rand es (newFountain canvasCenterX canvasCenterY x y drawn0))
   = false ->
   isEmitting (run rand es (newFountain canvasCenterX canvasCenterY x y drawn0))
   = false /\
   particles (run rand es (newFountain canvasCenterX canvasCenterY x y drawn0))
   = [] /\
   containerOnStage (run rand es (newFountain canvasCenterX canvasCenterY x y
                                              drawn0)) = false).
Proof.
  intros F.
  destruct (settled_run rand es _ F
              (settled_new canvasCenterX canvasCenterY x y drawn0))
    as [_ [T0 [T1 [P [Off _]]]]].
  split; [exact P|]. split; [exact T0|]. split; [exact T1 | exact Off].
Qed.

Lemma fountain_particles_in_flight_witness :
  Forall inFlight
         (particles (run risingDraws sampleShow (newFountain 400 300 10 20 0))) /\
  0 <= emissionTimer (run risingDraws sampleShow (newFountain 400 300 10 20 0)) /\
  emissionTimer (run risingDraws sampleShow (newFountain 400 300 10 20 0)) < 10 /\
  (onTicker (run risingDraws sampleShow (newFountain 400 300 10 20 0))
   = false ->
   isEmitting (run risingDraws sampleShow (newFountain 400 300 10 20 0))
   = false /\
   particles (run risingDraws sampleShow (newFountain 400 300 10 20 0))
   = [] /\
   containerOnStage (run risingDraws sampleShow (newFountain 400 300 10 20 0)) = false).
Proof.
  apply (fountain_particles_in_flight risingDraws sampleShow 400 300 10 20 0).
  unfold forwardTicks, sampleShow. repeat constructor; discriminate.
Defined.





Lemma untextured_run rand : forall es f,
  textureMissing es -> particles f = [] ->
  particles (run rand es f) = [] /\ drawn (run rand es f) = drawn f.
Proof.
  induction es as [|e es IH]; intros f M P; [now split|].
  cbn [run fold_left].
  destruct (untextured_step rand f e (Forall_inv M) P) as [A B].
  destruct (IH _ (Forall_inv_tail M) A) as [C D].
  split; [exact C | rewrite <- B; exact D].
Qed.

(** X23. A fountain whose particle texture never loads shows no
    particle and takes no random draw, however long it runs. *)
Theorem fountain_without_texture
        (rand : nat -> Q) (es : list event)
        (canvasCenterX canvasCenterY x y : Q) (drawn0 : nat) :
  textureMissing es ->
  particles (run rand es (newFountain canvasCenterX canvasCenterY x y drawn0))
  = [] /\
  drawn (run rand es (newFountain canvasCenterX canvasCenterY x y drawn0))
  = drawn0.
Proof. intros M. now apply untextured_run. Qed.

(** X24. Once the emission timeout has fired, updates that add up
    to one particle lifetime (1500 ms) end the fountain: it has taken
    itself off the ticker, with no particle left and its container
    removed from the stage. *)
Theorem fountain_burns_out
        (rand : nat -> Q) (before after : list event)
        (canvasCenterX canvasCenterY x y : Q) (drawn0 : nat) :
  forwardTicks before -> 1500 <= elapsed after ->
  onTicker (run rand (before ++ EmissionTimeout :: after)
                (newFountain canvasCenterX canvasCenterY x y drawn0)) = false /\
  particles (run rand (before ++ EmissionTimeout :: after)
                 (newFountain canvasCenterX canvasCenterY x y drawn0)) = [] /\
  containerOnStage (run rand (before ++ EmissionTimeout :: after)
                        (newFountain canvasCenterX canvasCenterY x y drawn0))
  = false.
Proof.
  intros F E. rewrite run_app. cbn [run fold_left step].
  apply (fading_run rand after 1500); [|exact E].
  apply settled_fading, settled_run; [exact F | apply settled_new].
Qed.

Lemma fountain_burns_out_witness :
  onTicker (run risingDraws ([Tick 25 true; Tick 1040 true] ++ EmissionTimeout :: [Tick 300 true; Tick 1200 true])
                (newFountain 400 300 10 20 0)) = false /\
  particles (run risingDraws ([Tick 25 true; Tick 1040 true] ++ EmissionTimeout :: [Tick 300 true; Tick 1200 true])
                 (newFountain 400 300 10 20 0)) = [] /\
  containerOnStage (run risingDraws ([Tick 25 true; Tick 1040 true] ++ EmissionTimeout :: [Tick 300 true; Tick 1200 true])
                        (newFountain 400 300 10 20 0))
  = false.
Proof.
  apply (fountain_burns_out
           risingDraws [Tick 25 true; Tick 1040 true]
           [Tick 300 true; Tick 1200 true] 400 300 10 20 0).
  - repeat constructor; discriminate.
  - vm_compute. discriminate.
Defined.

Lemma fountain_without_texture_witness :
  particles (run risingDraws [Tick 25 false; EmissionTimeout; Tick 16 false] (newFountain 400 300 10 20 0))
  = [] /\
  drawn (run risingDraws [Tick 25 false; EmissionTimeout; Tick 16 false] (newFountain 400 300 10 20 0))
  = 0%nat.
Proof.
  apply (fountain_without_texture
           risingDraws [Tick 25 false; EmissionTimeout; Tick 16 false]
           400 300 10 20 0).
  repeat constructor.
Defined.

End FountainRuns.
